(** * Metric-learning losses: distances, condensed indexing, triplet sampling,
      triplet loss and the additive angular margin loss.

    Shallow embedding of [distances.py], [losses/triplet.py] and [arcface.py],
    with the loss that [losses/config.py] builds for the triplet setting, the
    Spearman metrics and the evaluators' bookkeeping of [metrics.py], and the
    word lookup of [pwim.py].

    Conventions.
    - Python integers and numpy [int64] values are [Z]; positions produced by
      [enumerate], [range] and [np.where] are [nat].
    - Tensor entries are real numbers ([R]): floating-point rounding and
      overflow are idealised away.  The index arithmetic of [to_condensed]
      is also followed on int64 and binary64 ([Machine]), where rounding
      decides what the function returns for very large [n].  The one non-finite value the code can
      produce from finite inputs, NaN, is kept ([value]): the mean of an
      empty tensor and [acos] outside [-1, 1].
    - A batch (N, d) is a list of N rows of the same length d; a 1-D tensor
      is a list; the result of an indexing by an integer or of [torch.dist]
      is 0-dimensional ([T0]), which the code does distinguish from a 1-D
      tensor ([T1]).
    - Python exceptions are the [Err] results of the [result] monad; the
      evaluation code can raise three more, kept in [outcome].
    - Library functions ([F.cosine_similarity], [F.pdist], [torch.dist],
      [F.normalize], [gather], [scatter_], [nn.CrossEntropyLoss],
      [np.argmin], [squareform], ...) are written out from their
      documentation, each next to the code that calls it.
    - [to_condensed] is imported by [losses/triplet.py] from pyannote;
      [distances.py] keeps its text, which is what is embedded here. *)

From Stdlib Require Import String ZArith QArith Reals List Lia Lra Bool PeanoNat.
Import ListNotations.

Set Implicit Arguments.

(** ** Exceptions *)

Inductive error : Type :=
| ValueError
| RuntimeError
| IndexError
| NotImplementedError.

Inductive result (A : Type) : Type :=
| Ok (a : A)
| Err (e : error).

Arguments Ok {A} a.
Arguments Err {A} e.

Definition bind {A B : Type} (r : result A) (k : A -> result B) : result B :=
  match r with
  | Ok a => k a
  | Err e => Err e
  end.

Notation "x <- r ;; k" := (bind r (fun x => k))
  (at level 61, r at next level, right associativity).
Notation "' pat <- r ;; k" := (bind r (fun x => match x with pat => k end))
  (at level 61, pat pattern, r at next level, right associativity).

Fixpoint mapM {A B : Type} (f : A -> result B) (l : list A) : result (list B) :=
  match l with
  | [] => Ok []
  | a :: t => b <- f a ;; bs <- mapM f t ;; Ok (b :: bs)
  end.

(** ** Values and tensors *)

(** A float as far as the model needs it: a real number or NaN. *)
Inductive value : Type :=
| Num (r : R)
| NaN.

Definition row : Type := list R.
Definition batch : Type := list row.

(** What [dist] and an indexing return: a 0-dimensional or a 1-D tensor. *)
Inductive tensor : Type :=
| T0 (v : R)
| T1 (l : list R).

(** Broadcasting of two 1-D operands: equal lengths, or one of length 1. *)
Definition broadcast2 {A B C : Type} (f : A -> B -> C)
  (l1 : list A) (l2 : list B) : result (list C) :=
  if (length l1 =? length l2)%nat then
    Ok (map (fun p => f (fst p) (snd p)) (combine l1 l2))
  else
    match l1, l2 with
    | [a], _ => Ok (map (f a) l2)
    | _, [b] => Ok (map (fun a => f a b) l1)
    | _, _ => Err RuntimeError
    end.

(** ** distances.py *)

Module Distances.

(** *** [to_condensed] (lines 9-36) *)

(** [np.int64] applied to a float: truncation toward zero. *)
Definition np_int64 (q : Q) : Z := Z.quot (Qnum q) (Zpos (Qden q)).

(** [i * n - i * i / 2 - 3 * i / 2 + j - 1] in exact arithmetic: the
    products are integer, [/] is true division.  This is what numpy's
    evaluation on int64 and binary64 ([Machine.condensed_expr] below)
    returns as long as n * n <= 2^53, that is for every batch of up to
    94906265 rows; the claims on batches are stated on it. *)
Definition condensed_expr (n i j : Z) : Q :=
  (inject_Z (i * n) - inject_Z (i * i) / 2 - inject_Z (3 * i) / 2
   + inject_Z j - 1)%Q.

(** The last two lines of [to_condensed], after the check. *)
Definition condensed_offset (n i j : Z) : Z :=
  let i' := Z.min i j in
  let j' := Z.max i j in
  np_int64 (condensed_expr n i' j').

(** [to_condensed(n, i, j)] on two integers. *)
Definition to_condensed (n i j : Z) : result Z :=
  if (i =? j)%Z then Err ValueError
  else Ok (condensed_offset n i j).

(** [to_condensed(n, i, j)] on two index arrays: [np.any(i == j)] guards the
    whole call. *)
Definition to_condensed_arr (n : Z) (i j : list Z) : result (list Z) :=
  match broadcast2 (fun a b => (a, b)) i j with
  | Err _ => Err ValueError
  | Ok ps =>
      if existsb (fun p => (fst p =? snd p)%Z) ps then Err ValueError
      else Ok (map (fun p => condensed_offset n (fst p) (snd p)) ps)
  end.

Local Open Scope R_scope.

(** *** Row arithmetic *)

Definition rsum (l : list R) : R := fold_right Rplus 0 l.

Definition zip_with {A B C : Type} (f : A -> B -> C) (a : list A) (b : list B)
  : list C :=
  map (fun p => f (fst p) (snd p)) (combine a b).

Definition dot (a b : row) : R := rsum (zip_with Rmult a b).

Definition norm2 (a : row) : R := sqrt (dot a a).

(** [x[i:j]] for non-negative bounds. *)
Definition slice {A : Type} (x : list A) (i j : nat) : list A :=
  firstn (j - i) (skipn i x).

(** *** The interface: class [Distance] *)

Record Distance : Type := {
  dist : batch -> batch -> result tensor;
  pdist : batch -> result (list R);
  sqdist_sum : batch -> batch -> result R;
  to_sklearn_metric : result String.string
}.

(** The base class: every method raises. *)
Definition Distance_base : Distance := {|
  dist := fun _ _ => Err NotImplementedError;
  pdist := fun _ => Err NotImplementedError;
  sqdist_sum := fun _ _ => Err NotImplementedError;
  to_sklearn_metric := Err NotImplementedError
|}.

(** *** [CosineDistance] *)

Definition eps_cos : R := / 100000000.

(** [F.cosine_similarity] on one pair of rows:
    x1.x2 / max(|x1| * |x2|, eps). *)
Definition cosine_row (eps : R) (a b : row) : R :=
  dot a b / Rmax (norm2 a * norm2 b) eps.

(** [F.cosine_similarity(x1, x2, dim=1, eps)]: one similarity per row. *)
Definition cosine_similarity (x1 x2 : batch) (eps : R) : result (list R) :=
  broadcast2 (cosine_row eps) x1 x2.

(** [r.expand(k, -1)] of a row. *)
Definition expand (r : row) (k : nat) : batch := repeat r k.

(** [torch.cat] of 1-D tensors; an empty list of tensors is refused. *)
Definition torch_cat (ts : list (list R)) : result (list R) :=
  match ts with
  | [] => Err RuntimeError
  | _ => Ok (concat ts)
  end.

Definition CosineDistance_dist (x y : batch) : result tensor :=
  c <- cosine_similarity x y eps_cos ;;
  Ok (T1 (map (fun v => 1 - v) c)).

Definition CosineDistance_sqdist_sum (x y : batch) : result R :=
  c <- cosine_similarity x y eps_cos ;;
  Ok (rsum (map (fun v => (1 - v) ^ 2) c)).

Definition CosineDistance_pdist (x : batch) : result (list R) :=
  let nbatch := length x in
  distances <-
    mapM (fun i =>
            c <- cosine_similarity
                   (expand (nth i x []) (nbatch - 1 - i))
                   (skipn (i + 1) x) eps_cos ;;
            Ok (map (fun v => 1 - v) c))
         (seq 0 (nbatch - 1)) ;;
  torch_cat distances.

Definition CosineDistance : Distance := {|
  dist := CosineDistance_dist;
  pdist := CosineDistance_pdist;
  sqdist_sum := CosineDistance_sqdist_sum;
  to_sklearn_metric := Ok "cosine"%string
|}.

(** *** [EuclideanDistance] *)

(** The 2-norm of a row difference. *)
Definition l2_row (a b : row) : R :=
  sqrt (rsum (map (fun v => v ^ 2) (zip_with Rminus a b))).

(** [x - y] on two batches, rows broadcast. *)
Definition batch_sub (x y : batch) : result batch :=
  broadcast2 (zip_with Rminus) x y.

(** [torch.dist(x, y, p=2)]: the 2-norm of [x - y] taken over all its
    entries, a 0-dimensional tensor. *)
Definition torch_dist (x y : batch) : result R :=
  d <- batch_sub x y ;;
  Ok (sqrt (rsum (map (fun v => v ^ 2) (concat d)))).

(** [F.pdist(x)]: the 2-norm distance of every pair of rows, the upper
    triangle of the distance matrix read row by row. *)
Fixpoint torch_pdist (x : batch) : list R :=
  match x with
  | [] => []
  | r :: rest => map (l2_row r) rest ++ torch_pdist rest
  end.

Definition EuclideanDistance_dist (x y : batch) : result tensor :=
  v <- torch_dist x y ;;
  Ok (T0 v).

Definition EuclideanDistance_sqdist_sum (x y : batch) : result R :=
  d <- batch_sub x y ;;
  Ok (rsum (map (fun v => v ^ 2) (concat d))).

Definition EuclideanDistance_pdist (x : batch) : result (list R) :=
  Ok (torch_pdist x).

Definition EuclideanDistance : Distance := {|
  dist := EuclideanDistance_dist;
  pdist := EuclideanDistance_pdist;
  sqdist_sum := EuclideanDistance_sqdist_sum;
  to_sklearn_metric := Ok "euclidean"%string
|}.

(** [t[k]] on a 1-D tensor with a Python integer: negative indices count from
    the end. *)
Definition tensor_get (t : list R) (k : Z) : result R :=
  let len := Z.of_nat (length t) in
  let k' := if (k <? 0)%Z then (k + len)%Z else k in
  if ((0 <=? k') && (k' <? len))%Z then
    match nth_error t (Z.to_nat k') with
    | Some v => Ok v
    | None => Err IndexError
    end
  else Err IndexError.

(** [t[ks]] on a 1-D tensor with an integer array. *)
Definition tensor_take (t : list R) (ks : list Z) : result (list R) :=
  mapM (tensor_get t) ks.

End Distances.

(** ** [to_condensed] on int64 and binary64

    [Distances.condensed_expr] reads the expression of [to_condensed] in
    exact arithmetic.  numpy evaluates it on machine numbers: the products
    in int64, each division and every operation after it in binary64.  This
    module follows that evaluation, for int64 values of [i], [j] and [n];
    the two agree as long as the square of [n] stays within the 53 bits of
    a binary64 mantissa, and differ beyond. *)

Module Machine.

(** An int64 result: numpy integer arithmetic wraps around. *)
Definition wrap64 (z : Z) : Z := ((z + 2 ^ 63) mod 2 ^ 64 - 2 ^ 63)%Z.

(** A finite binary64 value, [mant * 2 ^ expo].  The values of
    [to_condensed] are sums, differences and halves of int64 operands: zero
    or at least 1/2 in magnitude, and far below 2^1024, so that no
    subnormal number, infinity or NaN arises. *)
Record binary64 : Type := B64 { mant : Z; expo : Z }.

(** Dropping the [d] lowest bits of a mantissa: to nearest, ties to even. *)
Definition rne_shift (m d : Z) : Z :=
  let a := Z.abs m in
  let q := (a / 2 ^ d)%Z in
  let r := (a mod 2 ^ d)%Z in
  let half := (2 ^ (d - 1))%Z in
  let q' := if (r <? half)%Z then q
            else if (half <? r)%Z then (q + 1)%Z
            else if Z.even q then q else (q + 1)%Z in
  (Z.sgn m * q')%Z.

(** The rounding that ends every binary64 operation: 53 significant
    bits. *)
Definition round53 (m e : Z) : binary64 :=
  let d := (Z.log2 (Z.abs m) + 1 - 53)%Z in
  if (0 <? d)%Z then B64 (rne_shift m d) (e + d) else B64 m e.

(** An int64 operand of a binary64 operation. *)
Definition of_int64 (z : Z) : binary64 := round53 z 0.

Definition add (x y : binary64) : binary64 :=
  let e := Z.min (expo x) (expo y) in
  round53 (mant x * 2 ^ (expo x - e) + mant y * 2 ^ (expo y - e)) e.

Definition sub (x y : binary64) : binary64 :=
  let e := Z.min (expo x) (expo y) in
  round53 (mant x * 2 ^ (expo x - e) - mant y * 2 ^ (expo y - e)) e.

(** [x / 2]: a division by two is exact. *)
Definition half (x : binary64) : binary64 := B64 (mant x) (expo x - 1).

(** [np.int64] applied to a binary64 value: truncation toward zero, which
    is what the conversion returns for a value inside the int64 range. *)
Definition np_int64 (x : binary64) : Z :=
  if (0 <=? expo x)%Z then (mant x * 2 ^ expo x)%Z
  else Z.quot (mant x) (2 ^ (- expo x)).

(** [i * n - i * i / 2 - 3 * i / 2 + j - 1], operation by operation, from
    left to right: [i * n], [i * i] and [3 * i] are int64 products. *)
Definition condensed_expr (n i j : Z) : binary64 :=
  let t1 := of_int64 (wrap64 (i * n)) in
  let t2 := half (of_int64 (wrap64 (i * i))) in
  let t3 := half (of_int64 (wrap64 (3 * i))) in
  sub (add (sub (sub t1 t2) t3) (of_int64 j)) (of_int64 1).

Definition condensed_offset (n i j : Z) : Z :=
  let i' := Z.min i j in
  let j' := Z.max i j in
  np_int64 (condensed_expr n i' j').

(** [to_condensed(n, i, j)] on two int64 indices. *)
Definition to_condensed (n i j : Z) : result Z :=
  if (i =? j)%Z then Err ValueError
  else Ok (condensed_offset n i j).

End Machine.

(** ** losses/triplet.py *)

Module Triplet.
Import Distances.
Local Open Scope R_scope.

(** *** numpy and scipy helpers *)

Definition enumerate {A : Type} (l : list A) : list (nat * A) :=
  combine (seq 0 (List.length l)) l.

(** [np.where(cond)[0]]: the positions where the condition holds. *)
Definition np_where (p : Z -> bool) (y : list Z) : list nat :=
  map fst (List.filter (fun q => p (snd q)) (enumerate y)).

(** [d[idx]] on a numpy vector with an array of positions. *)
Definition np_take (d : list R) (idx : list nat) : result (list R) :=
  mapM (fun k => match nth_error d k with
                 | Some v => Ok v
                 | None => Err IndexError
                 end) idx.

Fixpoint argmin_from (bi : nat) (bv : R) (i : nat) (l : list R) : nat :=
  match l with
  | [] => bi
  | v :: t => if Rlt_dec v bv then argmin_from i v (S i) t
              else argmin_from bi bv (S i) t
  end.

Fixpoint argmax_from (bi : nat) (bv : R) (i : nat) (l : list R) : nat :=
  match l with
  | [] => bi
  | v :: t => if Rlt_dec bv v then argmax_from i v (S i) t
              else argmax_from bi bv (S i) t
  end.

(** [np.argmin]: the first position of the minimum; refuses an empty
    sequence. *)
Definition np_argmin (l : list R) : result nat :=
  match l with
  | [] => Err ValueError
  | v :: t => Ok (argmin_from 0 v 1 t)
  end.

Definition np_argmax (l : list R) : result nat :=
  match l with
  | [] => Err ValueError
  | v :: t => Ok (argmax_from 0 v 1 t)
  end.

(** Position of the pair (i, j), i < j, in a condensed vector for d points. *)
Definition pair_index (d i j : nat) : nat :=
  (i * d - i * (i + 1) / 2 - i + j - 1)%nat.

(** [scipy.spatial.distance.squareform] on a condensed vector. *)
Definition squareform (v : list R) : result (list (list R)) :=
  match v with
  | [] => Ok [[0]]
  | _ =>
      let m := List.length v in
      let r := Nat.sqrt (2 * m) in
      let d := if (r * r =? 2 * m)%nat then r else S r in
      if (d * (d - 1) =? 2 * m)%nat then
        Ok (map (fun i =>
                   map (fun j =>
                          if (i =? j)%nat then 0
                          else nth (pair_index d (Nat.min i j) (Nat.max i j)) v 0)
                       (seq 0 d))
                (seq 0 d))
      else Err ValueError
  end.

Definition index_row (D : list (list R)) (k : nat) : result (list R) :=
  match nth_error D k with
  | Some r => Ok r
  | None => Err IndexError
  end.

Definition unzip3 {A B C : Type} (l : list (A * B * C))
  : list A * list B * list C :=
  (map (fun t => fst (fst t)) l, map (fun t => snd (fst t)) l, map snd l).

(** *** Sampling strategies *)

Definition triplet_lists : Type := (list nat * list nat * list nat)%type.

(** What a [filter] hands back: the base class returns the two distance
    tensors, [SemiHardNegative] a mask. *)
Inductive filter_result : Type :=
| Kept (dist_pos dist_neg : tensor)
| Mask (keep_inds : list R).

Record TripletSamplingStrategy : Type := {
  triplets : list Z -> list R -> result triplet_lists;
  filter : tensor -> tensor -> result filter_result
}.

Definition base_triplets (y : list Z) (distances : list R)
  : result triplet_lists := Err NotImplementedError.

Definition base_filter (dist_pos dist_neg : tensor) : result filter_result :=
  Ok (Kept dist_pos dist_neg).

(** [BatchAll.triplets]: the three nested loops, as the list of triples
    appended. *)
Definition BatchAll_loop (y : list Z) : list (nat * nat * nat) :=
  flat_map (fun a =>
    flat_map (fun p =>
      if (fst a =? fst p)%nat || negb (snd a =? snd p)%Z then []
      else
        flat_map (fun n =>
          if (snd n =? snd a)%Z then []
          else [(fst a, fst p, fst n)])
        (enumerate y))
    (enumerate y))
  (enumerate y).

Definition BatchAll_triplets (y : list Z) (distances : list R)
  : result triplet_lists :=
  Ok (unzip3 (BatchAll_loop y)).

Definition BatchAll : TripletSamplingStrategy := {|
  triplets := BatchAll_triplets;
  filter := base_filter
|}.

Definition Rgeb (a b : R) : bool := if Rge_dec a b then true else false.

(** [SemiHardNegative.filter]: [dist_pos] is not read. *)
Definition SemiHardNegative_filter (m deviation : R)
  (dist_pos dist_neg : tensor) : result filter_result :=
  match dist_neg with
  | T0 _ => Err IndexError
  | T1 l =>
      Ok (Mask (map (fun dn =>
                       if Rgeb m dn || Rgeb deviation (dn - m) then 1 else 0)
                    l))
  end.

Definition SemiHardNegative (m deviation : R) : TripletSamplingStrategy := {|
  triplets := base_triplets;
  filter := SemiHardNegative_filter m deviation
|}.

Definition HardestNegative_triplets (y : list Z) (distances : list R)
  : result triplet_lists :=
  D <- squareform distances ;;
  per_anchor <-
    mapM (fun a =>
            let anchor := fst a in
            let y_anchor := snd a in
            d <- index_row D anchor ;;
            let neg := np_where (fun l => negb (l =? y_anchor)%Z) y in
            d_neg <- np_take d neg ;;
            k <- np_argmin d_neg ;;
            let negative := nth k neg 0%nat in
            Ok (flat_map (fun positive =>
                            if (positive =? anchor)%nat then []
                            else [(anchor, positive, negative)])
                         (np_where (fun l => (l =? y_anchor)%Z) y)))
         (enumerate y) ;;
  Ok (unzip3 (concat per_anchor)).

Definition HardestNegative : TripletSamplingStrategy := {|
  triplets := HardestNegative_triplets;
  filter := base_filter
|}.

Definition HardestPositiveNegative_triplets (y : list Z) (distances : list R)
  : result triplet_lists :=
  D <- squareform distances ;;
  per_anchor <-
    mapM (fun a =>
            let anchor := fst a in
            let y_anchor := snd a in
            d <- index_row D anchor ;;
            let pos := List.filter (fun p => negb (p =? anchor)%nat)
                         (np_where (fun l => (l =? y_anchor)%Z) y) in
            let neg := np_where (fun l => negb (l =? y_anchor)%Z) y in
            d_pos <- np_take d pos ;;
            match d_pos with
            | [] => Ok []
            | _ =>
                d_neg <- np_take d neg ;;
                match d_neg with
                | [] => Ok []
                | _ =>
                    kp <- np_argmax d_pos ;;
                    kn <- np_argmin d_neg ;;
                    Ok [(anchor, nth kp pos 0%nat, nth kn neg 0%nat)]
                end
            end)
         (enumerate y) ;;
  Ok (unzip3 (concat per_anchor)).

Definition HardestPositiveNegative : TripletSamplingStrategy := {|
  triplets := HardestPositiveNegative_triplets;
  filter := base_filter
|}.

(** *** Tensor arithmetic of the loss *)

Definition tensor_map (f : R -> R) (t : tensor) : tensor :=
  match t with
  | T0 v => T0 (f v)
  | T1 l => T1 (map f l)
  end.

(** [torch.pow(t, k)] *)
Definition torch_pow (t : tensor) (k : nat) : tensor :=
  tensor_map (fun v => v ^ k) t.

(** [a - b] with broadcasting. *)
Definition tensor_sub (a b : tensor) : result tensor :=
  match a, b with
  | T0 u, T0 v => Ok (T0 (u - v))
  | T0 u, T1 l => Ok (T1 (map (fun v => u - v) l))
  | T1 l, T0 v => Ok (T1 (map (fun u => u - v) l))
  | T1 l1, T1 l2 => l <- broadcast2 Rminus l1 l2 ;; Ok (T1 l)
  end.

(** [F.relu] *)
Definition relu (t : tensor) : tensor := tensor_map (Rmax 0) t.

(** [t.sum()] *)
Definition tensor_sum (t : tensor) : value :=
  match t with
  | T0 v => Num v
  | T1 l => Num (rsum l)
  end.

(** [t.mean()]: NaN on an empty tensor. *)
Definition tensor_mean (t : tensor) : value :=
  match t with
  | T0 v => Num v
  | T1 [] => NaN
  | T1 l => Num (rsum l / INR (List.length l))
  end.

(** *** [TripletLoss] *)

Record TripletLoss : Type := {
  margin : R;
  distance : Distance;
  size_average : bool;
  online : bool;
  sampling : TripletSamplingStrategy
}.

Definition _calculate_distances (self : TripletLoss) (x : batch) (y : list Z)
  : result (list R * list R) :=
  let n := Z.of_nat (List.length x) in
  d <- pdist (distance self) x ;;
  t <- triplets (sampling self) y d ;;
  let anchors := map Z.of_nat (fst (fst t)) in
  let positives := map Z.of_nat (snd (fst t)) in
  let negatives := map Z.of_nat (snd t) in
  pos <- to_condensed_arr n anchors positives ;;
  neg <- to_condensed_arr n anchors negatives ;;
  dpos <- tensor_take d pos ;;
  dneg <- tensor_take d neg ;;
  Ok (dpos, dneg).

(** The last two statements of [forward]: the hinge and its reduction. *)
Definition margin_loss (self : TripletLoss) (dpos dneg : tensor)
  : result value :=
  diff <- tensor_sub (torch_pow dpos 2) (torch_pow dneg 2) ;;
  let loss := relu (tensor_map (fun v => v + margin self) diff) in
  Ok (if size_average self then tensor_mean loss else tensor_sum loss).

(** What [feat] is: a batch when online, three batches when offline. *)
Definition feat_type (online : bool) : Type :=
  if online then batch else (batch * batch * batch)%type.

Definition forward {L : Type} (self : TripletLoss)
  (feat : feat_type (online self)) (logits : L) (y : list Z) : result value :=
  d <- (if online self as b return feat_type b -> result (tensor * tensor)
        then fun feat =>
               d <- _calculate_distances self feat y ;;
               Ok (T1 (fst d), T1 (snd d))
        else fun feat =>
               let anchors := fst (fst feat) in
               let positives := snd (fst feat) in
               let negatives := snd feat in
               dpos <- dist (distance self) anchors positives ;;
               dneg <- dist (distance self) anchors negatives ;;
               Ok (dpos, dneg)) feat ;;
  margin_loss self (fst d) (snd d).

End Triplet.

(** ** arcface.py *)

Module ArcFace.
Import Distances.
Local Open Scope R_scope.

(** *** NaN-aware arithmetic *)

Definition vlift1 (f : R -> R) (a : value) : value :=
  match a with
  | Num x => Num (f x)
  | NaN => NaN
  end.

Definition vlift2 (f : R -> R -> R) (a b : value) : value :=
  match a, b with
  | Num x, Num y => Num (f x y)
  | _, _ => NaN
  end.

Definition vadd : value -> value -> value := vlift2 Rplus.
Definition vsub : value -> value -> value := vlift2 Rminus.
Definition vmul : value -> value -> value := vlift2 Rmult.
Definition vsum (l : list value) : value := fold_right vadd (Num 0) l.

Definition vmean (l : list value) : value :=
  match l with
  | [] => NaN
  | _ => vlift1 (fun t => t / INR (List.length l)) (vsum l)
  end.

(** [torch.acos]: NaN outside [-1, 1]. *)
Definition torch_acos (c : R) : value :=
  if Rle_dec (-1) c then
    if Rle_dec c 1 then Num (acos c) else NaN
  else NaN.

(** *** torch helpers *)

Definition eps_norm : R := / 10 ^ 12.

(** [F.normalize(x)]: p = 2, dim = 1: every row divided by
    max(its 2-norm, eps). *)
Definition normalize (x : batch) : batch :=
  map (fun v => map (fun a => a / Rmax (norm2 v) eps_norm) v) x.

Definition column (c : nat) (b : batch) : row := map (fun r => nth c r 0) b.

(** [torch.mm(a, b)] with [b] of [ncol] columns. *)
Definition mm (ncol : nat) (a b : batch) : batch :=
  map (fun r => map (fun c => dot r (column c b)) (seq 0 ncol)) a.

(** An entry of a row by a class index; [gather] and [scatter_] refuse an
    index outside the row. *)
Definition row_get {A : Type} (r : list A) (k : Z) : result A :=
  if (k <? 0)%Z then Err RuntimeError
  else match nth_error r (Z.to_nat k) with
       | Some v => Ok v
       | None => Err RuntimeError
       end.

(** [m.gather(1, y)] with [y] of shape (N', 1). *)
Definition gather (m : batch) (y : list Z) : result (list R) :=
  if (List.length y <=? List.length m)%nat then
    mapM (fun p => row_get (fst p) (snd p)) (combine m y)
  else Err RuntimeError.

Definition row_set (r : row) (k : Z) (v : R) : result row :=
  _ <- row_get r k ;;
  Ok (map (fun p => if (fst p =? Z.to_nat k)%nat then v else snd p)
          (combine (seq 0 (List.length r)) r)).

(** [m.scatter_(1, y, v)] with [y] of shape (N', 1). *)
Definition scatter (m : batch) (y : list Z) (v : R) : result batch :=
  if (List.length y <=? List.length m)%nat then
    top <- mapM (fun p => row_set (fst p) (snd p) v) (combine m y) ;;
    Ok (top ++ skipn (List.length y) m)
  else Err RuntimeError.

Definition zeros_like (m : batch) : batch := map (map (fun _ => 0)) m.

(** [a += b] on matrices: [b] is broadcast to the shape of [a]. *)
Definition iadd (a b : list (list value)) : result (list (list value)) :=
  if (List.length a =? List.length b)%nat then
    Ok (zip_with (zip_with vadd) a b)
  else
    match b with
    | [r] => Ok (map (fun ra => zip_with vadd ra r) a)
    | _ => Err RuntimeError
    end.

(** [nn.CrossEntropyLoss()] (mean reduction, [ignore_index] = -100). *)
Definition CrossEntropyLoss (input : list (list value)) (target : list Z)
  : result value :=
  if (List.length input =? List.length target)%nat then
    terms <-
      mapM (fun p =>
              match row_get (fst p) (snd p) with
              | Ok v =>
                  Ok (vsub (vlift1 ln (vsum (map (vlift1 exp) (fst p)))) v)
              | Err _ => Err IndexError
              end)
           (List.filter (fun p => negb (snd p =? -100)%Z)
                        (combine input target)) ;;
    Ok (vmean terms)
  else Err ValueError.

(** *** [ArcLoss] *)

Record ArcLoss : Type := {
  nclass : nat;
  margin : R;
  s : R;
  W : batch
}.

(** [torch.mm(F.normalize(x), F.normalize(self.W))] *)
Definition cos_theta_j (self : ArcLoss) (x : batch) : batch :=
  mm (nclass self) (normalize x) (normalize (W self)).

(** The tensor handed to [torch.acos]. *)
Definition cos_theta_yi (self : ArcLoss) (x : batch) (y : list Z)
  : result (list R) :=
  gather (cos_theta_j self x) y.

(** [torch.cos(torch.acos(cos_theta_yi) + self.margin)] *)
Definition cos_theta_yi_margin (self : ArcLoss) (x : batch) (y : list Z)
  : result (list value) :=
  c <- cos_theta_yi self x y ;;
  Ok (map (fun v => vlift1 (fun t => cos (t + margin self)) (torch_acos v)) c).

(** [cos_theta_j] after [cos_theta_j += one_hot * (cos_theta_yi_margin -
    cos_theta_yi)], before the scaling. *)
Definition margin_logits (self : ArcLoss) (x : batch) (y : list Z)
  : result (list (list value)) :=
  let cj := cos_theta_j self x in
  cyi <- cos_theta_yi self x y ;;
  cm <- cos_theta_yi_margin self x y ;;
  one_hot <- scatter (zeros_like cj) y 1 ;;
  let diff := zip_with (fun a b => vsub a (Num b)) cm cyi in
  prod <- broadcast2 (fun oh d => map (fun o => vmul (Num o) d) oh)
            one_hot diff ;;
  iadd (map (map Num) cj) prod.

Definition forward (self : ArcLoss) (x : batch) (y : list Z) : result value :=
  logits <- margin_logits self x y ;;
  CrossEntropyLoss (map (map (vmul (Num (s self)))) logits) y.

End ArcFace.

(** ** Reference definitions used by the statements *)

Module Ref.
Import Distances.
Local Open Scope R_scope.

(** Every pair of rows (i, j), i < j, row by row, under a row distance. *)
Fixpoint pairs_rec (g : row -> row -> R) (x : batch) : list R :=
  match x with
  | [] => []
  | r :: rest => map (g r) rest ++ pairs_rec g rest
  end.

(** Position of the pair (i, j), i < j, in that enumeration for n rows. *)
Fixpoint pair_pos (n i j : nat) : nat :=
  match i with
  | O => (j - 1)%nat
  | S i' => ((n - 1) + pair_pos (n - 1) i' (j - 1))%nat
  end.

(** The per-triplet hinge. *)
Definition hinge (margin dpos dneg : R) : R :=
  Rmax 0 (dpos ^ 2 - dneg ^ 2 + margin).

(** Mean or sum of a non-empty list of per-triplet losses. *)
Definition reduce (size_average : bool) (l : list R) : R :=
  if size_average then rsum l / INR (List.length l) else rsum l.

(** One row of the cosine matrix after the margin has been injected at
    column [k], with [c] the target cosine. *)
Definition injected_row (m : R) (r : row) (k : nat) (c : R) : list value :=
  map (fun p => Num (snd p
                     + (if (fst p =? k)%nat then 1 else 0)
                       * (cos (acos c + m) - c)))
      (combine (seq 0 (List.length r)) r).

(** A label that addresses a column of its row. *)
Definition valid_target (p : row * Z) : Prop :=
  (0 <= snd p)%Z /\ (Z.to_nat (snd p) < List.length (fst p))%nat.

End Ref.

(** ** losses/config.py *)

Module Config.

(** [TripletConfig.__init__] builds its loss with
    [TripletLoss(device, margin, distance, sampling)]: the fourth positional
    parameter of [TripletLoss] is [size_average], so the strategy object
    lands there (an object without [__bool__] or [__len__] is true), and
    [online] and [sampling] keep their defaults, [True] and [BatchAll()]. *)
Definition TripletConfig_loss (margin : R) (distance : Distances.Distance)
  (sampling : Triplet.TripletSamplingStrategy) : Triplet.TripletLoss :=
  {| Triplet.margin := margin;
     Triplet.distance := distance;
     Triplet.size_average := true;
     Triplet.online := true;
     Triplet.sampling := Triplet.BatchAll |}.

End Config.

(** ** Further reference definitions *)

Module RefMore.
Import Distances.
Local Open Scope R_scope.

(** The entry of a condensed vector for the unordered pair {a, b} of a batch
    of n rows. *)
Definition condensed_at (n : nat) (v : list R) (a b : nat) : R :=
  nth (Triplet.pair_index n (Nat.min a b) (Nat.max a b)) v 0.

(** Row [a] of the square form of a condensed vector. *)
Definition square_row_of (n : nat) (v : list R) (a : nat) : list R :=
  map (fun j => if (a =? j)%nat then 0 else condensed_at n v a j) (seq 0 n).

(** The candidate positives and negatives of an anchor, as the loops of the
    hardest-example strategies list them. *)
Definition pos_of (y : list Z) (a : nat) (ya : Z) : list nat :=
  List.filter (fun p => negb (p =? a)%nat)
    (Triplet.np_where (fun l => (l =? ya)%Z) y).

Definition neg_of (y : list Z) (ya : Z) : list nat :=
  Triplet.np_where (fun l => negb (l =? ya)%Z) y.

(** What the turn of [HardestPositiveNegative.triplets] for anchor [a]
    appends: nothing when a side is empty, else one triplet with the
    [argmax] positive and the [argmin] negative. *)
Definition hardest_turn (n : nat) (v : list R) (y : list Z) (a : nat)
  (ya : Z) (l : list (nat * nat * nat)) : Prop :=
  let d := square_row_of n v a in
  let pos := pos_of y a ya in
  let neg := neg_of y ya in
  (l = [] /\ (pos = [] \/ neg = [])) \/
  (exists kp kn,
      Triplet.np_argmax (map (fun j => nth j d 0) pos) = Ok kp /\
      Triplet.np_argmin (map (fun j => nth j d 0) neg) = Ok kn /\
      l = [(a, nth kp pos 0%nat, nth kn neg 0%nat)]).

(** The distance of the rows at two positions of a batch. *)
Definition dist_at (g : row -> row -> R) (x : batch) (a b : nat) : R :=
  g (nth a x []) (nth b x []).

(** The cosine distance of two rows. *)
Definition cosine_dist_row (a b : row) : R := 1 - cosine_row eps_cos a b.

(** The per-triplet losses of a list of triplets under a row distance. *)
Definition triplet_hinges (m : R) (g : row -> row -> R) (x : batch)
  (ts : list (nat * nat * nat)) : list R :=
  map (fun t => Ref.hinge m (dist_at g x (fst (fst t)) (snd (fst t)))
                            (dist_at g x (fst (fst t)) (snd t))) ts.

End RefMore.

(** ** Exceptions of the evaluation code *)

(** [metrics.py] and [pwim.py] can raise three more exceptions than the
    losses. *)
Inductive raised : Type :=
| Raised (e : error)
| TypeError
| AttributeError
| KeyError.

Definition outcome (A : Type) : Type := (raised + A)%type.

Definition obind {A B : Type} (r : outcome A) (k : A -> outcome B)
  : outcome B :=
  match r with
  | inr a => k a
  | inl e => inl e
  end.

Notation "x <~ r ;; k" := (obind r (fun x => k))
  (at level 61, r at next level, right associativity).

Fixpoint omapM {A B : Type} (f : A -> outcome B) (l : list A)
  : outcome (list B) :=
  match l with
  | [] => inr []
  | a :: t => b <~ f a ;; bs <~ omapM f t ;; inr (b :: bs)
  end.

(** ** metrics.py *)

Module Metrics.
Import Distances.
Local Open Scope R_scope.

(** [a[k]] along the first axis, for a position produced by [range] or
    written as a literal. *)
Definition index {A : Type} (a : list A) (k : nat) : result A :=
  match nth_error a k with
  | Some v => Ok v
  | None => Err IndexError
  end.

(** *** [LogitsSpearmanMetric] (lines 56-80) *)

Module LogitsSpearman.

Record LogitsSpearmanMetric : Type := {
  predictions : list R;
  targets : list R
}.

Definition init : LogitsSpearmanMetric :=
  {| predictions := []; targets := [] |}.

(** The weighted sum of the loop of [calculate_batch], on row [i] of
    [output]: [output[i, k]] is read for k = 0..5. *)
Definition row_score (r : row) : result R :=
  o0 <- index r 0 ;;
  o1 <- index r 1 ;;
  o2 <- index r 2 ;;
  o3 <- index r 3 ;;
  o4 <- index r 4 ;;
  o5 <- index r 5 ;;
  Ok (0 * o0 + 1 * o1 + 2 * o2 + 3 * o3 + 4 * o4 + 5 * o5).

Definition predicted (output : batch) (i : nat) : result R :=
  r <- index output i ;;
  row_score r.

Definition calculate_batch (self : LogitsSpearmanMetric) (logits : batch)
  (y : list R) : result LogitsSpearmanMetric :=
  let output := map (map exp) logits in
  ps <- mapM (predicted output) (seq 0 (List.length output)) ;;
  Ok {| predictions := predictions self ++ ps;
        targets := targets self ++ y |}.

End LogitsSpearman.

(** *** [DistanceSpearmanMetric] (lines 83-101) *)

Module DistanceSpearman.

Record DistanceSpearmanMetric : Type := {
  distance : Distance;
  similarity : list tensor;
  targets : list R
}.

Definition init (distance : Distance) : DistanceSpearmanMetric :=
  {| distance := distance; similarity := []; targets := [] |}.

(** Unary minus on a tensor. *)
Definition tensor_neg (t : tensor) : tensor :=
  match t with
  | T0 v => T0 (- v)
  | T1 l => T1 (map Ropp l)
  end.

(** [embeddings] is the pair of batches that the model returns for the two
    sentences; [e[i, :].unsqueeze(0)] is the batch of the single row [i]. *)
Definition calculate_batch (self : DistanceSpearmanMetric)
  (embeddings : batch * batch) (y : list R) : result DistanceSpearmanMetric :=
  let embeddings1 := fst embeddings in
  let embeddings2 := snd embeddings in
  sims <- mapM (fun i =>
                  a <- index embeddings1 i ;;
                  b <- index embeddings2 i ;;
                  d <- dist (distance self) [a] [b] ;;
                  Ok (tensor_neg d))
               (seq 0 (List.length embeddings1)) ;;
  Ok {| distance := distance self;
        similarity := similarity self ++ sims;
        targets := targets self ++ y |}.

End DistanceSpearman.

(** *** The best metric of an evaluator

    [on_after_epoch] of [SpeakerVerificationEvaluator] (lines 181-193) and
    of [STSEvaluator] (lines 317-330): an evaluation, then the update of
    the best metric.  [ClassAccuracyEvaluator.on_after_epoch] ends with the
    same update but raises before it gets there (see [ClassAccuracy]
    below), so it is not an instance of this module. *)

Module Evaluator.

Record Evaluator : Type := {
  best_metric : value;
  best_epoch : Z
}.

Definition init : Evaluator := {| best_metric := Num 0; best_epoch := (-1)%Z |}.

(** [a > b] on floats: false as soon as one side is NaN. *)
Definition value_gt (a b : value) : bool :=
  match a, b with
  | Num u, Num v => if Rgt_dec u v then true else false
  | _, _ => false
  end.

(** [checkpoint] is [None] or holds the value of [checkpoint['accuracy']]. *)
Definition on_before_train (self : Evaluator) (checkpoint : option value)
  : Evaluator :=
  match checkpoint with
  | Some accuracy => {| best_metric := accuracy; best_epoch := best_epoch self |}
  | None => self
  end.

(** [on_best_accuracy] of one callback, as far as it depends on the epoch
    and the metric value: the caller's code, which returns or raises. *)
Definition callback : Type := Z -> value -> outcome unit.

(** [for cb in self.callbacks: cb.on_best_accuracy(...)]. *)
Fixpoint notify (callbacks : list callback) (epoch : Z) (metric_value : value)
  : outcome unit :=
  match callbacks with
  | [] => inr tt
  | cb :: t => _ <~ cb epoch metric_value ;; notify t epoch metric_value
  end.

(** [on_after_epoch].  [measured] is the outcome of the evaluation that
    opens the method ([self._eval(model)], in [STSEvaluator] followed by
    [self.metric.get()]): library code that returns a float or raises.
    The result is the evaluator as the call leaves it, also when the call
    raises, and the outcome of the call. *)
Definition on_after_epoch (self : Evaluator) (callbacks : list callback)
  (epoch : Z) (measured : outcome value) : Evaluator * outcome unit :=
  match measured with
  | inl e => (self, inl e)
  | inr metric_value =>
      if value_gt metric_value (best_metric self) then
        ({| best_metric := metric_value; best_epoch := epoch |},
         notify callbacks epoch metric_value)
      else (self, inr tt)
  end.

(** A training run: [on_after_epoch] once per epoch, with the epoch number
    and the outcome of that epoch's evaluation, until a call raises. *)
Fixpoint run (self : Evaluator) (callbacks : list callback)
  (epochs : list (Z * outcome value)) : Evaluator * outcome unit :=
  match epochs with
  | [] => (self, inr tt)
  | em :: t =>
      let r := on_after_epoch self callbacks (fst em) (snd em) in
      match snd r with
      | inl e => (fst r, inl e)
      | inr _ => run (fst r) callbacks t
      end
  end.

End Evaluator.

(** *** [ClassAccuracyEvaluator]: the training features (lines 196-254) *)

Module ClassAccuracy.

Record ClassAccuracyEvaluator : Type := {
  feat_train : option (list batch);
  y_train : option (list (list Z))
}.

Definition init : ClassAccuracyEvaluator :=
  {| feat_train := None; y_train := None |}.

Definition on_before_epoch (self : ClassAccuracyEvaluator)
  : ClassAccuracyEvaluator :=
  {| feat_train := Some []; y_train := Some [] |}.

Definition on_after_gradients (self : ClassAccuracyEvaluator) (y : list Z)
  : outcome ClassAccuracyEvaluator :=
  match y_train self with
  | None => inl AttributeError
  | Some l => inr {| feat_train := feat_train self; y_train := Some (l ++ [y]) |}
  end.

(** [np.concatenate] of 1-D arrays. *)
Definition np_concatenate {A : Type} (arrays : option (list (list A)))
  : outcome (list A) :=
  match arrays with
  | None => inl TypeError
  | Some [] => inl (Raised ValueError)
  | Some l => inr (concat l)
  end.

(** [np.concatenate] of 2-D arrays along the first axis: the widths have to
    agree. *)
Definition np_concatenate2 (arrays : option (list batch)) : outcome batch :=
  match arrays with
  | None => inl TypeError
  | Some [] => inl (Raised ValueError)
  | Some (a :: l) =>
      let width (b : batch) := List.length (hd [] b) in
      if forallb (fun b => (width b =? width a)%nat) l then inr (concat (a :: l))
      else inl (Raised ValueError)
  end.

(** [on_after_epoch]: the two concatenations, then the rest of the method
    ([metric.fit], [_eval], [metric.get] and the best metric update). *)
Definition on_after_epoch {T : Type} (self : ClassAccuracyEvaluator)
  (rest : batch -> list Z -> outcome T) : outcome T :=
  feat <~ np_concatenate2 (feat_train self) ;;
  y <~ np_concatenate (y_train self) ;;
  rest feat y.

(** The batches of one epoch. *)
Fixpoint batches (self : ClassAccuracyEvaluator) (ys : list (list Z))
  : outcome ClassAccuracyEvaluator :=
  match ys with
  | [] => inr self
  | y :: t => s <~ on_after_gradients self y ;; batches s t
  end.

End ClassAccuracy.

End Metrics.

(** ** pwim.py *)

Module Pwim.

(** A Python [dict] from words to positions: the newest binding of a key
    first. *)
Definition dict : Type := list (string * nat).

Definition dict_get (d : dict) (k : string) : option nat :=
  match find (fun kv => String.eqb (fst kv) k) d with
  | Some kv => Some (snd kv)
  | None => None
  end.

Definition dict_set (d : dict) (k : string) (v : nat) : dict := (k, v) :: d.

Record PWIM : Type := {
  nfeat_word : nat;
  word2id : dict;
  weight : batch   (* word_embedding.weight *)
}.

(** [pretrained_weight[i] = v]: a row of the right width, or one number
    that fills the row. *)
Definition assign_row (nfeat_word : nat) (v : row) : outcome row :=
  if (List.length v =? nfeat_word)%nat then inr v
  else match v with
       | [a] => inr (repeat a nfeat_word)
       | _ => inl (Raised ValueError)
       end.

(** [{word: index for index, word in enumerate(tokens)}]. *)
Definition enumerate_dict (tokens : list string) : dict :=
  fold_left (fun d iw => dict_set d (snd iw) (fst iw))
            (Triplet.enumerate tokens) [].

(** [PWIM.__init__] (lines 8-24), as far as the words go: the object, and
    the caller's list [tokens], which the constructor extends in place. *)
Definition PWIM_init (nfeat_word : nat) (vec_vocab : string -> option row)
  (tokens : list string) : outcome (PWIM * list string) :=
  let tokens :=
    if existsb (String.eqb "oov") tokens then tokens
    else tokens ++ ["oov"%string] in
  let word2id := enumerate_dict tokens in
  pretrained_weight <~
    omapM (fun word => match vec_vocab word with
                       | Some v => assign_row nfeat_word v
                       | None => inl KeyError
                       end) tokens ;;
  inr ({| nfeat_word := nfeat_word; word2id := word2id;
          weight := pretrained_weight |}, tokens).

(** [word_layer] (lines 26-35): one embedding row per word. *)
Definition word_layer (self : PWIM) (sent : list string) : outcome batch :=
  tmp <~ omapM (fun word =>
                  match dict_get (word2id self) word with
                  | Some i => inr i
                  | None => match dict_get (word2id self) "oov" with
                            | Some i => inr i
                            | None => inl KeyError
                            end
                  end) sent ;;
  sentA <~ omapM (fun i => match nth_error (weight self) i with
                           | Some r => inr r
                           | None => inl (Raised IndexError)
                           end) tmp ;;
  if (nfeat_word self =? 0)%nat then inl (Raised RuntimeError) else inr sentA.

End Pwim.

(** ** Reference definitions for the evaluation code *)

Module RefEval.
Local Open Scope R_scope.

(** The expected score of a row of six log-probabilities:
    the sum of k * exp(l_k) for k = 0..5. *)
Definition expected_score (l : row) : R :=
  Distances.rsum (map (fun k => INR k * exp (nth k l 0)) (seq 0 6)).

(** The pretrained vector a word stands for: its own if the word is a
    token, else that of 'oov'. *)
Definition pretrained (vec_vocab : string -> option row)
  (tokens : list string) (word : string) : row :=
  let key := if existsb (String.eqb word) tokens then word else "oov"%string in
  match vec_vocab key with
  | Some v => v
  | None => []
  end.

End RefEval.

(** ** Results *)

(** *** Lists and the error monad *)

Section ListFacts.
Context {A B C : Type}.

Lemma mapM_ok_map (f : A -> result B) (g : A -> B) (l : list A) :
  (forall a, In a l -> f a = Ok (g a)) -> mapM f l = Ok (map g l).
Proof.
  induction l as [|a t IH]; intros H; simpl.
  - reflexivity.
  - rewrite (H a (or_introl eq_refl)). simpl.
    rewrite IH by (intros b Hb; apply H; right; exact Hb).
    reflexivity.
Qed.

Lemma mapM_nth (f : A -> result B) (l : list A) (l' : list B) :
  mapM f l = Ok l' ->
  List.length l' = List.length l /\
  forall i a, nth_error l i = Some a ->
              exists b, f a = Ok b /\ nth_error l' i = Some b.
Proof.
  revert l'. induction l as [|a t IH]; intros l' H; simpl in H.
  - inversion H; subst. split; [reflexivity|].
    intros [|i] a Hi; discriminate.
  - destruct (f a) as [b|e] eqn:Ef; simpl in H; [|discriminate].
    destruct (mapM f t) as [bs|e] eqn:Et; simpl in H; [|discriminate].
    inversion H; subst. destruct (IH bs eq_refl) as [Hl Hn].
    split; [simpl; congruence|].
    intros [|i] a' Hi; simpl in Hi.
    + inversion Hi; subst. exists b. split; [assumption|reflexivity].
    + apply Hn. exact Hi.
Qed.

Lemma mapM_nth_inv (f : A -> result B) (l : list A) (l' : list B) :
  mapM f l = Ok l' ->
  forall i b, nth_error l' i = Some b ->
              exists a, nth_error l i = Some a /\ f a = Ok b.
Proof.
  revert l'. induction l as [|a t IH]; intros l' H; simpl in H.
  - inversion H; subst. intros [|i] b Hi; discriminate.
  - destruct (f a) as [b|e] eqn:Ef; simpl in H; [|discriminate].
    destruct (mapM f t) as [bs|e] eqn:Et; simpl in H; [|discriminate].
    inversion H; subst.
    intros [|i] b' Hi; simpl in Hi.
    + inversion Hi; subst. exists a. split; [reflexivity|assumption].
    + apply (IH bs eq_refl). exact Hi.
Qed.

Lemma combine_repeat_l (a : A) (l : list B) :
  combine (repeat a (List.length l)) l = map (fun b => (a, b)) l.
Proof.
  induction l as [|b t IH]; simpl; [reflexivity|]. now rewrite IH.
Qed.

Lemma broadcast2_same_length (f : A -> B -> C) (l1 : list A) (l2 : list B) :
  List.length l1 = List.length l2 ->
  broadcast2 f l1 l2 = Ok (map (fun p => f (fst p) (snd p)) (combine l1 l2)).
Proof.
  intros H. unfold broadcast2. rewrite H, Nat.eqb_refl. reflexivity.
Qed.

Lemma slice_one (x : list A) (i : nat) (a : A) :
  nth_error x i = Some a -> Distances.slice x i (i + 1) = [a].
Proof.
  unfold Distances.slice. replace (i + 1 - i)%nat with 1%nat by lia.
  revert i. induction x as [|b t IH]; intros [|i] H; simpl in *;
    try discriminate.
  - inversion H; reflexivity.
  - apply IH. exact H.
Qed.

End ListFacts.

(** *** The condensed index *)

Section CondensedIndexFacts.
Import Distances Ref.

Lemma Zhalf_succ (a : Z) :
  ((a + 1) * (a + 1 + 1) / 2 = a * (a + 1) / 2 + a + 1)%Z.
Proof.
  replace ((a + 1) * (a + 1 + 1))%Z with (a * (a + 1) + (a + 1) * 2)%Z by ring.
  rewrite Z.div_add by discriminate. ring.
Qed.

Lemma Zhalf_double (a : Z) : (2 * (a * (a + 1) / 2) = a * (a + 1))%Z.
Proof.
  assert (H : ((a * (a + 1)) mod 2 = 0)%Z).
  { destruct (Z.even a) eqn:E.
    - apply Z.even_spec in E. destruct E as [k ->].
      rewrite <- Z.mul_assoc, Z.mul_comm. apply Z.mod_mul. discriminate.
    - assert (O : Z.odd a = true) by (rewrite <- Z.negb_even, E; reflexivity).
      apply Z.odd_spec in O. destruct O as [k ->].
      replace ((2 * k + 1) * (2 * k + 1 + 1))%Z
        with (((2 * k + 1) * (k + 1)) * 2)%Z by ring.
      apply Z.mod_mul. discriminate. }
  pose proof (Z.div_mod (a * (a + 1)) 2 ltac:(discriminate)). lia.
Qed.

Lemma np_int64_inject (q : Q) (k : Z) : (q == inject_Z k)%Q -> np_int64 q = k.
Proof.
  unfold Qeq, np_int64; simpl. intros H.
  rewrite Z.mul_1_r in H. rewrite H.
  apply Z.quot_mul. discriminate.
Qed.

(** The float expression of [to_condensed] is an integer: nothing is lost
    in the truncation. *)
Lemma condensed_expr_exact (n i j : Z) :
  (condensed_expr n i j == inject_Z (i * n - i * (i + 1) / 2 - i + j - 1))%Q.
Proof.
  pose proof (Zhalf_double i) as Hm.
  set (m := (i * (i + 1) / 2)%Z) in *.
  unfold condensed_expr.
  replace (i * i)%Z with (2 * m - i)%Z by lia.
  unfold Z.sub.
  rewrite !inject_Z_plus, !inject_Z_opp, !inject_Z_mult.
  change (inject_Z 2) with 2%Q. change (inject_Z 3) with 3%Q.
  change (inject_Z 1) with 1%Q.
  field.
Qed.

Lemma condensed_offset_min_max (n i j : Z) :
  condensed_offset n i j =
  (let a := Z.min i j in let b := Z.max i j in
   a * n - a * (a + 1) / 2 - a + b - 1)%Z.
Proof.
  unfold condensed_offset. cbv zeta.
  apply np_int64_inject, condensed_expr_exact.
Qed.

Lemma condensed_offset_lt (n i j : Z) :
  (i < j)%Z ->
  condensed_offset n i j = (i * n - i * (i + 1) / 2 - i + j - 1)%Z.
Proof.
  intros H. rewrite condensed_offset_min_max. cbv zeta.
  rewrite Z.min_l, Z.max_r by lia. reflexivity.
Qed.

Lemma condensed_offset_sym (n i j : Z) :
  condensed_offset n i j = condensed_offset n j i.
Proof.
  unfold condensed_offset. now rewrite Z.min_comm, Z.max_comm.
Qed.

Lemma condensed_offset_pair_pos (n i j : nat) :
  (i < j < n)%nat ->
  condensed_offset (Z.of_nat n) (Z.of_nat i) (Z.of_nat j)
  = Z.of_nat (pair_pos n i j).
Proof.
  intros H. rewrite condensed_offset_lt by lia.
  revert n j H. induction i as [|i IH]; intros n j H.
  - simpl. change (0 * (0 + 1) / 2)%Z with 0%Z. lia.
  - simpl pair_pos.
    rewrite Nat2Z.inj_add, <- (IH (n - 1)%nat (j - 1)%nat) by lia.
    replace (Z.of_nat (S i)) with (Z.of_nat i + 1)%Z by lia.
    rewrite Zhalf_succ.
    replace (Z.of_nat (n - 1)) with (Z.of_nat n - 1)%Z by lia.
    replace (Z.of_nat (j - 1)) with (Z.of_nat j - 1)%Z by lia.
    ring.
Qed.

End CondensedIndexFacts.

(** *** The machine evaluation of the condensed index *)

Section MachineIndexFacts.
Import Machine.
Local Open Scope Z_scope.

Lemma wrap64_small (z : Z) : - 2 ^ 63 <= z < 2 ^ 63 -> wrap64 z = z.
Proof.
  intros H. unfold wrap64. rewrite Z.mod_small; lia.
Qed.

Lemma round53_exact (m e : Z) : Z.abs m < 2 ^ 53 -> round53 m e = B64 m e.
Proof.
  intros H. unfold round53. cbv zeta.
  assert (Hl : Z.log2 (Z.abs m) < 53).
  { destruct (Z.eq_dec (Z.abs m) 0) as [E|E].
    - rewrite E. reflexivity.
    - apply Z.log2_lt_pow2; lia. }
  destruct (Z.ltb_spec 0 (Z.log2 (Z.abs m) + 1 - 53)); [lia|reflexivity].
Qed.

Lemma of_int64_exact (z : Z) : Z.abs z < 2 ^ 53 -> of_int64 z = B64 z 0.
Proof. apply round53_exact. Qed.

Lemma sub_int_half (a b : Z) :
  sub (B64 a 0) (B64 b (-1)) = round53 (2 * a - b) (-1).
Proof.
  unfold sub. cbn [mant expo]. change (Z.min 0 (-1)) with (-1).
  change (2 ^ (0 - -1)) with 2. change (2 ^ (-1 - -1)) with 1.
  f_equal. ring.
Qed.

Lemma sub_half_half (a b : Z) :
  sub (B64 a (-1)) (B64 b (-1)) = round53 (a - b) (-1).
Proof.
  unfold sub. cbn [mant expo]. change (Z.min (-1) (-1)) with (-1).
  change (2 ^ (-1 - -1)) with 1. f_equal. ring.
Qed.

Lemma add_half_int (a b : Z) :
  add (B64 a (-1)) (B64 b 0) = round53 (a + 2 * b) (-1).
Proof.
  unfold add. cbn [mant expo]. change (Z.min (-1) 0) with (-1).
  change (2 ^ (0 - -1)) with 2. change (2 ^ (-1 - -1)) with 1.
  f_equal. ring.
Qed.

Lemma np_int64_half (k : Z) : np_int64 (B64 (2 * k) (-1)) = k.
Proof.
  unfold np_int64. cbn [mant expo]. change (0 <=? -1) with false. cbv iota.
  change (2 ^ (- -1)) with 2. rewrite Z.mul_comm. apply Z.quot_mul.
  discriminate.
Qed.

(** Within 53 bits every step of the expression is exact. *)
Lemma condensed_expr_small (n a b : Z) :
  n * n <= 2 ^ 53 -> 0 <= a -> a <= b -> b < n ->
  condensed_expr n a b
  = B64 (2 * (a * n - a * (a + 1) / 2 - a + b - 1)) (-1).
Proof.
  intros Hn Ha Hab Hb.
  pose proof (Zhalf_double a) as Hd.
  set (t := a * (a + 1) / 2) in *.
  assert (Han : 0 <= a * n <= n * n - n).
  { split; [apply Z.mul_nonneg_nonneg; lia|].
    replace (n * n - n) with ((n - 1) * n) by ring.
    apply Z.mul_le_mono_nonneg_r; lia. }
  assert (Haa : 0 <= a * a <= a * n).
  { split; [apply Z.mul_nonneg_nonneg; lia|].
    apply Z.mul_le_mono_nonneg_l; lia. }
  assert (Hsq : 0 <= (n - 1 - a) * (n - 1 - a)) by apply Z.square_nonneg.
  assert (Hp : 0 <= (n - 1 - a) * (n - 1 - b))
    by (apply Z.mul_nonneg_nonneg; lia).
  assert (H53 : 2 ^ 53 < 2 ^ 63) by reflexivity.
  unfold condensed_expr. cbv zeta.
  rewrite !wrap64_small by lia.
  rewrite !of_int64_exact by lia.
  unfold half. cbn [mant expo]. change (0 - 1) with (-1).
  rewrite sub_int_half, round53_exact by nia.
  rewrite sub_half_half, round53_exact by nia.
  rewrite add_half_int, round53_exact by nia.
  unfold sub at 1. cbn [mant expo]. change (Z.min (-1) 0) with (-1).
  change (2 ^ (0 - -1)) with 2. change (2 ^ (-1 - -1)) with 1.
  rewrite round53_exact by nia. f_equal. nia.
Qed.

(** The machine offset is the exact one as long as n * n fits the
    mantissa. *)
Lemma condensed_offset_machine (n i j : Z) :
  n * n <= 2 ^ 53 -> 0 <= i < n -> 0 <= j < n ->
  condensed_offset n i j = Distances.condensed_offset n i j.
Proof.
  intros Hn Hi Hj. rewrite condensed_offset_min_max.
  unfold condensed_offset. cbv zeta.
  rewrite condensed_expr_small by lia.
  apply np_int64_half.
Qed.

Lemma to_condensed_machine (n i j : Z) :
  n * n <= 2 ^ 53 -> 0 <= i < n -> 0 <= j < n ->
  to_condensed n i j = Distances.to_condensed n i j.
Proof.
  intros Hn Hi Hj. unfold to_condensed, Distances.to_condensed.
  now rewrite condensed_offset_machine.
Qed.

(** The exact offset of two different indices below n is a slot of the
    condensed vector. *)
Lemma condensed_offset_range (n i j : Z) :
  0 <= i < n -> 0 <= j < n -> i <> j ->
  0 <= Distances.condensed_offset n i j < n * (n - 1) / 2.
Proof.
  intros Hi Hj Hne. rewrite condensed_offset_min_max. cbv zeta.
  set (a := Z.min i j). set (b := Z.max i j).
  assert (Hab : (0 <= a < b)%Z /\ (b < n)%Z) by (subst a b; lia).
  pose proof (Zhalf_double a) as Ha.
  pose proof (Zhalf_double (n - 1)) as Hm.
  replace ((n - 1) * (n - 1 + 1))%Z with (n * (n - 1))%Z in Hm by ring.
  set (ta := (a * (a + 1) / 2)%Z) in *.
  set (tn := (n * (n - 1) / 2)%Z) in *.
  split; nia.
Qed.

End MachineIndexFacts.

(** C2, as stated, fails: the expression of [to_condensed] is evaluated in
    binary64.  For n = 2^27 + 1 the pair (n - 2, n - 1) has the exact offset
    2^53 + 2^26 - 1, an odd number above 2^53, which binary64 cannot hold:
    the call returns n*(n-1)/2, which is not the closed form and not below
    n*(n-1)/2. *)
Lemma to_condensed_rounds_beyond_53_bits :
  let n := (2 ^ 27 + 1)%Z in
  let i := (n - 2)%Z in
  let j := (n - 1)%Z in
  (2 <= n)%Z /\ (0 <= i < n)%Z /\ (0 <= j < n)%Z /\ i <> j /\
  Machine.to_condensed n i j = Ok (n * (n - 1) / 2)%Z /\
  (n * (n - 1) / 2 <> i * n - i * (i + 1) / 2 - i + j - 1)%Z /\
  ~ (exists k, Machine.to_condensed n i j = Ok k
               /\ (0 <= k < n * (n - 1) / 2)%Z).
Proof.
  cbv zeta.
  assert (E : Machine.to_condensed (2 ^ 27 + 1) (2 ^ 27 + 1 - 2)
                (2 ^ 27 + 1 - 1)
              = Ok ((2 ^ 27 + 1) * (2 ^ 27 + 1 - 1) / 2)%Z)
    by (vm_compute; reflexivity).
  split; [vm_compute; discriminate|].
  split; [split; vm_compute; [discriminate|reflexivity]|].
  split; [split; vm_compute; [discriminate|reflexivity]|].
  split; [vm_compute; discriminate|].
  split; [exact E|].
  split; [vm_compute; discriminate|].
  intros [k [Hk [_ Hr]]]. rewrite E in Hk. inversion Hk; subst k.
  exact (Z.lt_irrefl _ Hr).
Qed.

(** C2, amended.  For n >= 2 with n * n <= 2^53 and indices 0 <= i, j < n:
    [to_condensed] raises its [ValueError] exactly when i = j; for i <> j
    it is symmetric in (i, j), equals a*n - a*(a+1)/2 - a + b - 1 with
    a = min(i, j) and b = max(i, j), and lies in [0, n*(n-1)/2). *)
Theorem to_condensed_contract (n i j : Z) :
  (2 <= n)%Z -> (n * n <= 2 ^ 53)%Z -> (0 <= i < n)%Z -> (0 <= j < n)%Z ->
  (Machine.to_condensed n i j = Err ValueError <-> i = j) /\
  (i <> j ->
   Machine.to_condensed n i j = Machine.to_condensed n j i /\
   exists k,
     Machine.to_condensed n i j = Ok k /\
     k = (let a := Z.min i j in let b := Z.max i j in
          a * n - a * (a + 1) / 2 - a + b - 1)%Z /\
     (0 <= k < n * (n - 1) / 2)%Z).
Proof.
  intros Hn Hb Hi Hj.
  rewrite (to_condensed_machine Hb Hi Hj), (to_condensed_machine Hb Hj Hi).
  unfold Distances.to_condensed. split.
  - destruct (Z.eqb_spec i j) as [E|E]; split; intros H;
      try reflexivity; try assumption; try discriminate; contradiction.
  - intros Hne. split.
    + destruct (Z.eqb_spec i j) as [E|E]; [contradiction|].
      destruct (Z.eqb_spec j i) as [E'|E']; [symmetry in E'; contradiction|].
      now rewrite condensed_offset_sym.
    + destruct (Z.eqb_spec i j) as [E|E]; [contradiction|].
      eexists. split; [reflexivity|].
      split; [apply condensed_offset_min_max|].
      now apply condensed_offset_range.
Qed.

Lemma to_condensed_contract_witness :
  Machine.to_condensed 5 1 3 = Ok 5%Z /\
  Machine.to_condensed 5 3 1 = Ok 5%Z /\
  Machine.to_condensed 5 1 3 <> Err ValueError.
Proof.
  destruct (to_condensed_contract (n := 5) (i := 1) (j := 3)) as [He Hk];
    [lia | vm_compute; discriminate | lia | lia |].
  destruct (Hk ltac:(lia)) as [Hs [k [Hok [Hv _]]]].
  rewrite <- Hs, Hok, Hv. split; [|split].
  - reflexivity.
  - reflexivity.
  - intros H. discriminate H.
Defined.

(** *** Pairwise distances against the condensed index *)

Section PairwiseFacts.
Import Distances Ref.
Local Open Scope R_scope.

Lemma pairs_rec_nth (g : row -> row -> R) (x : batch) :
  forall (i j : nat) (xi xj : row),
    (i < j)%nat -> nth_error x i = Some xi -> nth_error x j = Some xj ->
    nth_error (pairs_rec g x) (pair_pos (List.length x) i j) = Some (g xi xj).
Proof.
  induction x as [|r rest IH]; intros i j xi xj Hij Hi Hj.
  - destruct i; discriminate.
  - destruct j as [|j]; [lia|]. simpl in Hj.
    destruct i as [|i]; simpl in Hi.
    + inversion Hi; subst. simpl.
      rewrite Nat.sub_0_r, nth_error_app1.
      * now apply map_nth_error.
      * rewrite length_map. apply nth_error_Some. congruence.
    + simpl. rewrite !Nat.sub_0_r, nth_error_app2
        by (rewrite length_map; lia).
      rewrite length_map.
      replace (List.length rest + pair_pos (List.length rest) i j
               - List.length rest)%nat
        with (pair_pos (List.length rest) i j) by lia.
      apply IH; [lia | assumption | assumption].
Qed.

Lemma torch_pdist_pairs_rec (x : batch) : torch_pdist x = pairs_rec l2_row x.
Proof.
  induction x as [|r rest IH]; simpl; [reflexivity|]. now rewrite IH.
Qed.

Lemma loop_rows_pairs_rec (g : row -> row -> R) (x : batch) :
  concat (map (fun i => map (g (nth i x [])) (skipn (i + 1) x))
              (seq 0 (List.length x - 1)))
  = pairs_rec g x.
Proof.
  induction x as [|r rest IH]; [reflexivity|].
  simpl List.length. rewrite Nat.sub_succ, Nat.sub_0_r.
  destruct rest as [|r' rest'] eqn:Er; [reflexivity|].
  rewrite <- Er in *.
  assert (Hl : List.length rest = S (List.length rest - 1))
    by (rewrite Er; simpl; lia).
  rewrite Hl. cbn [seq map concat pairs_rec].
  rewrite <- seq_shift, map_map. f_equal.
  rewrite <- IH. reflexivity.
Qed.

Lemma cosine_similarity_expand (r : row) (l : batch) (eps : R) :
  cosine_similarity (expand r (List.length l)) l eps
  = Ok (map (cosine_row eps r) l).
Proof.
  unfold cosine_similarity, expand.
  rewrite broadcast2_same_length by apply repeat_length.
  rewrite combine_repeat_l, map_map. reflexivity.
Qed.

Lemma CosineDistance_pdist_pairs_rec (x : batch) :
  (2 <= List.length x)%nat ->
  CosineDistance_pdist x
  = Ok (pairs_rec (fun a b => 1 - cosine_row eps_cos a b) x).
Proof.
  intros Hn. unfold CosineDistance_pdist.
  rewrite (mapM_ok_map _
             (fun i => map (fun b => 1 - cosine_row eps_cos (nth i x []) b)
                           (skipn (i + 1) x))).
  - cbn [bind].
    pose proof (loop_rows_pairs_rec
                  (fun a b => 1 - cosine_row eps_cos a b) x) as H.
    cbv beta in H. rewrite <- H. unfold torch_cat.
    destruct (List.length x - 1)%nat eqn:E; [lia|]. reflexivity.
  - intros i Hi. apply in_seq in Hi.
    replace (List.length x - 1 - i)%nat
      with (List.length (skipn (i + 1) x)) by (rewrite length_skipn; lia).
    rewrite cosine_similarity_expand. simpl. now rewrite map_map.
Qed.

Lemma tensor_get_nth (t : list R) (k : nat) (v : R) :
  nth_error t k = Some v -> tensor_get t (Z.of_nat k) = Ok v.
Proof.
  intros H. unfold tensor_get.
  assert (Hk : (k < List.length t)%nat) by (apply nth_error_Some; congruence).
  destruct (Z.ltb_spec (Z.of_nat k) 0) as [L|L]; [lia|].
  destruct (Z.leb_spec 0 (Z.of_nat k)) as [L1|L1]; [|lia].
  destruct (Z.ltb_spec (Z.of_nat k) (Z.of_nat (List.length t))) as [L2|L2];
    [|lia].
  simpl. now rewrite Nat2Z.id, H.
Qed.

End PairwiseFacts.

(** C1. For a batch x of n >= 2 rows and indices i < j < n, the entry of
    [pdist(x)] at [to_condensed(n, i, j)] is the value that [dist] returns on
    the one-row batches [x[i:i+1]] and [x[j:j+1]], for [CosineDistance] (a
    one-element tensor) and for [EuclideanDistance] (a 0-dimensional
    tensor). *)
Theorem pdist_agrees_with_dist (x : batch) (i j : nat) :
  (2 <= List.length x)%nat -> (i < j < List.length x)%nat ->
  let n := Z.of_nat (List.length x) in
  (exists d k v,
      Distances.pdist Distances.CosineDistance x = Ok d /\
      Distances.to_condensed n (Z.of_nat i) (Z.of_nat j) = Ok k /\
      Distances.tensor_get d k = Ok v /\
      Distances.dist Distances.CosineDistance
        (Distances.slice x i (i + 1)) (Distances.slice x j (j + 1))
      = Ok (T1 [v])) /\
  (exists d k v,
      Distances.pdist Distances.EuclideanDistance x = Ok d /\
      Distances.to_condensed n (Z.of_nat i) (Z.of_nat j) = Ok k /\
      Distances.tensor_get d k = Ok v /\
      Distances.dist Distances.EuclideanDistance
        (Distances.slice x i (i + 1)) (Distances.slice x j (j + 1))
      = Ok (T0 v)).
Proof.
  intros Hn Hij n.
  destruct (nth_error x i) as [xi|] eqn:Hi;
    [|apply nth_error_None in Hi; lia].
  destruct (nth_error x j) as [xj|] eqn:Hj;
    [|apply nth_error_None in Hj; lia].
  assert (Hk : Distances.to_condensed n (Z.of_nat i) (Z.of_nat j)
               = Ok (Z.of_nat (Ref.pair_pos (List.length x) i j))).
  { unfold Distances.to_condensed.
    destruct (Z.eqb_spec (Z.of_nat i) (Z.of_nat j)) as [E|E]; [lia|].
    subst n. now rewrite condensed_offset_pair_pos by lia. }
  rewrite (slice_one _ _ Hi), (slice_one _ _ Hj).
  split.
  - exists (Ref.pairs_rec
              (fun a b => (1 - Distances.cosine_row Distances.eps_cos a b)%R) x).
    exists (Z.of_nat (Ref.pair_pos (List.length x) i j)).
    exists (1 - Distances.cosine_row Distances.eps_cos xi xj)%R.
    split; [apply CosineDistance_pdist_pairs_rec; assumption|].
    split; [exact Hk|].
    split.
    + apply tensor_get_nth.
      apply (pairs_rec_nth
               (fun a b => (1 - Distances.cosine_row Distances.eps_cos a b)%R)
               x (i := i) (j := j)); [lia | assumption..].
    + reflexivity.
  - exists (Ref.pairs_rec Distances.l2_row x).
    exists (Z.of_nat (Ref.pair_pos (List.length x) i j)).
    exists (Distances.l2_row xi xj).
    split; [simpl; unfold Distances.EuclideanDistance_pdist;
            now rewrite torch_pdist_pairs_rec|].
    split; [exact Hk|].
    split.
    + apply tensor_get_nth. apply pairs_rec_nth; [lia | assumption..].
    + simpl. unfold Distances.EuclideanDistance_dist, Distances.torch_dist,
        Distances.batch_sub. simpl. rewrite app_nil_r. reflexivity.
Qed.

Lemma pdist_agrees_with_dist_witness :
  let x : batch := [[1; 0]; [0; 1]]%R in
  (exists d k v,
      Distances.pdist Distances.CosineDistance x = Ok d /\
      Distances.to_condensed 2 0 1 = Ok k /\
      Distances.tensor_get d k = Ok v /\
      Distances.dist Distances.CosineDistance
        (Distances.slice x 0 1) (Distances.slice x 1 2) = Ok (T1 [v])) /\
  (exists d k v,
      Distances.pdist Distances.EuclideanDistance x = Ok d /\
      Distances.to_condensed 2 0 1 = Ok k /\
      Distances.tensor_get d k = Ok v /\
      Distances.dist Distances.EuclideanDistance
        (Distances.slice x 0 1) (Distances.slice x 1 2) = Ok (T0 v)).
Proof.
  intros x.
  apply (pdist_agrees_with_dist x (i := 0) (j := 1)); simpl; lia.
Defined.

(** *** BatchAll *)

Section BatchAllFacts.
Import Triplet.

Lemma in_enumerate_from {A : Type} (l : list A) (s k : nat) (a : A) :
  In (k, a) (combine (seq s (List.length l)) l)
  <-> (s <= k)%nat /\ nth_error l (k - s) = Some a.
Proof.
  revert s. induction l as [|b t IH]; intros s; simpl.
  - split; [tauto|]. intros [_ H]. destruct (k - s)%nat; discriminate.
  - rewrite IH. split.
    + intros [H|[H1 H2]].
      * inversion H; subst. rewrite Nat.sub_diag. split; [lia|reflexivity].
      * split; [lia|]. replace (k - s)%nat with (S (k - S s)) by lia.
        exact H2.
    + intros [H1 H2]. destruct (k - s)%nat as [|m] eqn:E.
      * left. simpl in H2. inversion H2. f_equal. lia.
      * right. split; [lia|]. replace (k - S s)%nat with m by lia.
        exact H2.
Qed.

Lemma in_enumerate {A : Type} (l : list A) (k : nat) (a : A) :
  In (k, a) (enumerate l) <-> nth_error l k = Some a.
Proof.
  unfold enumerate. rewrite in_enumerate_from, Nat.sub_0_r.
  split; [tauto|]. intros H. split; [lia|exact H].
Qed.

Lemma NoDup_enumerate {A : Type} (l : list A) : NoDup (enumerate l).
Proof.
  unfold enumerate. generalize 0%nat.
  induction l as [|b t IH]; intros s; simpl; constructor.
  - intros H. apply in_enumerate_from in H. lia.
  - apply IH.
Qed.

Lemma NoDup_flat_map_disjoint {A B : Type} (f : A -> list B) (l : list A) :
  (forall a, In a l -> NoDup (f a)) ->
  (forall a a' b, In a l -> In a' l -> In b (f a) -> In b (f a') -> a = a') ->
  NoDup l -> NoDup (flat_map f l).
Proof.
  intros Hf Hd Hl. induction Hl as [|a t Ha Ht IH]; simpl.
  - constructor.
  - apply NoDup_app.
    + apply Hf. now left.
    + apply IH.
      * intros b Hb. apply Hf. now right.
      * intros b b' c Hb Hb'. apply Hd; now right.
    + intros b Hb Hb'. apply in_flat_map in Hb'.
      destruct Hb' as [a' [Ha' Hb']].
      assert (a = a') by (apply (Hd a a' b); auto; [now left | now right]).
      subst. contradiction.
Qed.

Lemma BatchAll_loop_in (y : list Z) (a p n : nat) :
  In (a, p, n) (BatchAll_loop y) <->
  exists ya yp yn,
    nth_error y a = Some ya /\ nth_error y p = Some yp /\
    nth_error y n = Some yn /\ a <> p /\ ya = yp /\ yn <> ya.
Proof.
  unfold BatchAll_loop. split.
  - intros H. apply in_flat_map in H. destruct H as [[a' ya] [Ha H]].
    apply in_flat_map in H. destruct H as [[p' yp] [Hp H]]. simpl in H.
    destruct (Nat.eqb_spec a' p') as [E|E]; [contradiction|].
    destruct (Z.eqb_spec ya yp) as [E2|E2]; [|contradiction]. simpl in H.
    apply in_flat_map in H. destruct H as [[n' yn] [Hn H]]. simpl in H.
    destruct (Z.eqb_spec yn ya) as [E3|E3]; [contradiction|].
    destruct H as [H|[]]. inversion H; subst.
    apply in_enumerate in Ha, Hp, Hn.
    exists yp, yp, yn. repeat split; assumption.
  - intros [ya [yp [yn [Ha [Hp [Hn [Hne [Heq Hny]]]]]]]]. subst yp.
    apply in_enumerate in Ha, Hp, Hn.
    apply in_flat_map. exists (a, ya). split; [assumption|].
    apply in_flat_map. exists (p, ya). split; [assumption|]. simpl.
    destruct (Nat.eqb_spec a p) as [E|E]; [contradiction|].
    rewrite Z.eqb_refl. simpl.
    apply in_flat_map. exists (n, yn). split; [assumption|]. simpl.
    destruct (Z.eqb_spec yn ya) as [E3|E3]; [contradiction|]. now left.
Qed.

Lemma BatchAll_loop_NoDup (y : list Z) : NoDup (BatchAll_loop y).
Proof.
  unfold BatchAll_loop.
  apply NoDup_flat_map_disjoint; [| |apply NoDup_enumerate].
  - intros [a ya] Ha.
    apply NoDup_flat_map_disjoint; [| |apply NoDup_enumerate].
    + intros [p yp] Hp. simpl.
      destruct ((a =? p)%nat || negb (ya =? yp)%Z); [constructor|].
      apply NoDup_flat_map_disjoint; [| |apply NoDup_enumerate].
      * intros [n yn] Hn. simpl. destruct (yn =? ya)%Z; repeat constructor.
        intros [].
      * intros [n yn] [n' yn'] b Hn Hn'. simpl.
        destruct (yn =? ya)%Z; [intros []|].
        destruct (yn' =? ya)%Z; [intros _ []|].
        intros [H|[]] [H'|[]]. subst b. inversion H'; subst.
        apply in_enumerate in Hn, Hn'. congruence.
    + intros [p yp] [p' yp'] b Hp Hp'. simpl.
      destruct ((a =? p)%nat || negb (ya =? yp)%Z); [intros []|].
      destruct ((a =? p')%nat || negb (ya =? yp')%Z); [intros _ []|].
      intros H H'. apply in_flat_map in H, H'.
      destruct H as [[n yn] [_ H]]. destruct H' as [[n' yn'] [_ H']].
      simpl in H, H'.
      destruct (yn =? ya)%Z; [contradiction|].
      destruct (yn' =? ya)%Z; [contradiction|].
      destruct H as [H|[]]. destruct H' as [H'|[]]. subst b.
      inversion H'; subst. apply in_enumerate in Hp, Hp'. congruence.
  - intros [a ya] [a' ya'] b Ha Ha' H H'.
    apply in_flat_map in H, H'.
    destruct H as [[p yp] [_ H]]. destruct H' as [[p' yp'] [_ H']].
    simpl in H, H'.
    destruct ((a =? p)%nat || negb (ya =? yp)%Z); [contradiction|].
    destruct ((a' =? p')%nat || negb (ya' =? yp')%Z); [contradiction|].
    apply in_flat_map in H, H'.
    destruct H as [[n yn] [_ H]]. destruct H' as [[n' yn'] [_ H']].
    simpl in H, H'.
    destruct (yn =? ya)%Z; [contradiction|].
    destruct (yn' =? ya')%Z; [contradiction|].
    destruct H as [H|[]]. destruct H' as [H'|[]]. subst b.
    inversion H'; subst. apply in_enumerate in Ha, Ha'. congruence.
Qed.

End BatchAllFacts.

(** C9. [BatchAll.triplets] succeeds on every label batch and returns, as
    three aligned index lists, each triple (anchor, positive, negative) with
    anchor <> positive, label(anchor) = label(positive) and label(negative)
    <> label(anchor) exactly once, and nothing else; on the labels [0, 0, 1]
    these are (0, 1, 2) and (1, 0, 2). *)
Theorem BatchAll_triplets_exact (y : list Z) (distances : list R) :
  (exists ts,
      Triplet.triplets Triplet.BatchAll y distances = Ok (Triplet.unzip3 ts) /\
      NoDup ts /\
      forall a p n,
        In (a, p, n) ts <->
        exists ya yp yn,
          nth_error y a = Some ya /\ nth_error y p = Some yp /\
          nth_error y n = Some yn /\ a <> p /\ ya = yp /\ yn <> ya) /\
  Triplet.triplets Triplet.BatchAll [0; 0; 1]%Z distances
  = Ok ([0; 1], [1; 0], [2; 2])%nat.
Proof.
  split.
  - exists (Triplet.BatchAll_loop y). split; [reflexivity|].
    split; [apply BatchAll_loop_NoDup|].
    intros a p n. apply BatchAll_loop_in.
  - reflexivity.
Qed.

(** *** The triplet loss *)

Section TripletLossFacts.
Import Distances Triplet Ref.
Local Open Scope R_scope.

Lemma hinge_rows (m : R) (dpos dneg : list R) :
  map (Rmax 0)
      (map (fun v => v + m)
           (map (fun p => fst p - snd p)
                (combine (map (fun v => v ^ 2) dpos)
                         (map (fun v => v ^ 2) dneg))))
  = zip_with (hinge m) dpos dneg.
Proof.
  unfold zip_with. revert dneg.
  induction dpos as [|a t IH]; intros [|b u]; simpl; try reflexivity.
  rewrite IH. reflexivity.
Qed.

Lemma zip_with_length {A B C : Type} (f : A -> B -> C) (a : list A)
  (b : list B) :
  List.length a = List.length b ->
  List.length (zip_with f a b) = List.length a.
Proof.
  intros H. unfold zip_with. rewrite length_map, length_combine. lia.
Qed.

Lemma margin_loss_T1 (self : TripletLoss) (dpos dneg : list R) :
  dpos <> [] -> List.length dpos = List.length dneg ->
  margin_loss self (T1 dpos) (T1 dneg)
  = Ok (Num (reduce (size_average self)
               (zip_with (hinge (margin self)) dpos dneg))).
Proof.
  intros Hne Hlen. unfold margin_loss, torch_pow, tensor_sub, relu. simpl.
  rewrite broadcast2_same_length by (rewrite !length_map; exact Hlen).
  simpl. rewrite hinge_rows.
  pose proof (zip_with_length (hinge (margin self)) dpos dneg Hlen) as Hl.
  destruct (zip_with (hinge (margin self)) dpos dneg) as [|h hs] eqn:E.
  - destruct dpos; [contradiction|discriminate].
  - unfold reduce. destruct (size_average self); reflexivity.
Qed.

Lemma sqrt_25 : sqrt 25 = 5.
Proof. apply sqrt_lem_1; lra. Qed.

End TripletLossFacts.

(** C6. When the selected triplets have positive distances [dpos] and
    negative distances [dneg] (non-empty, one of each per triplet), [forward]
    returns the per-triplet hinge max(0, dpos^2 - dneg^2 + margin) reduced by
    mean when [size_average] is set and by sum otherwise: online, with the
    distances fetched from the condensed vector, and offline, with row-wise
    distances; with margin 2 and dpos = dneg = 0.5 the loss of the one
    triplet is 2. *)
Theorem forward_is_reduced_hinge (m : R) (D : Distances.Distance) (sa : bool)
  (S : Triplet.TripletSamplingStrategy) :
  let self (o : bool) :=
    {| Triplet.margin := m; Triplet.distance := D;
       Triplet.size_average := sa; Triplet.online := o;
       Triplet.sampling := S |} in
  (forall (L : Type) (x : batch) (logits : L) (y : list Z)
          (dpos dneg : list R),
      Triplet._calculate_distances (self true) x y = Ok (dpos, dneg) ->
      dpos <> [] -> List.length dpos = List.length dneg ->
      Triplet.forward (self true) x logits y
      = Ok (Num (Ref.reduce sa
                   (Distances.zip_with (Ref.hinge m) dpos dneg)))) /\
  (forall (L : Type) (anchors positives negatives : batch) (logits : L)
          (y : list Z) (dpos dneg : list R),
      Distances.dist D anchors positives = Ok (T1 dpos) ->
      Distances.dist D anchors negatives = Ok (T1 dneg) ->
      dpos <> [] -> List.length dpos = List.length dneg ->
      Triplet.forward (self false) (anchors, positives, negatives) logits y
      = Ok (Num (Ref.reduce sa
                   (Distances.zip_with (Ref.hinge m) dpos dneg)))) /\
  (m = 2%R ->
   forall o : bool,
     Triplet.margin_loss (self o) (T1 [(1 / 2)%R]) (T1 [(1 / 2)%R])
     = Ok (Num 2%R)).
Proof.
  intros self. split; [|split].
  - intros L x logits y dpos dneg Hc Hne Hlen.
    unfold Triplet.forward. cbn [Triplet.online self].
    rewrite Hc. cbn [bind fst snd].
    apply (margin_loss_T1 (self true)); assumption.
  - intros L anchors positives negatives logits y dpos dneg Hp Hn Hne Hlen.
    unfold Triplet.forward.
    cbn [Triplet.online Triplet.distance self fst snd].
    rewrite Hp, Hn. cbn [bind fst snd].
    apply (margin_loss_T1 (self false)); assumption.
  - intros -> o. rewrite margin_loss_T1 by (try discriminate; reflexivity).
    cbn [Triplet.size_average Triplet.margin self].
    unfold Ref.reduce, Distances.zip_with, Ref.hinge. simpl.
    replace (Rmax 0 (1 / 2 * (1 / 2 * 1) - 1 / 2 * (1 / 2 * 1) + 2))%R
      with 2%R
      by (unfold Rmax; destruct (Rle_dec _ _); lra).
    destruct sa; f_equal; f_equal; lra.
Qed.

Lemma forward_is_reduced_hinge_witness :
  let self (o : bool) :=
    {| Triplet.margin := 2%R;
       Triplet.distance := Distances.EuclideanDistance;
       Triplet.size_average := true; Triplet.online := o;
       Triplet.sampling := Triplet.BatchAll |} in
  let x : batch := [[0]; [0]; [1]]%R in
  let d01 := Distances.l2_row [0%R] [0%R] in
  let d02 := Distances.l2_row [0%R] [1%R] in
  Triplet.forward (self true) x tt [0; 0; 1]%Z
  = Ok (Num (Ref.reduce true
               [Ref.hinge 2 d01 d02; Ref.hinge 2 d01 d02])) /\
  Triplet.margin_loss (self true) (T1 [(1 / 2)%R]) (T1 [(1 / 2)%R])
  = Ok (Num 2%R).
Proof.
  intros self x d01 d02.
  destruct (forward_is_reduced_hinge 2%R Distances.EuclideanDistance true
              Triplet.BatchAll) as [Hf [_ He]].
  split.
  - apply (Hf unit x tt [0; 0; 1]%Z [d01; d01] [d02; d02]).
    + reflexivity.
    + discriminate.
    + reflexivity.
  - apply He. reflexivity.
Defined.

(** Offline mode on one triplet with [CosineDistance]: one distance per
    triplet row, one hinge. *)
Lemma forward_offline_cosine_example (a p n : row) :
  let self :=
    {| Triplet.margin := 2%R;
       Triplet.distance := Distances.CosineDistance;
       Triplet.size_average := false; Triplet.online := false;
       Triplet.sampling := Triplet.BatchAll |} in
  let d (u v : row) := (1 - Distances.cosine_row Distances.eps_cos u v)%R in
  Triplet.forward self ([a], [p], [n]) tt []
  = Ok (Num (Ref.hinge 2 (d a p) (d a n) + 0)%R).
Proof. reflexivity. Qed.

(** *** Batches without triplets *)

(** C3, as stated, fails: with mean reduction, a batch from which
    [BatchAll] selects no triplet (two samples of one class) gives NaN, the
    mean of an empty tensor, not a zero loss. *)
Lemma forward_mean_without_triplets_is_nan :
  let self := {| Triplet.margin := 2%R;
                 Triplet.distance := Distances.EuclideanDistance;
                 Triplet.size_average := true; Triplet.online := true;
                 Triplet.sampling := Triplet.BatchAll |} in
  let x : batch := [[0]; [1]]%R in
  Triplet.triplets Triplet.BatchAll [0; 0]%Z (Distances.torch_pdist x)
  = Ok ([], [], []) /\
  Triplet.forward self x tt [0; 0]%Z = Ok NaN /\
  Triplet.forward self x tt [0; 0]%Z <> Ok (Num 0%R).
Proof.
  intros self x. split; [reflexivity|]. split; [reflexivity|].
  intros H. discriminate H.
Qed.

(** [HardestNegative] on labels that are all equal: the first anchor has no
    negative and [np.argmin] of the empty selection raises. *)
Lemma HardestNegative_identical_labels_raise (sa : bool) :
  let self := {| Triplet.margin := 2%R;
                 Triplet.distance := Distances.EuclideanDistance;
                 Triplet.size_average := sa; Triplet.online := true;
                 Triplet.sampling := Triplet.HardestNegative |} in
  let x : batch := [[0]; [1]]%R in
  Triplet.triplets Triplet.HardestNegative [0; 0]%Z (Distances.torch_pdist x)
  = Err ValueError /\
  Triplet.forward self x tt [0; 0]%Z = Err ValueError.
Proof.
  intros self x. split; reflexivity.
Qed.

(** The guard of [HardestPositiveNegative] on the same batch: no triplet, no
    exception. *)
Lemma HardestPositiveNegative_identical_labels (x0 x1 : row) :
  Triplet.triplets Triplet.HardestPositiveNegative [0; 0]%Z
    (Distances.torch_pdist [x0; x1])
  = Ok ([], [], []).
Proof. reflexivity. Qed.

(** C3, amended. In online mode, whenever the pairwise distances are
    computed and the sampling strategy returns no triplet, [forward] does not
    raise: it returns 0 with sum reduction and NaN with mean reduction. *)
Theorem forward_without_triplets (m : R) (D : Distances.Distance) (sa : bool)
  (S : Triplet.TripletSamplingStrategy) (L : Type) (x : batch) (logits : L)
  (y : list Z) (d : list R) :
  let self := {| Triplet.margin := m; Triplet.distance := D;
                 Triplet.size_average := sa; Triplet.online := true;
                 Triplet.sampling := S |} in
  Distances.pdist D x = Ok d ->
  Triplet.triplets S y d = Ok ([], [], []) ->
  Triplet.forward self x logits y = Ok (if sa then NaN else Num 0%R).
Proof.
  intros self Hd Ht.
  unfold Triplet.forward, Triplet._calculate_distances.
  cbn [Triplet.online Triplet.distance Triplet.sampling self].
  rewrite Hd. cbn [bind]. rewrite Ht. cbn.
  destruct sa; reflexivity.
Qed.

Lemma forward_without_triplets_witness :
  let x : batch := [[0]; [1]]%R in
  let loss (sa : bool) (S : Triplet.TripletSamplingStrategy) :=
    Triplet.forward
      {| Triplet.margin := 2%R;
         Triplet.distance := Distances.EuclideanDistance;
         Triplet.size_average := sa; Triplet.online := true;
         Triplet.sampling := S |} x tt [0; 0]%Z in
  loss false Triplet.BatchAll = Ok (Num 0%R) /\
  loss true Triplet.BatchAll = Ok NaN /\
  loss false Triplet.HardestPositiveNegative = Ok (Num 0%R).
Proof.
  intros x loss. unfold loss. split; [|split].
  - apply (forward_without_triplets 2%R Distances.EuclideanDistance false
             Triplet.BatchAll x tt [0; 0]%Z (d := Distances.torch_pdist x));
      reflexivity.
  - apply (forward_without_triplets 2%R Distances.EuclideanDistance true
             Triplet.BatchAll x tt [0; 0]%Z (d := Distances.torch_pdist x));
      reflexivity.
  - apply (forward_without_triplets 2%R Distances.EuclideanDistance false
             Triplet.HardestPositiveNegative x tt [0; 0]%Z
             (d := Distances.torch_pdist x));
      reflexivity.
Defined.

(** C10. [forward] never reads its [logits] argument: two calls that differ
    only there, whatever the types of the two values, return the same
    result; in particular in online mode. *)
Theorem forward_ignores_logits (L1 L2 : Type) (self : Triplet.TripletLoss)
  (feat : Triplet.feat_type (Triplet.online self)) (l1 : L1) (l2 : L2)
  (y : list Z) :
  Triplet.forward self feat l1 y = Triplet.forward self feat l2 y.
Proof. reflexivity. Qed.

(** *** SemiHardNegative *)

(** C7, as stated, fails: with margin 1 and deviation 1 a negative at
    distance 0 from its anchor (the positive being at distance 0 too) is
    kept, although 0 is not within [1, 2], neither by itself nor relative to
    the anchor-positive distance. *)
Lemma SemiHardNegative_keeps_easy_negative :
  Triplet.filter (Triplet.SemiHardNegative 1 1) (T1 [0%R]) (T1 [0%R])
  = Ok (Triplet.Mask [1%R]) /\
  ~ (1 <= 0 <= 1 + 1)%R /\ ~ (1 <= 0 - 0 <= 1 + 1)%R.
Proof.
  split.
  - simpl. unfold Triplet.SemiHardNegative_filter, Triplet.Rgeb. simpl.
    destruct (Rge_dec 1 0) as [H|H]; [reflexivity|]. exfalso. apply H. lra.
  - split; lra.
Qed.

(** C7, amended. [SemiHardNegative.filter] returns a 0/1 mask with one entry
    per negative distance; the entry is 1 exactly when the distance is at
    most the margin, or exceeds it by at most the deviation. The positive
    distances are not consulted. *)
Theorem SemiHardNegative_filter_mask (m deviation : R) (dist_pos : tensor)
  (dist_neg : list R) :
  exists keep,
    Triplet.filter (Triplet.SemiHardNegative m deviation) dist_pos
      (T1 dist_neg) = Ok (Triplet.Mask keep) /\
    List.length keep = List.length dist_neg /\
    forall i dn,
      nth_error dist_neg i = Some dn ->
      ((dn <= m \/ dn - m <= deviation)%R -> nth_error keep i = Some 1%R) /\
      (~ (dn <= m \/ dn - m <= deviation)%R -> nth_error keep i = Some 0%R).
Proof.
  eexists. split; [reflexivity|]. split; [apply length_map|].
  intros i dn Hi. rewrite (map_nth_error _ _ _ Hi).
  unfold Triplet.Rgeb.
  destruct (Rge_dec m dn) as [H1|H1];
    destruct (Rge_dec deviation (dn - m)) as [H2|H2]; simpl;
    (split; intros H; [reflexivity || (exfalso; destruct H; lra)
                      | reflexivity || (exfalso; apply H; lra)]).
Qed.

Lemma SemiHardNegative_filter_mask_witness :
  exists keep,
    Triplet.filter (Triplet.SemiHardNegative 1 1) (T1 [5%R])
      (T1 [0; 3]%R) = Ok (Triplet.Mask keep) /\
    nth_error keep 0 = Some 1%R /\ nth_error keep 1 = Some 0%R.
Proof.
  destruct (SemiHardNegative_filter_mask 1 1 (T1 [5%R]) [0; 3]%R)
    as [keep [Hk [_ Hn]]].
  exists keep. split; [exact Hk|]. split.
  - apply (Hn 0%nat 0%R eq_refl). left. lra.
  - apply (Hn 1%nat 3%R eq_refl). intros [H|H]; lra.
Defined.

(** *** Row-wise distances *)

(** [CosineDistance.dist] on two batches of N rows: a 1-D tensor of N
    entries, the row-wise one. *)
Lemma CosineDistance_dist_per_row (x y : batch) :
  List.length x = List.length y ->
  exists l,
    Distances.dist Distances.CosineDistance x y = Ok (T1 l) /\
    List.length l = List.length x /\
    forall i xi yi,
      nth_error x i = Some xi -> nth_error y i = Some yi ->
      nth_error l i
      = Some (1 - Distances.cosine_row Distances.eps_cos xi yi)%R.
Proof.
  intros Hlen. simpl. unfold Distances.CosineDistance_dist,
    Distances.cosine_similarity.
  rewrite broadcast2_same_length by exact Hlen. simpl.
  eexists. split; [reflexivity|]. split.
  - rewrite !length_map, length_combine. lia.
  - intros i xi yi Hx Hy. rewrite map_map.
    assert (Hc : nth_error (combine x y) i = Some (xi, yi)).
    { clear Hlen. revert y i Hx Hy.
      induction x as [|a t IH]; intros [|b u] [|i] Hx Hy; simpl in *;
        try discriminate.
      - congruence.
      - now apply IH. }
    now rewrite (map_nth_error _ _ _ Hc).
Qed.

(** C5 at a batch of two rows: [EuclideanDistance.dist] returns one
    0-dimensional tensor, the 2-norm of the whole difference (5), not the
    two row distances (3 and 4). *)
Theorem EuclideanDistance_dist_is_one_scalar :
  Distances.dist Distances.EuclideanDistance
    [[0]; [0]]%R [[3]; [4]]%R = Ok (T0 5%R).
Proof.
  simpl. unfold Distances.EuclideanDistance_dist, Distances.torch_dist,
    Distances.batch_sub. simpl.
  replace ((0 - 3) * ((0 - 3) * 1) + ((0 - 4) * ((0 - 4) * 1) + 0))%R
    with 25%R by lra.
  now rewrite sqrt_25.
Qed.

(** *** The angular margin loss on concrete inputs *)

Section ArcFaceEvaluation.
Import Distances ArcFace.
Local Open Scope R_scope.

Lemma eps_norm_le_1 : eps_norm <= 1.
Proof.
  unfold eps_norm. rewrite <- Rinv_1.
  apply Rinv_le_contravar; simpl; lra.
Qed.

Lemma Rmax_eps_norm (v : R) : 1 <= v -> Rmax v eps_norm = v.
Proof.
  intros H. apply Rmax_left. pose proof eps_norm_le_1. lra.
Qed.

Lemma norm2_3_4 : norm2 [3; 4] = 5.
Proof.
  unfold norm2, dot, zip_with, rsum. simpl.
  replace (3 * 3 + (4 * 4 + 0)) with (5 * 5) by lra.
  apply sqrt_square. lra.
Qed.

Lemma norm2_unit_1 : norm2 [1] = 1.
Proof.
  unfold norm2, dot, zip_with, rsum. simpl.
  replace (1 * 1 + 0) with (1 * 1) by lra.
  apply sqrt_square. lra.
Qed.

Lemma norm2_unit_10 : norm2 [1; 0] = 1.
Proof.
  unfold norm2, dot, zip_with, rsum. simpl.
  replace (1 * 1 + (0 * 0 + 0)) with (1 * 1) by lra.
  apply sqrt_square. lra.
Qed.

Lemma norm2_unit_01 : norm2 [0; 1] = 1.
Proof.
  unfold norm2, dot, zip_with, rsum. simpl.
  replace (0 * 0 + (1 * 1 + 0)) with (1 * 1) by lra.
  apply sqrt_square. lra.
Qed.

Lemma normalize_3_4 : normalize [[3; 4]] = [[3 / 5; 4 / 5]].
Proof.
  unfold normalize. simpl. rewrite norm2_3_4, Rmax_eps_norm by lra.
  reflexivity.
Qed.

(** A class-centre matrix with two features and one class: the rows, not
    the columns, are what [F.normalize] scales to unit length. *)
Lemma cos_theta_j_above_one (m sc : R) :
  cos_theta_j {| nclass := 1; margin := m; s := sc; W := [[1]; [1]] |}
    [[3; 4]]
  = [[7 / 5]].
Proof.
  unfold cos_theta_j. cbn [nclass W]. rewrite normalize_3_4.
  unfold normalize. simpl. rewrite norm2_unit_1, Rmax_eps_norm by lra.
  unfold dot, zip_with, rsum. simpl. do 2 f_equal. lra.
Qed.

Lemma cos_theta_j_two_classes_same (m sc : R) :
  cos_theta_j {| nclass := 2; margin := m; s := sc; W := [[1; 0]; [1; 0]] |}
    [[3; 4]]
  = [[7 / 5; 0]].
Proof.
  unfold cos_theta_j. cbn [nclass W]. rewrite normalize_3_4.
  unfold normalize. simpl. rewrite norm2_unit_10, Rmax_eps_norm by lra.
  unfold dot, zip_with, rsum. simpl. f_equal. f_equal; [|f_equal]; lra.
Qed.

Lemma cos_theta_j_identity_centres (m sc : R) :
  cos_theta_j {| nclass := 2; margin := m; s := sc; W := [[1; 0]; [0; 1]] |}
    [[3; 4]]
  = [[3 / 5; 4 / 5]].
Proof.
  unfold cos_theta_j. cbn [nclass W]. rewrite normalize_3_4.
  unfold normalize. simpl.
  rewrite norm2_unit_10, norm2_unit_01, Rmax_eps_norm by lra.
  unfold dot, zip_with, rsum. simpl. f_equal. f_equal; [|f_equal]; lra.
Qed.

Lemma torch_acos_above_one : torch_acos (7 / 5) = NaN.
Proof.
  unfold torch_acos.
  destruct (Rle_dec (-1) (7 / 5)); [|reflexivity].
  destruct (Rle_dec (7 / 5) 1); [lra|reflexivity].
Qed.

Lemma torch_acos_in_range (c : R) : -1 <= c <= 1 -> torch_acos c = Num (acos c).
Proof.
  intros [H1 H2]. unfold torch_acos.
  destruct (Rle_dec (-1) c); [|contradiction].
  destruct (Rle_dec c 1); [reflexivity|contradiction].
Qed.

Lemma torch_acos_out_of_range (c : R) : ~ (-1 <= c <= 1) -> torch_acos c = NaN.
Proof.
  intros H. unfold torch_acos.
  destruct (Rle_dec (-1) c); [|reflexivity].
  destruct (Rle_dec c 1); [|reflexivity].
  exfalso. apply H. split; assumption.
Qed.

End ArcFaceEvaluation.

(** C4, as stated, fails: nothing clamps the target cosine. With the centre
    matrix [[1], [1]] (two features, one class) and the feature row (3, 4),
    [torch.acos] receives 7/5, outside [-1, 1], and the margin-adjusted
    target similarity is NaN. *)
Lemma acos_argument_not_clamped :
  let self := {| ArcFace.nclass := 1; ArcFace.margin := (35 / 100)%R;
                 ArcFace.s := 4%R; ArcFace.W := [[1]; [1]]%R |} in
  ArcFace.cos_theta_yi self [[3; 4]]%R [0%Z] = Ok [(7 / 5)%R] /\
  (1 < 7 / 5)%R /\
  ArcFace.cos_theta_yi_margin self [[3; 4]]%R [0%Z] = Ok [NaN].
Proof.
  intros self.
  assert (H : ArcFace.cos_theta_yi self [[3; 4]]%R [0%Z] = Ok [(7 / 5)%R]).
  { unfold ArcFace.cos_theta_yi, self.
    rewrite cos_theta_j_above_one. reflexivity. }
  split; [exact H|]. split; [lra|].
  unfold ArcFace.cos_theta_yi_margin. rewrite H. cbn [bind map].
  rewrite torch_acos_above_one. reflexivity.
Qed.

(** *** The margin injection *)

Section MarginInjection.
Import Distances ArcFace Ref.
Local Open Scope R_scope.

Lemma nth_error_combine {A B : Type} (l1 : list A) (l2 : list B) (i : nat)
  (a : A) (b : B) :
  nth_error (combine l1 l2) i = Some (a, b) <->
  nth_error l1 i = Some a /\ nth_error l2 i = Some b.
Proof.
  revert l2 i. induction l1 as [|a1 t1 IH]; intros [|b1 t2] [|i]; simpl;
    try (split; [discriminate | intros [H1 H2]; discriminate]).
  - split; [intros H; inversion H; auto | intros [H1 H2]; congruence].
  - apply IH.
Qed.

Lemma mapM_map {A B C : Type} (f : B -> result C) (g : A -> B) (l : list A) :
  mapM f (map g l) = mapM (fun a => f (g a)) l.
Proof.
  induction l as [|a t IH]; simpl; [reflexivity|]. now rewrite IH.
Qed.

Lemma mapM_ok_inv {A B : Type} (f : A -> result B) (l : list A) (l' : list B) :
  mapM f l = Ok l' -> Forall2 (fun a b => f a = Ok b) l l'.
Proof.
  revert l'. induction l as [|a t IH]; intros l' H; simpl in H.
  - inversion H. constructor.
  - destruct (f a) as [b|e] eqn:Ef; simpl in H; [|discriminate].
    destruct (mapM f t) as [bs|e] eqn:Et; simpl in H; [|discriminate].
    inversion H; subst. constructor; [assumption|]. now apply IH.
Qed.

Lemma zip_with_map_same {A B C D : Type} (f : B -> C -> D) (g : A -> B)
  (h : A -> C) (l : list A) :
  zip_with f (map g l) (map h l) = map (fun a => f (g a) (h a)) l.
Proof.
  unfold zip_with. induction l as [|a t IH]; simpl; [reflexivity|].
  now rewrite IH.
Qed.

Lemma combine_map_fst {A B : Type} (l1 : list A) (l2 : list B) :
  List.length l1 = List.length l2 -> map fst (combine l1 l2) = l1.
Proof.
  revert l2. induction l1 as [|a t IH]; intros [|b u] H; simpl in *;
    try discriminate; [reflexivity|].
  f_equal. apply IH. lia.
Qed.

Lemma combine_map_snd {A B : Type} (l1 : list A) (l2 : list B) :
  List.length l1 = List.length l2 -> map snd (combine l1 l2) = l2.
Proof.
  revert l2. induction l1 as [|a t IH]; intros [|b u] H; simpl in *;
    try discriminate; [reflexivity|].
  f_equal. apply IH. lia.
Qed.

(** What [row_get] returns when it succeeds. *)
Lemma row_get_ok {A : Type} (r : list A) (k : Z) (v : A) :
  row_get r k = Ok v <->
  (0 <= k)%Z /\ nth_error r (Z.to_nat k) = Some v.
Proof.
  unfold row_get. destruct (Z.ltb_spec k 0) as [L|L].
  - split; [discriminate | intros [H _]; lia].
  - destruct (nth_error r (Z.to_nat k)) as [w|].
    + split; [intros H; inversion H; auto | intros [_ H]; congruence].
    + split; [discriminate | intros [_ H]; discriminate].
Qed.

End MarginInjection.

(** C4, amended. [torch.acos] is applied to the target cosine as gathered
    from the cosine matrix, without a clamp; the margin-adjusted target
    similarity is cos(acos(c) + m) when that cosine c lies in [-1, 1] and NaN
    otherwise. *)
Theorem acos_applied_to_raw_target (self : ArcFace.ArcLoss) (x : batch)
  (y : list Z) (cs : list R) :
  ArcFace.cos_theta_yi self x y = Ok cs ->
  exists cm,
    ArcFace.cos_theta_yi_margin self x y = Ok cm /\
    List.length cm = List.length cs /\
    forall i c,
      nth_error cs i = Some c ->
      (exists r k,
          nth_error (ArcFace.cos_theta_j self x) i = Some r /\
          nth_error y i = Some k /\ ArcFace.row_get r k = Ok c) /\
      ((-1 <= c <= 1)%R ->
       nth_error cm i = Some (Num (cos (acos c + ArcFace.margin self)))) /\
      (~ (-1 <= c <= 1)%R -> nth_error cm i = Some NaN).
Proof.
  intros H. unfold ArcFace.cos_theta_yi_margin. rewrite H. cbn [bind].
  eexists. split; [reflexivity|]. split; [apply length_map|].
  intros i c Hc. split; [|split].
  - unfold ArcFace.cos_theta_yi, ArcFace.gather in H.
    destruct (List.length y <=? List.length (ArcFace.cos_theta_j self x))%nat;
      [|discriminate].
    destruct (mapM_nth_inv _ _ H _ Hc) as [[r k] [E Hb]].
    exists r, k. apply nth_error_combine in E. destruct E as [E1 E2].
    repeat split; assumption.
  - intros Hr. rewrite (map_nth_error _ _ _ Hc).
    now rewrite torch_acos_in_range.
  - intros Hr. rewrite (map_nth_error _ _ _ Hc).
    now rewrite torch_acos_out_of_range.
Qed.

Lemma acos_applied_to_raw_target_witness :
  let self := {| ArcFace.nclass := 2; ArcFace.margin := (35 / 100)%R;
                 ArcFace.s := 4%R; ArcFace.W := [[1; 0]; [0; 1]]%R |} in
  exists cm,
    ArcFace.cos_theta_yi_margin self [[3; 4]]%R [0%Z] = Ok cm /\
    nth_error cm 0 = Some (Num (cos (acos (3 / 5) + 35 / 100))).
Proof.
  intros self.
  assert (H : ArcFace.cos_theta_yi self [[3; 4]]%R [0%Z] = Ok [(3 / 5)%R]).
  { unfold ArcFace.cos_theta_yi, self.
    rewrite cos_theta_j_identity_centres. reflexivity. }
  destruct (acos_applied_to_raw_target self [[3; 4]]%R [0%Z] H)
    as [cm [Hcm [_ Hn]]].
  exists cm. split; [exact Hcm|].
  destruct (Hn 0%nat (3 / 5)%R eq_refl) as [_ [Hin _]].
  apply Hin. lra.
Defined.

(** C8, as stated, fails: when the target cosine is outside [-1, 1] the
    injected difference is NaN, and the product with the one-hot row turns
    every entry of that sample's row into NaN. With the centre matrix
    [[1, 0], [1, 0]], the feature row (3, 4), label 0 and margin 0, the
    cosines are (7/5, 0); after the injection both entries are NaN, the
    non-target one included, and the loss with scale 1 is NaN, while
    cross-entropy over the raw cosines is a number. *)
Lemma margin_injection_spreads_nan :
  let self := {| ArcFace.nclass := 2; ArcFace.margin := 0%R;
                 ArcFace.s := 1%R; ArcFace.W := [[1; 0]; [1; 0]]%R |} in
  let x : batch := [[3; 4]]%R in
  ArcFace.cos_theta_j self x = [[7 / 5; 0]]%R /\
  ArcFace.margin_logits self x [0%Z] = Ok [[NaN; NaN]] /\
  ArcFace.forward self x [0%Z] = Ok NaN /\
  exists v,
    ArcFace.CrossEntropyLoss
      (map (map Num) (ArcFace.cos_theta_j self x)) [0%Z] = Ok (Num v).
Proof.
  intros self x.
  assert (Hc : ArcFace.cos_theta_j self x = [[7 / 5; 0]]%R)
    by apply cos_theta_j_two_classes_same.
  assert (Hm : ArcFace.margin_logits self x [0%Z] = Ok [[NaN; NaN]]).
  { unfold ArcFace.margin_logits, ArcFace.cos_theta_yi_margin,
      ArcFace.cos_theta_yi.
    rewrite Hc. cbn -[ArcFace.torch_acos].
    rewrite torch_acos_above_one. reflexivity. }
  split; [exact Hc|]. split; [exact Hm|]. split.
  - unfold ArcFace.forward. rewrite Hm. reflexivity.
  - rewrite Hc. eexists. reflexivity.
Qed.

(** *** The injected rows *)

Section MarginInjectionRows.
Import Distances ArcFace Ref.
Local Open Scope R_scope.

Lemma injected_row_from (r : row) (K : nat) (dv : R) (s0 : nat) :
  zip_with vadd (map Num r)
    (map (fun o => vmul (Num o) (Num dv))
       (map (fun p : nat * R => if (fst p =? K)%nat then 1 else snd p)
          (combine (seq s0 (List.length (map (fun _ : R => 0) r)))
                   (map (fun _ : R => 0) r))))
  = map (fun p : nat * R =>
           Num (snd p + (if (fst p =? K)%nat then 1 else 0) * dv))
        (combine (seq s0 (List.length r)) r).
Proof.
  unfold zip_with. revert s0.
  induction r as [|a t IH]; intros s0; simpl; [reflexivity|].
  rewrite IH. reflexivity.
Qed.

Lemma gather_rows (ps : list (row * Z)) (cs : list R) :
  mapM (fun p => row_get (fst p) (snd p)) ps = Ok cs ->
  cs = map (fun p => nth (Z.to_nat (snd p)) (fst p) 0) ps /\
  Forall valid_target ps.
Proof.
  revert cs. induction ps as [|[r k] t IH]; intros cs H; simpl in H.
  - inversion H. split; [reflexivity|constructor].
  - destruct (row_get r k) as [c|e] eqn:Eg; simpl in H; [|discriminate].
    destruct (mapM (fun p : list R * Z => row_get (fst p) (snd p)) t)
      as [cs'|e] eqn:Et; simpl in H; [|discriminate].
    inversion H; subst. destruct (IH cs' eq_refl) as [-> HF].
    apply row_get_ok in Eg. destruct Eg as [Hk Hn].
    split.
    + simpl. f_equal. symmetry. now apply nth_error_nth.
    + constructor; [|assumption]. split; [assumption|].
      apply nth_error_Some. simpl. congruence.
Qed.

Lemma row_set_zero (r : row) (k : Z) :
  valid_target (r, k) ->
  row_set (map (fun _ : R => 0) r) k 1
  = Ok (map (fun p : nat * R => if (fst p =? Z.to_nat k)%nat then 1 else snd p)
          (combine (seq 0 (List.length (map (fun _ : R => 0) r)))
                   (map (fun _ : R => 0) r))).
Proof.
  intros [Hk Hn]. simpl in Hk, Hn. unfold row_set.
  destruct (row_get (map (fun _ : R => 0) r) k) as [v|e] eqn:E;
    [reflexivity|].
  exfalso. unfold row_get in E.
  destruct (Z.ltb_spec k 0) as [L|L]; [lia|].
  destruct (nth_error (map (fun _ : R => 0) r) (Z.to_nat k)) eqn:En;
    [discriminate|].
  apply nth_error_None in En. rewrite length_map in En. lia.
Qed.

Lemma combine_map_l {A B C : Type} (f : A -> C) (l1 : list A) (l2 : list B) :
  combine (map f l1) l2 = map (fun p => (f (fst p), snd p)) (combine l1 l2).
Proof.
  revert l2. induction l1 as [|a t IH]; intros [|b u]; simpl;
    try reflexivity.
  now rewrite IH.
Qed.

Lemma map_combine_same {A B C D : Type} (F : B * C -> D) (g : A -> B)
  (h : A -> C) (l : list A) :
  map F (combine (map g l) (map h l)) = map (fun a => F (g a, h a)) l.
Proof.
  induction l as [|a t IH]; simpl; [reflexivity|]. now rewrite IH.
Qed.

Lemma margin_logits_rows (self : ArcLoss) (x : batch) (y : list Z)
  (cs : list R) :
  List.length y = List.length x ->
  cos_theta_yi self x y = Ok cs ->
  Forall (fun c => -1 <= c <= 1) cs ->
  margin_logits self x y
  = Ok (map (fun p => injected_row (margin self) (fst p) (Z.to_nat (snd p))
                        (nth (Z.to_nat (snd p)) (fst p) 0))
            (combine (cos_theta_j self x) y)).
Proof.
  intros Hlen Hcs Hr.
  assert (Hlj : List.length (cos_theta_j self x) = List.length y).
  { unfold cos_theta_j, mm, normalize. rewrite !length_map. lia. }
  unfold margin_logits, cos_theta_yi_margin. rewrite Hcs. cbn [bind].
  unfold cos_theta_yi, gather in Hcs. rewrite Hlj, Nat.leb_refl in Hcs.
  set (cj := cos_theta_j self x) in *.
  destruct (gather_rows _ Hcs) as [-> Hv].
  (* the one-hot rows *)
  unfold scatter, zeros_like.
  match goal with
  | |- context [(_ <=? ?n)%nat] =>
      assert (Hz : n = List.length y) by (rewrite length_map; exact Hlj)
  end.
  rewrite Hz, Nat.leb_refl, combine_map_l, mapM_map.
  rewrite (mapM_ok_map _
             (fun p : row * Z =>
                map (fun q : nat * R =>
                       if (fst q =? Z.to_nat (snd p))%nat then 1 else snd q)
                    (combine
                       (seq 0 (List.length (map (fun _ : R => 0) (fst p))))
                       (map (fun _ : R => 0) (fst p))))).
  2:{ intros [r k] Hin. simpl. apply row_set_zero.
      rewrite Forall_forall in Hv. now apply Hv. }
  cbn [bind].
  rewrite skipn_all2 by (rewrite Hz; apply Nat.le_refl).
  rewrite app_nil_r.
  (* the margin-adjusted cosines *)
  rewrite map_map.
  rewrite (map_ext_in _
             (fun p : row * Z =>
                Num (cos (acos (nth (Z.to_nat (snd p)) (fst p) 0)
                          + margin self)))).
  2:{ intros p Hin. rewrite torch_acos_in_range; [reflexivity|].
      rewrite Forall_forall in Hr. apply Hr.
      apply in_map_iff. exists p. split; [reflexivity|assumption]. }
  rewrite zip_with_map_same.
  rewrite broadcast2_same_length by now rewrite !length_map.
  cbn [bind].
  rewrite map_combine_same.
  (* the in-place addition *)
  unfold iadd.
  replace (map (map Num) cj)
    with (map (fun p : row * Z => map Num (fst p)) (combine cj y))
    by (rewrite <- (map_map fst (map Num)), combine_map_fst by exact Hlj;
        reflexivity).
  rewrite !length_map, Nat.eqb_refl, zip_with_map_same.
  f_equal. apply map_ext. intros [r k]. cbn [fst snd].
  unfold vsub, vlift2, injected_row.
  apply injected_row_from.
Qed.

Lemma injected_row_nth (m : R) (r : row) (K : nat) (c : R) (j : nat) (a : R) :
  nth_error r j = Some a ->
  nth_error (injected_row m r K c) j
  = Some (Num (a + (if (j =? K)%nat then 1 else 0) * (cos (acos c + m) - c))).
Proof.
  intros H. unfold injected_row.
  assert (G : forall s0,
             nth_error (combine (seq s0 (List.length r)) r) j
             = Some ((s0 + j)%nat, a)).
  { revert j H. induction r as [|b t IH]; intros [|j] H s0; simpl in *;
      try discriminate.
    - inversion H. now rewrite Nat.add_0_r.
    - rewrite (IH j H (S s0)). do 2 f_equal. lia. }
  rewrite (map_nth_error _ _ _ (G 0%nat)). reflexivity.
Qed.

Lemma injected_row_no_margin (r : row) (K : nat) (c : R) :
  -1 <= c <= 1 -> injected_row 0 r K c = map Num r.
Proof.
  intros Hc. unfold injected_row.
  rewrite Rplus_0_r, cos_acos by exact Hc.
  generalize 0%nat.
  induction r as [|a t IH]; intros s0; simpl; [reflexivity|].
  rewrite IH. do 2 f_equal. ring.
Qed.

End MarginInjectionRows.

(** C8, amended. When every label addresses a class and every target cosine
    lies in [-1, 1], the margin injection replaces, in each sample's row of
    the cosine matrix, the entry of its label by cos(acos(.) + m) and leaves
    the other entries as they are; with m = 0 the whole matrix is unchanged,
    and with s = 1 in addition the loss is the cross-entropy of the raw
    cosines. *)
Theorem margin_injection_frame (self : ArcFace.ArcLoss) (x : batch)
  (y : list Z) (cs : list R) :
  List.length y = List.length x ->
  ArcFace.cos_theta_yi self x y = Ok cs ->
  Forall (fun c => (-1 <= c <= 1)%R) cs ->
  exists logits,
    ArcFace.margin_logits self x y = Ok logits /\
    List.length logits = List.length x /\
    (forall i j r k a,
        nth_error (ArcFace.cos_theta_j self x) i = Some r ->
        nth_error y i = Some k ->
        nth_error r j = Some a ->
        exists r',
          nth_error logits i = Some r' /\
          (Z.of_nat j <> k -> nth_error r' j = Some (Num a)) /\
          (Z.of_nat j = k ->
           nth_error r' j
           = Some (Num (cos (acos a + ArcFace.margin self))))) /\
    (ArcFace.margin self = 0%R ->
     logits = map (map Num) (ArcFace.cos_theta_j self x)) /\
    (ArcFace.margin self = 0%R -> ArcFace.s self = 1%R ->
     ArcFace.forward self x y
     = ArcFace.CrossEntropyLoss
         (map (map Num) (ArcFace.cos_theta_j self x)) y).
Proof.
  intros Hlen Hcs Hr.
  pose proof (margin_logits_rows self x y Hlen Hcs Hr) as HM.
  assert (Hlj : List.length (ArcFace.cos_theta_j self x) = List.length y).
  { unfold ArcFace.cos_theta_j, ArcFace.mm, ArcFace.normalize.
    rewrite !length_map. lia. }
  assert (Hg := Hcs). unfold ArcFace.cos_theta_yi, ArcFace.gather in Hg.
  rewrite Hlj, Nat.leb_refl in Hg.
  destruct (gather_rows _ Hg) as [Ecs Hv].
  assert (H0 : ArcFace.margin self = 0%R ->
               map (fun p => Ref.injected_row (ArcFace.margin self) (fst p)
                               (Z.to_nat (snd p))
                               (nth (Z.to_nat (snd p)) (fst p) 0%R))
                   (combine (ArcFace.cos_theta_j self x) y)
               = map (map Num) (ArcFace.cos_theta_j self x)).
  { intros ->.
    rewrite <- (combine_map_fst (ArcFace.cos_theta_j self x) y Hlj) at 2.
    rewrite map_map. apply map_ext_in. intros p Hp.
    apply injected_row_no_margin.
    rewrite Forall_forall in Hr. apply Hr. rewrite Ecs.
    apply in_map_iff. exists p. split; [reflexivity|assumption]. }
  eexists. split; [exact HM|]. split; [|split; [|split]].
  - rewrite length_map, length_combine. lia.
  - intros i j r k a Hi Hk Hj.
    assert (Hp : nth_error (combine (ArcFace.cos_theta_j self x) y) i
                 = Some (r, k)) by (apply nth_error_combine; auto).
    rewrite (map_nth_error _ _ _ Hp). cbn [fst snd].
    eexists. split; [reflexivity|].
    rewrite (injected_row_nth _ _ _ _ _ Hj).
    assert (Hvk : Ref.valid_target (r, k)).
    { rewrite Forall_forall in Hv. apply Hv.
      eapply nth_error_In. exact Hp. }
    destruct Hvk as [Hk0 _]. simpl in Hk0.
    split.
    + intros Hne. destruct (Nat.eqb_spec j (Z.to_nat k)) as [E|E]; [lia|].
      do 2 f_equal. ring.
    + intros He. destruct (Nat.eqb_spec j (Z.to_nat k)) as [E|E]; [|lia].
      rewrite <- E, (nth_error_nth _ _ _ Hj). do 2 f_equal. ring.
  - exact H0.
  - intros Hm Hs. unfold ArcFace.forward. rewrite HM. cbn [bind].
    rewrite (H0 Hm), Hs, map_map. f_equal.
    apply map_ext. intros r. rewrite map_map. apply map_ext. intros a.
    unfold ArcFace.vmul, ArcFace.vlift2. f_equal. ring.
Qed.

Lemma margin_injection_frame_witness :
  let self := {| ArcFace.nclass := 2; ArcFace.margin := 0%R;
                 ArcFace.s := 1%R; ArcFace.W := [[1; 0]; [0; 1]]%R |} in
  let x : batch := [[3; 4]]%R in
  ArcFace.margin_logits self x [0%Z] = Ok [[Num (3 / 5)%R; Num (4 / 5)%R]] /\
  ArcFace.forward self x [0%Z]
  = ArcFace.CrossEntropyLoss [[Num (3 / 5)%R; Num (4 / 5)%R]] [0%Z].
Proof.
  intros self x.
  assert (Hj : ArcFace.cos_theta_j self x = [[3 / 5; 4 / 5]]%R)
    by apply cos_theta_j_identity_centres.
  assert (Hc : ArcFace.cos_theta_yi self x [0%Z] = Ok [(3 / 5)%R]).
  { unfold ArcFace.cos_theta_yi. rewrite Hj. reflexivity. }
  assert (Hr : Forall (fun c => (-1 <= c <= 1)%R) [(3 / 5)%R]).
  { constructor; [lra|constructor]. }
  destruct (margin_injection_frame self x [0%Z] eq_refl Hc Hr)
    as [logits [Hl [_ [_ [H0 Hf]]]]].
  rewrite Hj in H0, Hf. split.
  - rewrite Hl, (H0 eq_refl). reflexivity.
  - apply Hf; reflexivity.
Defined.

(** ** Further properties *)

(** *** The condensed index as a bijection *)

Section CondensedBijection.
Import Distances Ref.

Lemma tri_succ (n : nat) :
  (S n * (S n - 1) / 2 = n + n * (n - 1) / 2)%nat.
Proof.
  destruct n as [|n]; [reflexivity|].
  replace (S (S n) * (S (S n) - 1))%nat
    with (S n * (S n - 1) + S n * 2)%nat by (simpl; nia).
  rewrite Nat.div_add by discriminate. lia.
Qed.

Lemma pair_pos_lt (n i j : nat) :
  (i < j < n)%nat -> (pair_pos n i j < n * (n - 1) / 2)%nat.
Proof.
  revert n j. induction i as [|i IH]; intros n j H.
  - destruct n as [|n]; [lia|]. rewrite tri_succ. simpl. lia.
  - destruct n as [|n]; [lia|]. rewrite tri_succ. simpl pair_pos.
    rewrite Nat.sub_0_r.
    specialize (IH n (j - 1)%nat ltac:(lia)). lia.
Qed.

Lemma pair_pos_inj (n i j i' j' : nat) :
  (i < j < n)%nat -> (i' < j' < n)%nat ->
  pair_pos n i j = pair_pos n i' j' -> i = i' /\ j = j'.
Proof.
  revert n j i' j'. induction i as [|i IH]; intros n j i' j' H H' E.
  - destruct i' as [|i']; simpl in E.
    + lia.
    + pose proof (Nat.le_0_l (pair_pos (n - 1) i' (j' - 1))). lia.
  - destruct i' as [|i']; simpl in E.
    + pose proof (Nat.le_0_l (pair_pos (n - 1) i (j - 1))). lia.
    + destruct (IH (n - 1)%nat (j - 1)%nat i' (j' - 1)%nat) as [E1 E2];
        lia.
Qed.

Lemma pair_pos_surj (n k : nat) :
  (k < n * (n - 1) / 2)%nat ->
  exists i j, (i < j < n)%nat /\ pair_pos n i j = k.
Proof.
  revert k. induction n as [|n IH]; intros k H.
  - simpl in H. lia.
  - rewrite tri_succ in H. destruct (Nat.lt_ge_cases k n) as [L|L].
    + exists 0%nat, (S k). split; [lia|]. simpl. lia.
    + destruct (IH (k - n)%nat ltac:(lia)) as [i [j [Hij E]]].
      exists (S i), (S j). split; [lia|]. simpl.
      rewrite !Nat.sub_0_r, E. lia.
Qed.

End CondensedBijection.

(** X1. For n with n * n <= 2^53: on the pairs i < j < n, [to_condensed]
    is one-to-one, and it reaches every offset below n*(n-1)/2: the
    condensed vector has exactly one slot per unordered pair. *)
Theorem to_condensed_bijective (n : nat) :
  (Z.of_nat n * Z.of_nat n <= 2 ^ 53)%Z ->
  (forall i j i' j' : nat,
      (i < j < n)%nat -> (i' < j' < n)%nat ->
      Machine.to_condensed (Z.of_nat n) (Z.of_nat i) (Z.of_nat j)
      = Machine.to_condensed (Z.of_nat n) (Z.of_nat i') (Z.of_nat j') ->
      i = i' /\ j = j') /\
  (forall k : nat,
      (k < n * (n - 1) / 2)%nat ->
      exists i j : nat,
        (i < j < n)%nat /\
        Machine.to_condensed (Z.of_nat n) (Z.of_nat i) (Z.of_nat j)
        = Ok (Z.of_nat k)).
Proof.
  intros Hb.
  assert (Hpos : forall i j : nat,
             (i < j < n)%nat ->
             Machine.to_condensed (Z.of_nat n) (Z.of_nat i) (Z.of_nat j)
             = Ok (Z.of_nat (Ref.pair_pos n i j))).
  { intros i j H. rewrite to_condensed_machine by lia.
    unfold Distances.to_condensed.
    destruct (Z.eqb_spec (Z.of_nat i) (Z.of_nat j)) as [E|E]; [lia|].
    now rewrite condensed_offset_pair_pos. }
  split.
  - intros i j i' j' H H' E. rewrite !Hpos in E by assumption.
    inversion E as [E']. apply Nat2Z.inj in E'.
    now apply (pair_pos_inj H H').
  - intros k Hk. destruct (pair_pos_surj n Hk) as [i [j [Hij E]]].
    exists i, j. split; [assumption|]. rewrite Hpos by assumption.
    now rewrite E.
Qed.

Lemma to_condensed_bijective_witness :
  (0%nat = 0%nat /\ 3%nat = 3%nat) /\
  exists i j : nat,
    (i < j < 4)%nat /\
    Machine.to_condensed 4 (Z.of_nat i) (Z.of_nat j) = Ok 5%Z.
Proof.
  destruct (to_condensed_bijective 4) as [Hi Hs];
    [vm_compute; discriminate|].
  split.
  - apply (Hi 0%nat 3%nat 0%nat 3%nat); [lia | lia | reflexivity].
  - apply (Hs 5%nat). simpl. lia.
Defined.

(** X2. On two index arrays of the same length, [to_condensed] raises its
    [ValueError] exactly when the arrays agree at some position; otherwise
    it returns, position by position, what the call on the two integers
    returns. *)
Theorem to_condensed_arr_elementwise (n : Z) (i j : list Z) :
  List.length i = List.length j ->
  (Distances.to_condensed_arr n i j = Err ValueError <->
   exists k a, nth_error i k = Some a /\ nth_error j k = Some a) /\
  (forall ks,
      Distances.to_condensed_arr n i j = Ok ks ->
      List.length ks = List.length i /\
      forall k a b,
        nth_error i k = Some a -> nth_error j k = Some b ->
        exists o,
          Distances.to_condensed n a b = Ok o /\ nth_error ks k = Some o).
Proof.
  intros Hlen. unfold Distances.to_condensed_arr.
  rewrite broadcast2_same_length by exact Hlen. rewrite map_map.
  cbn [fst snd].
  rewrite (map_ext (fun p : Z * Z => (fst p, snd p)) (fun p => p))
    by (intros [a b]; reflexivity).
  rewrite map_id.
  destruct (existsb (fun p : Z * Z => (fst p =? snd p)%Z) (combine i j))
    eqn:E.
  - split.
    + split; [intros _|reflexivity].
      apply existsb_exists in E. destruct E as [[a b] [Hin Hab]].
      apply In_nth_error in Hin. destruct Hin as [k Hk].
      apply nth_error_combine in Hk. destruct Hk as [Ha Hb].
      simpl in Hab. apply Z.eqb_eq in Hab. subst b.
      exists k, a. split; assumption.
    + intros ks H. discriminate H.
  - split.
    + split; [discriminate|].
      intros [k [a [Ha Hb]]]. exfalso.
      assert (Hin : In (a, a) (combine i j)).
      { eapply nth_error_In. apply nth_error_combine. split; eassumption. }
      assert (Ht : existsb (fun p : Z * Z => (fst p =? snd p)%Z)
                     (combine i j) = true).
      { apply existsb_exists. exists (a, a). split; [assumption|].
        apply Z.eqb_refl. }
      congruence.
    + intros ks H. inversion H; subst. split.
      * rewrite length_map, length_combine. lia.
      * intros k a b Ha Hb.
        assert (Hk : nth_error (combine i j) k = Some (a, b))
          by (apply nth_error_combine; split; assumption).
        exists (Distances.condensed_offset n a b). split.
        -- unfold Distances.to_condensed.
           destruct (Z.eqb_spec a b) as [Eab|Eab]; [|reflexivity].
           exfalso. subst b.
           assert (Ht : existsb (fun p : Z * Z => (fst p =? snd p)%Z)
                          (combine i j) = true).
           { apply existsb_exists. exists (a, a).
             split; [eapply nth_error_In; eassumption | apply Z.eqb_refl]. }
           congruence.
        -- now rewrite (map_nth_error _ _ _ Hk).
Qed.

Lemma to_condensed_arr_elementwise_witness :
  Distances.to_condensed_arr 4 [0; 2]%Z [1; 2]%Z = Err ValueError /\
  exists ks,
    Distances.to_condensed_arr 4 [0; 1]%Z [1; 3]%Z = Ok ks /\
    nth_error ks 1 = Some 4%Z.
Proof.
  split.
  - apply (to_condensed_arr_elementwise 4 [0; 2]%Z [1; 2]%Z eq_refl).
    exists 1%nat, 2%Z. split; reflexivity.
  - eexists. split; [reflexivity|].
    destruct (to_condensed_arr_elementwise 4 [0; 1]%Z [1; 3]%Z eq_refl)
      as [_ H].
    destruct (H _ eq_refl) as [_ Hn].
    destruct (Hn 1%nat 1%Z 3%Z eq_refl eq_refl) as [o [Ho Hk]].
    inversion Ho; subst. exact Hk.
Defined.

(** *** Sizes, symmetry and range of the distances *)

Section DistanceFacts.
Import Distances Ref.
Local Open Scope R_scope.

Lemma pairs_rec_length (g : row -> row -> R) (x : batch) :
  List.length (pairs_rec g x)
  = (List.length x * (List.length x - 1) / 2)%nat.
Proof.
  induction x as [|r rest IH]; [reflexivity|].
  cbn [pairs_rec List.length]. rewrite tri_succ, length_app, length_map, IH.
  reflexivity.
Qed.

Lemma zip_with_swap {A B C : Type} (f : A -> B -> C) (a : list A)
  (b : list B) :
  zip_with f a b = zip_with (fun v u => f u v) b a.
Proof.
  unfold zip_with. revert b.
  induction a as [|u s IH]; intros [|v t]; simpl; try reflexivity.
  now rewrite IH.
Qed.

Lemma dot_comm (a b : row) : dot a b = dot b a.
Proof.
  unfold dot. rewrite zip_with_swap. f_equal.
  unfold zip_with. apply map_ext. intros p. apply Rmult_comm.
Qed.

Lemma cosine_row_sym (eps : R) (a b : row) :
  cosine_row eps a b = cosine_row eps b a.
Proof.
  unfold cosine_row. now rewrite dot_comm, (Rmult_comm (norm2 a)).
Qed.

Lemma broadcast2_swap {A B C : Type} (f : A -> B -> C) (l1 : list A)
  (l2 : list B) :
  broadcast2 f l1 l2 = broadcast2 (fun b a => f a b) l2 l1.
Proof.
  unfold broadcast2. rewrite (Nat.eqb_sym (List.length l2)).
  destruct (List.length l1 =? List.length l2)%nat eqn:E.
  - f_equal. apply (zip_with_swap f).
  - destruct l1 as [|a [|a' t1]]; destruct l2 as [|b [|b' t2]];
      try reflexivity; simpl in E; discriminate.
Qed.

Lemma broadcast2_map {A B C D : Type} (f : A -> B -> C) (h : C -> D)
  (l1 : list A) (l2 : list B) :
  broadcast2 (fun a b => h (f a b)) l1 l2
  = l <- broadcast2 f l1 l2 ;; Ok (map h l).
Proof.
  unfold broadcast2. destruct (List.length l1 =? List.length l2)%nat.
  - simpl. now rewrite map_map.
  - destruct l1 as [|a [|a' t1]]; destruct l2 as [|b [|b' t2]]; simpl;
      try reflexivity; now rewrite ?map_map.
Qed.

Lemma broadcast2_ext {A B C : Type} (f g : A -> B -> C) (l1 : list A)
  (l2 : list B) :
  (forall a b, f a b = g a b) -> broadcast2 f l1 l2 = broadcast2 g l1 l2.
Proof.
  intros H. unfold broadcast2.
  destruct (List.length l1 =? List.length l2)%nat.
  - f_equal. apply map_ext. intros p. apply H.
  - destruct l1 as [|a [|a' t1]]; destruct l2 as [|b [|b' t2]];
      try reflexivity; f_equal; apply map_ext; intros; apply H.
Qed.

Lemma broadcast2_Forall {A B C : Type} (f : A -> B -> C) (P : C -> Prop)
  (l1 : list A) (l2 : list B) (l : list C) :
  (forall a b, P (f a b)) -> broadcast2 f l1 l2 = Ok l -> Forall P l.
Proof.
  intros HP. unfold broadcast2.
  destruct (List.length l1 =? List.length l2)%nat.
  - intros H. inversion H. apply Forall_forall. intros c Hc.
    apply in_map_iff in Hc. destruct Hc as [p [<- _]]. apply HP.
  - destruct l1 as [|a [|a' t1]]; destruct l2 as [|b [|b' t2]];
      intros H; inversion H; apply Forall_forall; intros c Hc;
      try (apply in_map_iff in Hc; destruct Hc as [p [<- _]]; apply HP);
      try (destruct Hc as [<-|Hc]; [apply HP|]);
      try (destruct Hc as [<-|Hc]; [apply HP|]);
      try contradiction;
      try (apply in_map_iff in Hc; destruct Hc as [p [<- _]]; apply HP).
Qed.

Lemma zip_with_minus_swap (a b : row) :
  zip_with Rminus b a = map Ropp (zip_with Rminus a b).
Proof.
  rewrite zip_with_swap. unfold zip_with. rewrite map_map.
  apply map_ext. intros p. simpl. ring.
Qed.

Lemma squares_opp (l : list R) :
  map (fun v => v ^ 2) (map Ropp l) = map (fun v => v ^ 2) l.
Proof.
  rewrite map_map. apply map_ext. intros v. ring.
Qed.

Lemma rsum_squares_nonneg (l : list R) : 0 <= rsum (map (fun v => v ^ 2) l).
Proof.
  unfold rsum. induction l as [|v t IH]; cbn [map fold_right]; [lra|].
  pose proof (pow2_ge_0 v). lra.
Qed.

Lemma batch_sub_swap (x y : batch) :
  batch_sub y x = d <- batch_sub x y ;; Ok (map (map Ropp) d).
Proof.
  unfold batch_sub. rewrite broadcast2_swap.
  rewrite <- (broadcast2_map (zip_with Rminus) (map Ropp)).
  apply broadcast2_ext. intros a b. apply zip_with_minus_swap.
Qed.

Lemma squares_concat_opp (d : batch) :
  map (fun v => v ^ 2) (concat (map (map Ropp) d))
  = map (fun v => v ^ 2) (concat d).
Proof.
  induction d as [|r t IH]; [reflexivity|].
  cbn [map concat]. rewrite !map_app, IH, squares_opp. reflexivity.
Qed.

Lemma dot_cons (a b : R) (s t : row) :
  dot (a :: s) (b :: t) = a * b + dot s t.
Proof. reflexivity. Qed.

Lemma dot_self_nonneg (a : row) : 0 <= dot a a.
Proof.
  induction a as [|v t IH]; [unfold dot; simpl; lra|].
  rewrite dot_cons. nra.
Qed.

Lemma norm2_sqr (a : row) : norm2 a * norm2 a = dot a a.
Proof. unfold norm2. apply sqrt_sqrt, dot_self_nonneg. Qed.

Lemma norm2_nonneg (a : row) : 0 <= norm2 a.
Proof. unfold norm2. apply sqrt_pos. Qed.

(** Cauchy-Schwarz on rows, whatever their lengths ([dot] stops at the
    shorter one). *)
Lemma cauchy_schwarz (a b : row) : dot a b * dot a b <= dot a a * dot b b.
Proof.
  revert b. induction a as [|u s IH]; intros [|v t].
  - change (dot [] []) with 0. lra.
  - change (dot [] (v :: t)) with 0. change (dot [] []) with 0. lra.
  - change (dot (u :: s) []) with 0. change (dot [] []) with 0. lra.
  - rewrite !dot_cons.
    pose proof (IH t) as Hp.
    pose proof (dot_self_nonneg s) as Hq.
    pose proof (dot_self_nonneg t) as Hr.
    revert Hp Hq Hr. generalize (dot s t), (dot s s), (dot t t).
    intros p q r Hp Hq Hr.
    assert (Hk : 0 <= u * u * r + v * v * q - 2 * (u * v * p)).
    { destruct (Req_dec q 0) as [E|E].
      - assert (Hp0 : p = 0) by nra. rewrite E, Hp0. nra.
      - assert (Hq' : 0 < q) by lra.
        assert (H : 0 <= q * (u * u * r + v * v * q - 2 * (u * v * p))).
        { replace (q * (u * u * r + v * v * q - 2 * (u * v * p)))
            with ((v * q - u * p) * (v * q - u * p)
                  + u * u * (q * r - p * p)) by ring.
          apply Rplus_le_le_0_compat; [apply Rle_0_sqr|].
          apply Rmult_le_pos; [apply Rle_0_sqr | lra]. }
        apply (Rmult_le_reg_l q); [assumption|].
        now rewrite Rmult_0_r. }
    nra.
Qed.

Lemma dot_le_norms (a b : row) :
  - (norm2 a * norm2 b) <= dot a b <= norm2 a * norm2 b.
Proof.
  pose proof (cauchy_schwarz a b) as H.
  rewrite <- (norm2_sqr a), <- (norm2_sqr b) in H.
  pose proof (norm2_nonneg a). pose proof (norm2_nonneg b).
  assert (0 <= norm2 a * norm2 b) by nra.
  split; nra.
Qed.

Lemma eps_cos_pos : 0 < eps_cos.
Proof. unfold eps_cos. apply Rinv_0_lt_compat. lra. Qed.

Lemma cosine_row_range (a b : row) : -1 <= cosine_row eps_cos a b <= 1.
Proof.
  unfold cosine_row.
  pose proof (dot_le_norms a b) as [H1 H2].
  pose proof (Rmax_l (norm2 a * norm2 b) eps_cos) as Hl.
  pose proof (Rmax_r (norm2 a * norm2 b) eps_cos) as Hr.
  pose proof eps_cos_pos.
  set (M := Rmax (norm2 a * norm2 b) eps_cos) in *.
  assert (HM : 0 < M) by lra.
  split.
  - apply (Rmult_le_reg_r M); [assumption|].
    unfold Rdiv. rewrite Rmult_assoc, Rinv_l by lra. lra.
  - apply (Rmult_le_reg_r M); [assumption|].
    unfold Rdiv. rewrite Rmult_assoc, Rinv_l by lra. lra.
Qed.

Lemma pairs_rec_Forall (g : row -> row -> R) (P : R -> Prop) (x : batch) :
  (forall a b, P (g a b)) -> Forall P (pairs_rec g x).
Proof.
  intros HP. induction x as [|r rest IH]; [constructor|].
  simpl. apply Forall_app. split; [|assumption].
  apply Forall_forall. intros v Hv. apply in_map_iff in Hv.
  destruct Hv as [b [<- _]]. apply HP.
Qed.

End DistanceFacts.

(** X3. [pdist] on a batch of n rows: for n >= 2 both distances return
    n*(n-1)/2 entries; on a batch of fewer than two rows
    [CosineDistance.pdist] raises ([torch.cat] of no tensor) while
    [EuclideanDistance.pdist] returns the empty tensor. *)
Theorem pdist_sizes (x : batch) :
  ((List.length x <= 1)%nat ->
   Distances.pdist Distances.CosineDistance x = Err RuntimeError /\
   Distances.pdist Distances.EuclideanDistance x = Ok []) /\
  ((2 <= List.length x)%nat ->
   exists dc de,
     Distances.pdist Distances.CosineDistance x = Ok dc /\
     Distances.pdist Distances.EuclideanDistance x = Ok de /\
     List.length dc = (List.length x * (List.length x - 1) / 2)%nat /\
     List.length de = (List.length x * (List.length x - 1) / 2)%nat).
Proof.
  split.
  - intros H. destruct x as [|r [|r' t]]; [| |simpl in H; lia];
      split; reflexivity.
  - intros H. do 2 eexists.
    split; [apply CosineDistance_pdist_pairs_rec; exact H|].
    split; [simpl; unfold Distances.EuclideanDistance_pdist;
            rewrite torch_pdist_pairs_rec; reflexivity|].
    split; apply pairs_rec_length.
Qed.

Lemma pdist_sizes_witness :
  Distances.pdist Distances.CosineDistance [[1; 2]]%R = Err RuntimeError /\
  exists dc,
    Distances.pdist Distances.CosineDistance [[1]; [2]; [3]]%R = Ok dc /\
    List.length dc = 3%nat.
Proof.
  split.
  - apply (pdist_sizes [[1; 2]]%R). simpl. lia.
  - destruct (pdist_sizes [[1]; [2]; [3]]%R) as [_ H].
    destruct (H ltac:(simpl; lia)) as [dc [de [Hc [_ [Hl _]]]]].
    exists dc. split; [exact Hc|exact Hl].
Defined.

(** X4. Both distances are symmetric: [dist(x, y)] and [dist(y, x)] return
    the same tensor, or fail alike. *)
Theorem dist_symmetric (x y : batch) :
  Distances.dist Distances.CosineDistance x y
  = Distances.dist Distances.CosineDistance y x /\
  Distances.dist Distances.EuclideanDistance x y
  = Distances.dist Distances.EuclideanDistance y x.
Proof.
  split; simpl.
  - unfold Distances.CosineDistance_dist, Distances.cosine_similarity.
    rewrite (broadcast2_swap _ x y).
    rewrite (broadcast2_ext
               (fun b a => Distances.cosine_row Distances.eps_cos a b)
               (Distances.cosine_row Distances.eps_cos))
      by (intros; apply cosine_row_sym).
    reflexivity.
  - unfold Distances.EuclideanDistance_dist, Distances.torch_dist.
    rewrite (batch_sub_swap x y).
    destruct (Distances.batch_sub x y) as [d|e]; [|reflexivity].
    simpl. now rewrite squares_concat_opp.
Qed.

Lemma Euclidean_sqdist_dist (x y : batch) :
  (exists s,
      Distances.EuclideanDistance_sqdist_sum x y = Ok s /\
      Distances.EuclideanDistance_dist x y = Ok (T0 (sqrt s)) /\
      (0 <= s)%R /\ (sqrt s * sqrt s = s)%R) \/
  (Distances.EuclideanDistance_sqdist_sum x y = Err RuntimeError /\
   Distances.EuclideanDistance_dist x y = Err RuntimeError).
Proof.
  unfold Distances.EuclideanDistance_sqdist_sum,
    Distances.EuclideanDistance_dist, Distances.torch_dist.
  destruct (Distances.batch_sub x y) as [d|e] eqn:E.
  - left. eexists. split; [reflexivity|]. split; [reflexivity|].
    split; [apply rsum_squares_nonneg|].
    apply sqrt_sqrt, rsum_squares_nonneg.
  - right. assert (e = RuntimeError) as ->; [|split; reflexivity].
    revert E. unfold Distances.batch_sub, broadcast2.
    match goal with
    | |- context [if ?c then _ else _] => destruct c
    end; [intros E; discriminate E|].
    destruct x as [|a [|a' t1]]; destruct y as [|b [|b' t2]];
      intros E; try discriminate E; inversion E; reflexivity.
Qed.

(** X7. [EuclideanDistance.sqdist_sum] is the square of
    [EuclideanDistance.dist]: both reduce over the whole batch, and they
    fail on the same inputs. *)
Theorem EuclideanDistance_sqdist_sum_is_dist_squared (x y : batch) :
  (exists s,
      Distances.sqdist_sum Distances.EuclideanDistance x y = Ok s /\
      Distances.dist Distances.EuclideanDistance x y = Ok (T0 (sqrt s)) /\
      (0 <= s)%R /\ (sqrt s * sqrt s = s)%R) \/
  (Distances.sqdist_sum Distances.EuclideanDistance x y = Err RuntimeError /\
   Distances.dist Distances.EuclideanDistance x y = Err RuntimeError).
Proof. exact (Euclidean_sqdist_dist x y). Qed.

Section SelfDistance.
Import Distances.
Local Open Scope R_scope.

Lemma zip_with_minus_self_squares (a : row) :
  rsum (map (fun v => v ^ 2) (zip_with Rminus a a)) = 0.
Proof.
  unfold rsum, zip_with. induction a as [|v t IH]; [reflexivity|].
  cbn [combine map fold_right fst snd]. rewrite IH. ring.
Qed.

Lemma batch_minus_self_squares (x : batch) :
  rsum (map (fun v => v ^ 2)
          (concat (map (fun p => zip_with Rminus (fst p) (snd p))
                       (combine x x)))) = 0.
Proof.
  induction x as [|r t IH]; [reflexivity|].
  cbn [combine map concat fst snd]. rewrite map_app.
  unfold rsum in *. rewrite fold_right_app, IH.
  apply zip_with_minus_self_squares.
Qed.

Lemma cosine_row_self_unit (r : row) :
  eps_cos <= dot r r -> cosine_row eps_cos r r = 1.
Proof.
  intros H. unfold cosine_row. rewrite norm2_sqr, Rmax_left by lra.
  pose proof eps_cos_pos. field. lra.
Qed.

Lemma cosine_row_self_zero (r : row) :
  dot r r = 0 -> cosine_row eps_cos r r = 0.
Proof.
  intros H. unfold cosine_row. rewrite H. unfold Rdiv. ring.
Qed.

End SelfDistance.

(** X5. The distance of a batch to itself. [EuclideanDistance.dist(x, x)] is
    0. [CosineDistance.dist(x, x)] is 0 at every row whose squared norm
    reaches the epsilon of [cosine_similarity] (1e-8), and 1 at an all-zero
    row: the guarded denominator keeps the similarity of a zero row with
    itself at 0. *)
Theorem dist_to_itself (x : batch) :
  Distances.dist Distances.EuclideanDistance x x = Ok (T0 0%R) /\
  exists l,
    Distances.dist Distances.CosineDistance x x = Ok (T1 l) /\
    List.length l = List.length x /\
    forall i r,
      nth_error x i = Some r ->
      ((Distances.eps_cos <= Distances.dot r r)%R ->
       nth_error l i = Some 0%R) /\
      (Distances.dot r r = 0%R -> nth_error l i = Some 1%R).
Proof.
  split.
  - simpl. unfold Distances.EuclideanDistance_dist, Distances.torch_dist,
      Distances.batch_sub.
    rewrite broadcast2_same_length by reflexivity. cbn [bind].
    rewrite batch_minus_self_squares, sqrt_0. reflexivity.
  - destruct (CosineDistance_dist_per_row x x eq_refl) as [l [Hl [Hn Hi]]].
    exists l. split; [exact Hl|]. split; [exact Hn|].
    intros i r Hr. rewrite (Hi i r r Hr Hr). split; intros H.
    + rewrite cosine_row_self_unit by exact H. f_equal. ring.
    + rewrite cosine_row_self_zero by exact H. f_equal. ring.
Qed.

Lemma dist_to_itself_witness :
  exists l,
    Distances.dist Distances.CosineDistance [[3; 4]; [0; 0]]%R
      [[3; 4]; [0; 0]]%R = Ok (T1 l) /\
    nth_error l 0 = Some 0%R /\ nth_error l 1 = Some 1%R.
Proof.
  destruct (dist_to_itself [[3; 4]; [0; 0]]%R) as [_ [l [Hl [_ Hi]]]].
  exists l. split; [exact Hl|]. split.
  - apply (Hi 0%nat [3; 4]%R eq_refl).
    unfold Distances.eps_cos, Distances.dot, Distances.rsum,
      Distances.zip_with. simpl. lra.
  - apply (Hi 1%nat [0; 0]%R eq_refl).
    unfold Distances.dot, Distances.rsum, Distances.zip_with. simpl. lra.
Defined.

(** X6. Every cosine distance lies in [0, 2]: the entries of
    [CosineDistance.dist] and of [CosineDistance.pdist], whatever the
    batches. *)
Theorem CosineDistance_range (x y : batch) :
  (forall l,
      Distances.dist Distances.CosineDistance x y = Ok (T1 l) ->
      Forall (fun v => (0 <= v <= 2)%R) l) /\
  (forall d,
      Distances.pdist Distances.CosineDistance x = Ok d ->
      Forall (fun v => (0 <= v <= 2)%R) d).
Proof.
  split.
  - intros l. simpl. unfold Distances.CosineDistance_dist,
      Distances.cosine_similarity.
    destruct (broadcast2 (Distances.cosine_row Distances.eps_cos) x y)
      as [c|e] eqn:E; [|discriminate].
    intros H. inversion H; subst.
    pose proof (broadcast2_Forall
                  (Distances.cosine_row Distances.eps_cos)
                  (fun v => (-1 <= v <= 1)%R) x y cosine_row_range E) as HF.
    apply Forall_forall. intros v Hv. apply in_map_iff in Hv.
    destruct Hv as [c0 [<- Hc]]. rewrite Forall_forall in HF.
    specialize (HF c0 Hc). lra.
  - intros d Hd. destruct (Nat.le_gt_cases 2 (List.length x)) as [L|L].
    + simpl in Hd. rewrite CosineDistance_pdist_pairs_rec in Hd by exact L.
      inversion Hd; subst. apply pairs_rec_Forall. intros a b.
      pose proof (cosine_row_range a b). lra.
    + destruct x as [|r [|r' t]]; [discriminate Hd|discriminate Hd|].
      simpl in L. lia.
Qed.

Lemma CosineDistance_range_witness :
  exists d,
    Distances.pdist Distances.CosineDistance [[1; 0]; [-1; 0]]%R = Ok d /\
    Forall (fun v => (0 <= v <= 2)%R) d.
Proof.
  eexists. split; [reflexivity|].
  apply (proj2 (CosineDistance_range [[1; 0]; [-1; 0]]%R [])).
  reflexivity.
Defined.

(** *** numpy helpers: [argmin], [argmax], [where], [squareform] *)

Section NumpyFacts.
Import Distances Triplet RefMore.
Local Open Scope R_scope.

Lemma argmin_from_spec (l : list R) :
  forall (bi : nat) (bv : R) (i : nat),
    (bi < i)%nat ->
    exists rv,
      let r := argmin_from bi bv i l in
      ((r = bi /\ rv = bv) \/
       ((i <= r)%nat /\ nth_error l (r - i) = Some rv)) /\
      rv <= bv /\
      (r <> bi -> rv < bv) /\
      forall j v, nth_error l j = Some v ->
                  rv <= v /\ ((i + j < r)%nat -> rv < v).
Proof.
  induction l as [|v t IH]; intros bi bv i Hb.
  - exists bv. cbn [argmin_from]. split; [left; split; reflexivity|].
    split; [lra|]. split; [intros H; contradiction|].
    intros [|j] w H; discriminate.
  - cbn [argmin_from]. destruct (Rlt_dec v bv) as [L|L].
    + destruct (IH i v (S i) (Nat.lt_succ_diag_r i)) as [rv [Hr [Hle [Hne Hall]]]].
      exists rv. cbv zeta in *.
      set (r := argmin_from i v (S i) t) in *.
      assert (Hir : (i <= r)%nat) by (destruct Hr as [[-> _]|[H _]]; lia).
      split; [|split; [lra|split; [intros _; lra|]]].
      * right. split; [exact Hir|].
        destruct Hr as [[-> ->]|[H1 H2]].
        -- now rewrite Nat.sub_diag.
        -- replace (r - i)%nat with (S (r - S i)) by lia. exact H2.
      * intros [|j] w Hw; simpl in Hw.
        -- inversion Hw; subst w. split; [exact Hle|].
           intros Hj. apply Hne. lia.
        -- destruct (Hall j w Hw) as [H1 H2]. split; [exact H1|].
           intros Hj. apply H2. lia.
    + assert (Hb' : (bi < S i)%nat) by lia.
      destruct (IH bi bv (S i) Hb') as [rv [Hr [Hle [Hne Hall]]]].
      exists rv. cbv zeta in *.
      set (r := argmin_from bi bv (S i) t) in *.
      split; [|split; [exact Hle|split; [exact Hne|]]].
      * destruct Hr as [[H1 H2]|[H1 H2]]; [left; split; assumption|].
        right. split; [lia|].
        replace (r - i)%nat with (S (r - S i)) by lia. exact H2.
      * intros [|j] w Hw; simpl in Hw.
        -- inversion Hw; subst w. split; [lra|].
           intros Hj. assert (r <> bi) by lia. specialize (Hne H). lra.
        -- destruct (Hall j w Hw) as [H1 H2]. split; [exact H1|].
           intros Hj. apply H2. lia.
Qed.

(** [np.argmin]: a position of the list, holding a least value, and the
    first such position. *)
Lemma np_argmin_spec (l : list R) (k : nat) :
  np_argmin l = Ok k ->
  exists rv,
    nth_error l k = Some rv /\
    forall j v, nth_error l j = Some v ->
                rv <= v /\ ((j < k)%nat -> rv < v).
Proof.
  destruct l as [|v t]; [discriminate|].
  intros H. inversion H as [Hk]. clear H.
  destruct (@argmin_from_spec t 0%nat v 1%nat Nat.lt_0_1) as [rv [Hr [Hle [Hne Hall]]]].
  cbv zeta in *. exists rv. split.
  - destruct Hr as [[-> ->]|[H1 H2]]; [reflexivity|].
    replace (argmin_from 0 v 1 t) with (S (argmin_from 0 v 1 t - 1)) by lia.
    exact H2.
  - intros [|j] w Hw; simpl in Hw.
    + inversion Hw; subst w. split; [exact Hle|].
      intros Hj. apply Hne. lia.
    + destruct (Hall j w Hw) as [H1 H2]. split; [exact H1|].
      intros Hj. apply H2. lia.
Qed.

Lemma argmax_from_opp (l : list R) :
  forall (bi : nat) (bv : R) (i : nat),
    argmax_from bi bv i l = argmin_from bi (- bv) i (map Ropp l).
Proof.
  induction l as [|v t IH]; intros bi bv i; [reflexivity|].
  cbn [argmax_from argmin_from map].
  destruct (Rlt_dec bv v) as [L|L]; destruct (Rlt_dec (- v) (- bv)) as [L'|L'];
    try (exfalso; lra); apply IH.
Qed.

(** [np.argmax]: a position holding a greatest value, the first one. *)
Lemma np_argmax_spec (l : list R) (k : nat) :
  np_argmax l = Ok k ->
  exists rv,
    nth_error l k = Some rv /\
    forall j v, nth_error l j = Some v ->
                v <= rv /\ ((j < k)%nat -> v < rv).
Proof.
  destruct l as [|v t]; [discriminate|].
  intros H. inversion H as [Hk]. clear H.
  assert (Hm : np_argmin (map Ropp (v :: t))
               = Ok (argmax_from 0 v 1 t))
    by (cbn [map np_argmin]; now rewrite argmax_from_opp).
  destruct (np_argmin_spec _ Hm) as [rv [Hr Hall]].
  rewrite nth_error_map in Hr.
  destruct (nth_error (v :: t) (argmax_from 0 v 1 t)) as [w|] eqn:E;
    [|discriminate].
  simpl in Hr. inversion Hr; subst rv. exists w. split; [reflexivity|].
  intros j u Hu.
  assert (Hu' : nth_error (map Ropp (v :: t)) j = Some (- u))
    by (rewrite nth_error_map, Hu; reflexivity).
  destruct (Hall j (- u) Hu') as [H1 H2]. split; [lra|].
  intros Hj. specialize (H2 Hj). lra.
Qed.

Lemma in_np_where (p : Z -> bool) (y : list Z) (k : nat) :
  In k (np_where p y) <-> exists l, nth_error y k = Some l /\ p l = true.
Proof.
  unfold np_where. rewrite in_map_iff. split.
  - intros [[k' l] [Hk Hin]]. simpl in Hk. subst k'.
    apply filter_In in Hin. destruct Hin as [Hin Hp].
    apply in_enumerate in Hin. exists l. split; assumption.
  - intros [l [Hk Hp]]. exists (k, l). split; [reflexivity|].
    apply filter_In. split; [now apply in_enumerate|exact Hp].
Qed.

Lemma np_take_ok (d : list R) (idx : list nat) :
  Forall (fun k => (k < List.length d)%nat) idx ->
  np_take d idx = Ok (map (fun k => nth k d 0) idx).
Proof.
  intros H. unfold np_take. apply mapM_ok_map. intros k Hk.
  rewrite Forall_forall in H. specialize (H k Hk).
  destruct (nth_error d k) as [v|] eqn:E.
  - now rewrite (nth_error_nth _ _ _ E).
  - apply nth_error_None in E. lia.
Qed.

Lemma np_take_inv (d : list R) (idx : list nat) (l : list R) :
  np_take d idx = Ok l ->
  l = map (fun k => nth k d 0) idx /\
  Forall (fun k => (k < List.length d)%nat) idx.
Proof.
  unfold np_take. revert l. induction idx as [|k t IH]; intros l H.
  - inversion H. split; [reflexivity|constructor].
  - simpl in H. destruct (nth_error d k) as [v|] eqn:E; [|discriminate].
    simpl in H.
    destruct (mapM (fun k0 : nat =>
                      match nth_error d k0 with
                      | Some v0 => Ok v0
                      | None => Err IndexError
                      end) t) as [l'|e] eqn:Et; [|discriminate].
    simpl in H. inversion H; subst.
    destruct (IH l' eq_refl) as [-> HF]. split.
    + simpl. now rewrite (nth_error_nth _ _ _ E).
    + constructor; [|exact HF]. apply nth_error_Some. congruence.
Qed.

Lemma tri_double (n : nat) : (2 * (n * (n - 1) / 2) = n * (n - 1))%nat.
Proof.
  induction n as [|n IH]; [reflexivity|].
  rewrite tri_succ. replace (S n - 1)%nat with n by lia.
  set (T := (n * (n - 1) / 2)%nat) in *.
  destruct n as [|n]; [simpl in *; lia|].
  replace (S n - 1)%nat with n in IH by lia. nia.
Qed.

(** [squareform] on a condensed vector of the size of a batch of n >= 1
    rows: the n x n matrix with a zero diagonal whose entry (i, j) is the
    condensed entry of the pair {i, j}. *)
Lemma squareform_of_condensed (n : nat) (v : list R) :
  (1 <= n)%nat -> List.length v = (n * (n - 1) / 2)%nat ->
  squareform v
  = Ok (map (fun i =>
               map (fun j => if (i =? j)%nat then 0 else condensed_at n v i j)
                   (seq 0 n))
            (seq 0 n)).
Proof.
  intros Hn Hl. unfold squareform.
  pose proof (tri_double n) as Hd.
  destruct v as [|v0 v'] eqn:Ev.
  - cbn [List.length] in Hl. rewrite <- Hl in Hd.
    assert (n = 1%nat) by nia. subst n. reflexivity.
  - rewrite <- Ev in *.
    assert (Hn2 : (2 <= n)%nat).
    { destruct (Nat.eq_dec n 1) as [->|]; [|lia].
      rewrite Ev in Hl. discriminate Hl. }
    clear Ev v0 v'.
    cbv zeta. rewrite Hl, Hd.
    assert (Hs : Nat.sqrt (n * (n - 1)) = (n - 1)%nat).
    { apply Nat.sqrt_unique. simpl. nia. }
    rewrite Hs.
    destruct (Nat.eqb_spec ((n - 1) * (n - 1)) (n * (n - 1))) as [E|E];
      [exfalso; nia|].
    replace (S (n - 1)) with n by lia. rewrite Nat.eqb_refl. reflexivity.
Qed.

Lemma square_row (n : nat) (v : list R) (a : nat) :
  (a < n)%nat ->
  index_row
    (map (fun i =>
            map (fun j => if (i =? j)%nat then 0 else condensed_at n v i j)
                (seq 0 n))
         (seq 0 n)) a
  = Ok (map (fun j => if (a =? j)%nat then 0 else condensed_at n v a j)
            (seq 0 n)).
Proof.
  intros H. unfold index_row.
  rewrite nth_error_map, nth_error_seq.
  destruct (Nat.ltb_spec a n) as [L|L]; [reflexivity|lia].
Qed.

Lemma square_row_nth (n : nat) (v : list R) (a b : nat) :
  (b < n)%nat ->
  nth b (map (fun j => if (a =? j)%nat then 0 else condensed_at n v a j)
             (seq 0 n)) 0
  = if (a =? b)%nat then 0 else condensed_at n v a b.
Proof.
  intros H. apply nth_error_nth.
  rewrite nth_error_map, nth_error_seq.
  destruct (Nat.ltb_spec b n) as [L|L]; [reflexivity|lia].
Qed.

Lemma np_where_lt (p : Z -> bool) (y : list Z) :
  Forall (fun k => (k < List.length y)%nat) (np_where p y).
Proof.
  apply Forall_forall. intros k Hk. apply in_np_where in Hk.
  destruct Hk as [l [Hl _]]. apply nth_error_Some. congruence.
Qed.

Lemma np_where_from_increasing (p : Z -> bool) (y : list Z) :
  forall s : nat,
    let w := map fst (List.filter (fun q : nat * Z => p (snd q))
                        (combine (seq s (List.length y)) y)) in
    Forall (fun k => (s <= k)%nat) w /\
    forall i j a b,
      (i < j)%nat -> nth_error w i = Some a -> nth_error w j = Some b ->
      (a < b)%nat.
Proof.
  induction y as [|l t IH]; intros s; cbv zeta.
  - split; [constructor|]. intros [|i] j a b _ H; discriminate.
  - destruct (IH (S s)) as [Hge Hinc]. cbv zeta in Hge, Hinc.
    cbn [List.length seq combine List.filter snd].
    destruct (p l).
    + cbn [map fst]. split.
      * constructor; [lia|].
        eapply Forall_impl; [|exact Hge]. intros k Hk. simpl in Hk. lia.
      * intros [|i] [|j] a b Hij Ha Hb; simpl in Ha, Hb; try lia.
        -- inversion Ha; subst a.
           apply nth_error_In in Hb. rewrite Forall_forall in Hge.
           specialize (Hge b Hb). simpl in Hge. lia.
        -- apply (Hinc i j a b); [lia|assumption|assumption].
    + split; [|exact Hinc].
      eapply Forall_impl; [|exact Hge]. intros k Hk. simpl in Hk. lia.
Qed.

Lemma np_where_increasing (p : Z -> bool) (y : list Z) (i j a b : nat) :
  (i < j)%nat ->
  nth_error (np_where p y) i = Some a ->
  nth_error (np_where p y) j = Some b -> (a < b)%nat.
Proof.
  intros Hij Ha Hb.
  destruct (np_where_from_increasing p y 0) as [_ H].
  exact (H i j a b Hij Ha Hb).
Qed.

Lemma mapM_ok_exists {A B : Type} (f : A -> result B) (l : list A) :
  (forall a, In a l -> exists b, f a = Ok b) -> exists l', mapM f l = Ok l'.
Proof.
  induction l as [|a t IH]; intros H.
  - exists []. reflexivity.
  - destruct (H a (or_introl eq_refl)) as [b Hb].
    destruct IH as [l' Hl']; [intros a' Ha'; apply H; now right|].
    exists (b :: l'). simpl. now rewrite Hb, Hl'.
Qed.

Lemma in_concat_mapM {A B : Type} (f : A -> result (list B)) (l : list A)
  (per : list (list B)) (b : B) :
  mapM f l = Ok per -> In b (concat per) ->
  exists a bs, In a l /\ f a = Ok bs /\ In b bs.
Proof.
  intros H Hb. apply in_concat in Hb. destruct Hb as [bs [Hbs Hin]].
  apply In_nth_error in Hbs. destruct Hbs as [i Hi].
  destruct (mapM_nth_inv _ _ H _ Hi) as [a [Ha Hf]].
  exists a, bs. split; [eapply nth_error_In; exact Ha|]. split; assumption.
Qed.

End NumpyFacts.

(** *** HardestNegative *)

Section HardestNegativeFacts.
Import Distances Triplet RefMore.
Local Open Scope R_scope.

Lemma HardestNegative_inv (y : list Z) (distances : list R)
  (t : triplet_lists) :
  triplets HardestNegative y distances = Ok t ->
  exists D ts,
    squareform distances = Ok D /\ t = unzip3 ts /\
    forall a p ng,
      In (a, p, ng) ts ->
      exists ya d k,
        nth_error y a = Some ya /\
        index_row D a = Ok d /\
        Forall (fun j => (j < List.length d)%nat)
               (np_where (fun l => negb (l =? ya)%Z) y) /\
        np_argmin (map (fun j => nth j d 0)
                       (np_where (fun l => negb (l =? ya)%Z) y)) = Ok k /\
        ng = nth k (np_where (fun l => negb (l =? ya)%Z) y) 0%nat /\
        In p (np_where (fun l => (l =? ya)%Z) y) /\ p <> a.
Proof.
  cbn [triplets HardestNegative]. unfold HardestNegative_triplets.
  destruct (squareform distances) as [D|e]; [|discriminate]. cbn [bind].
  match goal with
  | |- context [mapM ?f ?l] => destruct (mapM f l) as [per|e] eqn:E
  end; [|discriminate].
  cbn [bind]. intros H. inversion H; subst t. clear H.
  exists D, (concat per). split; [reflexivity|]. split; [reflexivity|].
  intros a p ng Hin.
  destruct (in_concat_mapM _ _ _ E Hin) as [[anchor ya] [bs [Ha [Hf Hb]]]].
  cbn [fst snd] in Hf. apply in_enumerate in Ha.
  destruct (index_row D anchor) as [d|e] eqn:Ed; [|discriminate].
  cbn [bind] in Hf.
  destruct (np_take d (np_where (fun l => negb (l =? ya)%Z) y))
    as [d_neg|e] eqn:Et; [|discriminate].
  cbn [bind] in Hf.
  destruct (np_argmin d_neg) as [k|e] eqn:Ek; [|discriminate].
  cbn [bind] in Hf. inversion Hf; subst bs. clear Hf.
  apply in_flat_map in Hb. destruct Hb as [positive [Hp Hb]].
  destruct (Nat.eqb_spec positive anchor) as [Epa|Epa]; [contradiction|].
  destruct Hb as [Hb|[]]. inversion Hb; subst a p ng. clear Hb.
  destruct (np_take_inv _ _ Et) as [-> HF].
  exists ya, d, k.
  split; [assumption|]. split; [assumption|]. split; [assumption|].
  split; [assumption|]. split; [reflexivity|]. split; assumption.
Qed.

Lemma argmin_position (l : list R) (k : nat) :
  np_argmin l = Ok k -> (k < List.length l)%nat.
Proof.
  intros H. destruct (np_argmin_spec _ H) as [rv [Hr _]].
  apply nth_error_Some. congruence.
Qed.

End HardestNegativeFacts.

(** X8. [HardestNegative.triplets] returns only well-formed triplets:
    whenever it returns, the three lists are aligned and every triplet has
    an anchor and a different positive of the same label and a negative of
    another label. *)
Theorem HardestNegative_triplets_valid (y : list Z) (distances : list R)
  (t : Triplet.triplet_lists) :
  Triplet.triplets Triplet.HardestNegative y distances = Ok t ->
  exists ts,
    t = Triplet.unzip3 ts /\
    forall a p n,
      In (a, p, n) ts ->
      exists ya yn,
        nth_error y a = Some ya /\ nth_error y p = Some ya /\
        nth_error y n = Some yn /\ a <> p /\ yn <> ya.
Proof.
  intros H. destruct (HardestNegative_inv _ _ H) as [D [ts [_ [Ht Hall]]]].
  exists ts. split; [exact Ht|]. intros a p n Hin.
  destruct (Hall a p n Hin) as [ya [d [k [Ha [_ [_ [Hk [Hn [Hp Hpa]]]]]]]]].
  apply in_np_where in Hp. destruct Hp as [yp [Hyp Heq]].
  apply Z.eqb_eq in Heq. subst yp.
  assert (Hin' : In n (Triplet.np_where (fun l => negb (l =? ya)%Z) y)).
  { subst n. apply nth_In. apply argmin_position in Hk.
    now rewrite length_map in Hk. }
  apply in_np_where in Hin'. destruct Hin' as [yn [Hyn Hne]].
  exists ya, yn. repeat split; try assumption.
  - intros E. apply Hpa. now symmetry.
  - intros E. subst yn. rewrite Z.eqb_refl in Hne. discriminate.
Qed.

Lemma HardestNegative_triplets_valid_witness :
  exists ts,
    (([0; 1], [1; 0], [2; 2])%nat : Triplet.triplet_lists)
    = Triplet.unzip3 ts /\
    forall a p n,
      In (a, p, n) ts ->
      exists ya yn,
        nth_error [0; 0; 1]%Z a = Some ya /\
        nth_error [0; 0; 1]%Z p = Some ya /\
        nth_error [0; 0; 1]%Z n = Some yn /\ a <> p /\ yn <> ya.
Proof.
  apply (HardestNegative_triplets_valid [0; 0; 1]%Z [1; 2; 3]%R).
  cbn [Triplet.triplets Triplet.HardestNegative].
  unfold Triplet.HardestNegative_triplets. cbn.
  unfold RefMore.condensed_at. reflexivity.
Defined.

(** X9. The negative that [HardestNegative.triplets] gives an anchor is a
    closest sample of another label, and among equally close ones the one
    of lowest index (the distances being read from the condensed vector of
    the batch). *)
Theorem HardestNegative_negative_is_closest (y : list Z)
  (distances : list R) (t : Triplet.triplet_lists) :
  let n := List.length y in
  (1 <= n)%nat -> List.length distances = (n * (n - 1) / 2)%nat ->
  Triplet.triplets Triplet.HardestNegative y distances = Ok t ->
  exists ts,
    t = Triplet.unzip3 ts /\
    forall a p ng,
      In (a, p, ng) ts ->
      forall n' ya yn',
        nth_error y a = Some ya -> nth_error y n' = Some yn' -> yn' <> ya ->
        (RefMore.condensed_at n distances a ng
         <= RefMore.condensed_at n distances a n')%R /\
        ((n' < ng)%nat ->
         (RefMore.condensed_at n distances a ng
          < RefMore.condensed_at n distances a n')%R).
Proof.
  intros n Hn Hl H.
  destruct (HardestNegative_inv _ _ H) as [D [ts [HD [Ht Hall]]]].
  exists ts. split; [exact Ht|]. intros a p ng Hin n' ya yn' Hya Hn' Hne.
  destruct (Hall a p ng Hin) as [ya' [d [k [Ha [Hd [_ [Hk [Hng _]]]]]]]].
  assert (ya' = ya) by congruence. subst ya'.
  rewrite (@squareform_of_condensed n distances Hn Hl) in HD.
  inversion HD; subst D. clear HD.
  assert (Han : (a < n)%nat) by (apply nth_error_Some; congruence).
  rewrite (@square_row n distances a Han) in Hd. inversion Hd; subst d. clear Hd.
  set (neg := Triplet.np_where (fun l => negb (l =? ya)%Z) y) in *.
  destruct (np_argmin_spec _ Hk) as [rv [Hrv Hmin]].
  pose proof (argmin_position _ Hk) as Hkl. rewrite length_map in Hkl.
  (* the chosen negative *)
  assert (Hngin : In ng neg) by (subst ng; now apply nth_In).
  assert (Hngk : nth_error neg k = Some ng)
    by (subst ng; now apply nth_error_nth').
  pose proof Hngin as Hng'. apply in_np_where in Hng'.
  destruct Hng' as [yng [Hyng Hngne]].
  assert (Hngn : (ng < n)%nat) by (apply nth_error_Some; congruence).
  assert (Hang : a <> ng).
  { intros E. subst ng. assert (yng = ya) by congruence. subst yng.
    rewrite Z.eqb_refl in Hngne. discriminate. }
  rewrite nth_error_map, Hngk in Hrv. cbn [option_map] in Hrv.
  rewrite (@square_row_nth n distances a ng Hngn) in Hrv.
  destruct (Nat.eqb_spec a ng) as [E|_]; [contradiction|].
  inversion Hrv; subst rv. clear Hrv.
  (* the competitor *)
  assert (Hn'in : In n' neg).
  { apply in_np_where. exists yn'. split; [exact Hn'|].
    destruct (Z.eqb_spec yn' ya); [contradiction|reflexivity]. }
  apply In_nth_error in Hn'in. destruct Hn'in as [j Hj].
  assert (Hn'n : (n' < n)%nat) by (apply nth_error_Some; congruence).
  assert (Han' : a <> n') by (intros E; subst n'; congruence).
  assert (Hv : nth_error
                 (map (fun j0 =>
                         nth j0
                           (map (fun j1 =>
                                   if (a =? j1)%nat then 0%R
                                   else RefMore.condensed_at n distances a j1)
                                (seq 0 n)) 0%R) neg) j
               = Some (RefMore.condensed_at n distances a n')).
  { rewrite nth_error_map, Hj. cbn [option_map].
    rewrite (@square_row_nth n distances a n' Hn'n).
    destruct (Nat.eqb_spec a n') as [E|_]; [contradiction|reflexivity]. }
  destruct (Hmin j _ Hv) as [H1 H2]. split; [exact H1|].
  intros Hlt. apply H2.
  destruct (Nat.lt_trichotomy j k) as [L|[L|L]]; [exact L| |].
  - subst j. rewrite Hngk in Hj. inversion Hj. lia.
  - pose proof (np_where_increasing _ _ L Hngk Hj). lia.
Qed.

Lemma HardestNegative_negative_is_closest_witness :
  exists ts,
    (([0; 1], [1; 0], [3; 3])%nat : Triplet.triplet_lists)
    = Triplet.unzip3 ts /\
    forall a p ng,
      In (a, p, ng) ts ->
      (RefMore.condensed_at 4 [1; 5; 2; 4; 3; 6]%R a ng
       <= RefMore.condensed_at 4 [1; 5; 2; 4; 3; 6]%R a 2)%R.
Proof.
  assert (H : Triplet.triplets Triplet.HardestNegative [0; 0; 1; 2]%Z
                [1; 5; 2; 4; 3; 6]%R
              = Ok ([0; 1], [1; 0], [3; 3])%nat).
  { cbn [Triplet.triplets Triplet.HardestNegative].
    unfold Triplet.HardestNegative_triplets. cbn.
    unfold RefMore.condensed_at. cbn.
    repeat (destruct (Rlt_dec _ _); try lra). reflexivity. }
  destruct (@HardestNegative_negative_is_closest [0; 0; 1; 2]%Z
              [1; 5; 2; 4; 3; 6]%R _ (le_n_S _ _ (Nat.le_0_l 3)) eq_refl H)
    as [ts [Ht Hall]].
  exists ts. split; [exact Ht|].
  assert (Hts : ts = [(0, 1, 3); (1, 0, 3)]%nat).
  { destruct ts as [|[[a1 p1] n1] [|[[a2 p2] n2] [|x ts']]];
      try discriminate Ht. inversion Ht. reflexivity. }
  intros a p ng Hin.
  assert (Hya : nth_error [0; 0; 1; 2]%Z a = Some 0%Z).
  { rewrite Hts in Hin. destruct Hin as [E|[E|[]]]; inversion E; reflexivity. }
  apply (Hall a p ng Hin 2%nat 0%Z 1%Z Hya eq_refl). discriminate.
Defined.

Section OneClass.
Import Distances Triplet RefMore.
Local Open Scope R_scope.

Lemma np_where_none (p : Z -> bool) (y : list Z) :
  Forall (fun l => p l = false) y -> np_where p y = [].
Proof.
  intros H. destruct (np_where p y) as [|k w] eqn:E; [reflexivity|].
  exfalso. assert (Hin : In k (np_where p y)) by (rewrite E; now left).
  apply in_np_where in Hin. destruct Hin as [l [Hl Hp]].
  rewrite Forall_forall in H. apply nth_error_In in Hl.
  rewrite (H l Hl) in Hp. discriminate.
Qed.

Lemma np_argmin_nonempty (l : list R) :
  l <> [] -> exists k, np_argmin l = Ok k.
Proof.
  destruct l as [|v t]; [contradiction|]. intros _. eexists. reflexivity.
Qed.

End OneClass.

(** X10. On a batch of n >= 1 labels with its condensed distance vector,
    [HardestNegative.triplets] raises [ValueError] when all labels are the
    same (the first anchor has no negative to take the [argmin] over) and
    returns when two labels differ. *)
Theorem HardestNegative_fails_on_one_class (y : list Z)
  (distances : list R) :
  let n := List.length y in
  (1 <= n)%nat -> List.length distances = (n * (n - 1) / 2)%nat ->
  ((exists c, Forall (fun l => l = c) y) ->
   Triplet.triplets Triplet.HardestNegative y distances = Err ValueError) /\
  ((exists i j li lj,
       nth_error y i = Some li /\ nth_error y j = Some lj /\ li <> lj) ->
   exists t, Triplet.triplets Triplet.HardestNegative y distances = Ok t).
Proof.
  intros n Hn Hl.
  cbn [Triplet.triplets Triplet.HardestNegative].
  unfold Triplet.HardestNegative_triplets.
  rewrite (@squareform_of_condensed n distances Hn Hl). cbn [bind].
  split.
  - intros [c Hc].
    destruct y as [|c0 t] eqn:Ey; [unfold n in Hn; simpl in Hn; lia|].
    rewrite <- Ey in *.
    assert (Hc0 : Forall (fun l => negb (l =? c0)%Z = false) y).
    { assert (c0 = c).
      { rewrite Forall_forall in Hc. apply Hc. rewrite Ey. now left. }
      subst c0. eapply Forall_impl; [|exact Hc].
      intros l ->. now rewrite Z.eqb_refl. }
    unfold Triplet.enumerate. rewrite Ey at 1 2.
    cbn [List.length seq combine mapM fst snd].
    rewrite (@square_row n distances 0%nat Hn). cbn [bind].
    rewrite (np_where_none _ Hc0). reflexivity.
  - intros [i [j [li [lj [Hi [Hj Hne]]]]]].
    match goal with
    | |- context [mapM ?f ?l] => destruct (@mapM_ok_exists _ _ f l) as [per E]
    end; [|rewrite E; cbn [bind]; eexists; reflexivity].
    intros [anchor ya] Ha. apply in_enumerate in Ha. cbn [fst snd].
    assert (Han : (anchor < n)%nat) by (apply nth_error_Some; congruence).
    rewrite (@square_row n distances anchor Han). cbn [bind].
    rewrite np_take_ok.
    2:{ rewrite length_map, length_seq. apply np_where_lt. }
    cbn [bind].
    destruct (@np_argmin_nonempty
                (map (fun k =>
                        nth k
                          (map (fun j0 =>
                                  if (anchor =? j0)%nat then 0%R
                                  else RefMore.condensed_at n distances
                                         anchor j0)
                               (seq 0 n)) 0%R)
                     (Triplet.np_where (fun l => negb (l =? ya)%Z) y)))
      as [k Hk].
    + assert (Hex : exists m, In m (Triplet.np_where
                                      (fun l => negb (l =? ya)%Z) y)).
      { destruct (Z.eqb_spec li ya) as [E1|E1].
        - exists j. apply in_np_where. exists lj. split; [exact Hj|].
          destruct (Z.eqb_spec lj ya); [congruence|reflexivity].
        - exists i. apply in_np_where. exists li. split; [exact Hi|].
          destruct (Z.eqb_spec li ya); [congruence|reflexivity]. }
      destruct Hex as [m Hm]. intros E.
      apply (f_equal (@List.length R)) in E. rewrite length_map in E.
      destruct (Triplet.np_where (fun l => negb (l =? ya)%Z) y);
        [contradiction|discriminate].
    + rewrite Hk. cbn [bind]. eexists. reflexivity.
Qed.

Lemma HardestNegative_fails_on_one_class_witness :
  Triplet.triplets Triplet.HardestNegative [7; 7; 7]%Z [1; 2; 3]%R
  = Err ValueError /\
  exists t,
    Triplet.triplets Triplet.HardestNegative [7; 7; 8]%Z [1; 2; 3]%R = Ok t.
Proof.
  split.
  - apply (@HardestNegative_fails_on_one_class [7; 7; 7]%Z [1; 2; 3]%R);
      [simpl; lia | reflexivity |].
    exists 7%Z. repeat constructor.
  - apply (@HardestNegative_fails_on_one_class [7; 7; 8]%Z [1; 2; 3]%R);
      [simpl; lia | reflexivity |].
    exists 0%nat, 2%nat, 7%Z, 8%Z. repeat split. discriminate.
Defined.

(** *** HardestPositiveNegative *)

Section HardestPositiveNegativeFacts.
Import Distances Triplet RefMore.
Local Open Scope R_scope.

Lemma np_argmax_nonempty (l : list R) :
  l <> [] -> exists k, np_argmax l = Ok k.
Proof.
  destruct l as [|v t]; [contradiction|]. intros _. eexists. reflexivity.
Qed.

Lemma argmax_position (l : list R) (k : nat) :
  np_argmax l = Ok k -> (k < List.length l)%nat.
Proof.
  intros H. destruct (np_argmax_spec _ H) as [rv [Hr _]].
  apply nth_error_Some. congruence.
Qed.

(** What one turn of the loop of [HardestPositiveNegative.triplets] appends
    for an anchor, when it does not raise. *)
Lemma HardestPositiveNegative_turn (D : list (list R)) (y : list Z)
  (anchor : nat) (ya : Z) (l : list (nat * nat * nat)) :
  let pos := List.filter (fun p => negb (p =? anchor)%nat)
               (np_where (fun l => (l =? ya)%Z) y) in
  let neg := np_where (fun l => negb (l =? ya)%Z) y in
  (d <- index_row D anchor ;;
   d_pos <- np_take d pos ;;
   match d_pos with
   | [] => Ok []
   | _ =>
       d_neg <- np_take d neg ;;
       match d_neg with
       | [] => Ok []
       | _ =>
           kp <- np_argmax d_pos ;;
           kn <- np_argmin d_neg ;;
           Ok [(anchor, nth kp pos 0%nat, nth kn neg 0%nat)]
       end
   end) = Ok l ->
  exists d,
    index_row D anchor = Ok d /\
    ((l = [] /\ (pos = [] \/ neg = [])) \/
     (exists kp kn,
         Forall (fun j => (j < List.length d)%nat) pos /\
         Forall (fun j => (j < List.length d)%nat) neg /\
         np_argmax (map (fun j => nth j d 0) pos) = Ok kp /\
         np_argmin (map (fun j => nth j d 0) neg) = Ok kn /\
         l = [(anchor, nth kp pos 0%nat, nth kn neg 0%nat)])).
Proof.
  intros pos neg. clearbody pos neg. intros H.
  destruct (index_row D anchor) as [d|e]; [|discriminate]. cbn [bind] in H.
  exists d. split; [reflexivity|].
  destruct (np_take d pos) as [d_pos|e] eqn:Ep; [|discriminate].
  cbn [bind] in H. destruct (np_take_inv _ _ Ep) as [-> HFp].
  destruct pos as [|p0 pos'].
  { inversion H. left. split; [reflexivity|now left]. }
  cbn [map] in H.
  destruct (np_take d neg) as [d_neg|e] eqn:En; [|discriminate].
  cbn [bind] in H. destruct (np_take_inv _ _ En) as [-> HFn].
  destruct neg as [|n0 neg'].
  { inversion H. left. split; [reflexivity|now right]. }
  cbn [map] in H.
  change (nth p0 d 0 :: map (fun k => nth k d 0) pos')
    with (map (fun k => nth k d 0) (p0 :: pos')) in H.
  change (nth n0 d 0 :: map (fun k => nth k d 0) neg')
    with (map (fun k => nth k d 0) (n0 :: neg')) in H.
  destruct (np_argmax (map (fun k => nth k d 0) (p0 :: pos'))) as [kp|e]
    eqn:Ekp; [|discriminate].
  cbn [bind] in H.
  destruct (np_argmin (map (fun k => nth k d 0) (n0 :: neg'))) as [kn|e]
    eqn:Ekn; [|discriminate].
  cbn [bind] in H. inversion H. right. exists kp, kn.
  split; [assumption|]. split; [assumption|]. split; [reflexivity|].
  split; reflexivity.
Qed.

End HardestPositiveNegativeFacts.

Section HardestPositiveNegativeOutput.
Import Distances Triplet RefMore.
Local Open Scope R_scope.

Lemma nth_error_enumerate {A : Type} (l : list A) (k : nat) (a : A) :
  nth_error l k = Some a -> nth_error (enumerate l) k = Some (k, a).
Proof.
  intros H. unfold enumerate. apply nth_error_combine. split; [|exact H].
  rewrite nth_error_seq.
  assert (k < List.length l)%nat by (apply nth_error_Some; congruence).
  destruct (Nat.ltb_spec k (List.length l)); [reflexivity|lia].
Qed.

Lemma in_pos_list (y : list Z) (anchor : nat) (ya : Z) (p : nat) :
  In p (List.filter (fun p => negb (p =? anchor)%nat)
          (np_where (fun l => (l =? ya)%Z) y))
  <-> p <> anchor /\ nth_error y p = Some ya.
Proof.
  rewrite filter_In, in_np_where. split.
  - intros [[l [Hl Hp]] Hne]. apply Z.eqb_eq in Hp. subst l.
    destruct (Nat.eqb_spec p anchor); [discriminate|]. split; assumption.
  - intros [Hne Hl]. split.
    + exists ya. split; [exact Hl|apply Z.eqb_refl].
    + destruct (Nat.eqb_spec p anchor); [contradiction|reflexivity].
Qed.

Lemma in_neg_list (y : list Z) (ya : Z) (m : nat) :
  In m (np_where (fun l => negb (l =? ya)%Z) y)
  <-> exists ym, nth_error y m = Some ym /\ ym <> ya.
Proof.
  rewrite in_np_where. split; intros [ym [Hm H]]; exists ym;
    (split; [exact Hm|]).
  - intros E. subst ym. rewrite Z.eqb_refl in H. discriminate.
  - destruct (Z.eqb_spec ym ya); [contradiction|reflexivity].
Qed.

(** One triplet at most per turn, led by the anchor of the turn: the
    anchors of the output are pairwise different. *)
Lemma anchors_NoDup (y : list Z) :
  forall (s : nat) (per : list (list (nat * nat * nat))),
    Forall2 (fun (e : nat * Z) l =>
               l = [] \/ exists p n, l = [(fst e, p, n)])
            (combine (seq s (List.length y)) y) per ->
    NoDup (map (fun t => fst (fst t)) (concat per)) /\
    Forall (fun a => (s <= a)%nat) (map (fun t => fst (fst t)) (concat per)).
Proof.
  induction y as [|l t IH]; intros s per H.
  - inversion H; subst. split; constructor.
  - cbn [List.length seq combine] in H. inversion H as [|e l0 es per' Hl Ht];
      subst. destruct (IH (S s) per' Ht) as [Hnd Hge].
    cbn [concat]. rewrite map_app.
    destruct Hl as [->|[p [n ->]]]; cbn [map app fst].
    + split; [exact Hnd|].
      eapply Forall_impl; [|exact Hge]. intros a Ha. simpl in Ha. lia.
    + split.
      * constructor; [|exact Hnd]. intros Hin.
        rewrite Forall_forall in Hge. specialize (Hge s Hin). simpl in Hge.
        lia.
      * constructor; [lia|].
        eapply Forall_impl; [|exact Hge]. intros a Ha. simpl in Ha. lia.
Qed.

End HardestPositiveNegativeOutput.

Section HardestPositiveNegativeRun.
Import Distances Triplet RefMore.
Local Open Scope R_scope.

Lemma Forall2_of_nth {A B : Type} (P : A -> B -> Prop) (l : list A)
  (l' : list B) :
  List.length l = List.length l' ->
  (forall i a b, nth_error l i = Some a -> nth_error l' i = Some b -> P a b) ->
  Forall2 P l l'.
Proof.
  revert l'. induction l as [|a t IH]; intros [|b t'] Hl H;
    try discriminate; constructor.
  - apply (H 0%nat); reflexivity.
  - apply IH; [simpl in Hl; lia|].
    intros i a' b' Ha Hb. apply (H (S i)); assumption.
Qed.

(** A run of [HardestPositiveNegative.triplets] on a batch with its
    condensed distances: it returns, and turn by turn what it appended. *)
Lemma HardestPositiveNegative_run (y : list Z) (distances : list R) :
  let n := List.length y in
  List.length distances = (n * (n - 1) / 2)%nat ->
  exists per,
    triplets HardestPositiveNegative y distances = Ok (unzip3 (concat per)) /\
    List.length per = n /\
    forall a ya,
      nth_error y a = Some ya ->
      exists l, nth_error per a = Some l /\ hardest_turn n distances y a ya l.
Proof.
  intros n Hl.
  cbn [triplets HardestPositiveNegative].
  unfold HardestPositiveNegative_triplets.
  destruct (Nat.eq_dec n 0) as [E0|E0].
  - assert (y = []) by (destruct y; [reflexivity|discriminate]). subst y.
    rewrite E0 in Hl. cbn in Hl.
    assert (distances = [])
      by (destruct distances; [reflexivity|discriminate]).
    subst distances. exists []. split; [reflexivity|].
    split; [reflexivity|]. intros [|a] ya H; discriminate.
  - assert (Hn : (1 <= n)%nat) by lia.
    rewrite (@squareform_of_condensed n distances Hn Hl). cbn [bind].
    match goal with
    | |- context [mapM ?f ?l] =>
        assert (Htot : forall e, In e l -> exists b, f e = Ok b);
        [|destruct (mapM_ok_exists f l Htot) as [per E]; rewrite E;
          destruct (mapM_nth _ _ E) as [Hlen Hnth];
          pose proof (mapM_nth_inv _ _ E) as Hinv]
    end.
    + intros [anchor ya] Hin. apply in_enumerate in Hin.
      cbv beta zeta. cbn [fst snd].
      assert (Han : (anchor < n)%nat) by (apply nth_error_Some; congruence).
      rewrite (@square_row n distances anchor Han). cbn [bind].
      rewrite np_take_ok.
      2:{ rewrite length_map, length_seq. apply Forall_forall.
          intros p Hp. apply filter_In in Hp. destruct Hp as [Hp _].
          pose proof (np_where_lt (fun l => (l =? ya)%Z) y) as HF.
          rewrite Forall_forall in HF. now apply HF. }
      cbn [bind].
      match goal with
      | |- context [match ?m with [] => _ | _ :: _ => _ end] =>
          destruct m as [|dp0 dp']
      end; [eexists; reflexivity|].
      rewrite np_take_ok
        by (rewrite length_map, length_seq; apply np_where_lt).
      cbn [bind].
      match goal with
      | |- context [match ?m with [] => _ | _ :: _ => _ end] =>
          destruct m as [|dn0 dn']
      end; eexists; reflexivity.
    + cbn [bind]. exists per. split; [reflexivity|].
      split; [rewrite Hlen; unfold enumerate;
              rewrite length_combine, length_seq; fold n; lia|].
      intros a ya Ha.
      destruct (Hnth a (a, ya) (nth_error_enumerate _ _ Ha)) as [l [Hf Hp]].
      exists l. split; [exact Hp|].
      apply HardestPositiveNegative_turn in Hf.
      destruct Hf as [d [Hd Hcases]]. cbn [fst snd] in Hd, Hcases.
      assert (Han : (a < n)%nat) by (apply nth_error_Some; congruence).
      rewrite (@square_row n distances a Han) in Hd.
      inversion Hd; subst d. clear Hd.
      unfold hardest_turn, pos_of, neg_of, square_row_of. cbv zeta.
      destruct Hcases as [H|[kp [kn [_ [_ [Hkp [Hkn Hlst]]]]]]];
        [left; exact H|].
      right. exists kp, kn. split; [exact Hkp|]. split; assumption.
Qed.

End HardestPositiveNegativeRun.

(** X11. On a batch with its condensed distance vector,
    [HardestPositiveNegative.triplets] never raises. It returns at most one
    triplet per anchor; every triplet has a different positive of the
    anchor's label and a negative of another label; and an anchor gets a
    triplet exactly when the batch holds another sample of its label and a
    sample of another label. *)
Theorem HardestPositiveNegative_triplets_total (y : list Z)
  (distances : list R) :
  let n := List.length y in
  List.length distances = (n * (n - 1) / 2)%nat ->
  exists ts,
    Triplet.triplets Triplet.HardestPositiveNegative y distances
    = Ok (Triplet.unzip3 ts) /\
    NoDup (map (fun t => fst (fst t)) ts) /\
    (forall a p ng,
        In (a, p, ng) ts ->
        exists ya yn,
          nth_error y a = Some ya /\ nth_error y p = Some ya /\
          nth_error y ng = Some yn /\ a <> p /\ yn <> ya) /\
    (forall a ya,
        nth_error y a = Some ya ->
        ((exists p ng, In (a, p, ng) ts) <->
         (exists p, p <> a /\ nth_error y p = Some ya) /\
         (exists m ym, nth_error y m = Some ym /\ ym <> ya))).
Proof.
  intros n Hl. subst n.
  pose proof (HardestPositiveNegative_run y distances Hl) as Hr.
  cbv zeta in Hr. destruct Hr as [per [Hrun [Hlen Hturn]]].
  set (n := List.length y) in *.
  (* every triplet comes from the turn of its anchor *)
  assert (Hfrom : forall a p ng,
             In (a, p, ng) (concat per) ->
             exists ya kp kn,
               nth_error y a = Some ya /\
               Triplet.np_argmax
                 (map (fun j => nth j (RefMore.square_row_of n distances a)
                                  0%R)
                      (RefMore.pos_of y a ya)) = Ok kp /\
               Triplet.np_argmin
                 (map (fun j => nth j (RefMore.square_row_of n distances a)
                                  0%R)
                      (RefMore.neg_of y ya)) = Ok kn /\
               p = nth kp (RefMore.pos_of y a ya) 0%nat /\
               ng = nth kn (RefMore.neg_of y ya) 0%nat).
  { intros a p ng Hin. apply in_concat in Hin.
    destruct Hin as [l [Hl' Hin]]. apply In_nth_error in Hl'.
    destruct Hl' as [i Hi].
    assert (Hiy : (i < n)%nat).
    { rewrite <- Hlen. apply nth_error_Some. congruence. }
    destruct (nth_error y i) as [yi|] eqn:Ey;
      [|apply nth_error_None in Ey; fold n in Ey; lia].
    destruct (Hturn i yi Ey) as [l' [Hl' Ht]].
    assert (l' = l) by congruence. subst l'.
    destruct Ht as [[-> _]|[kp [kn [Hkp [Hkn ->]]]]]; [contradiction|].
    destruct Hin as [Hin|[]]. inversion Hin; subst.
    exists yi, kp, kn. repeat split; assumption. }
  exists (concat per). split; [exact Hrun|]. split; [|split].
  - apply (anchors_NoDup y 0).
    apply Forall2_of_nth.
    + rewrite Hlen, length_combine, length_seq. fold n. lia.
    + intros i [a ya] l Hi Hp. cbn [fst].
      apply nth_error_combine in Hi. destruct Hi as [Hs Hy].
      rewrite nth_error_seq in Hs.
      destruct (i <? List.length y)%nat; [|discriminate].
      inversion Hs; subst a. clear Hs.
      destruct (Hturn i ya Hy) as [l' [Hl' Ht]].
      assert (l' = l) by congruence. subst l'.
      destruct Ht as [[-> _]|[kp [kn [_ [_ ->]]]]]; [now left|].
      right. eexists. eexists. reflexivity.
  - intros a p ng Hin.
    destruct (Hfrom a p ng Hin) as [ya [kp [kn [Ha [Hkp [Hkn [Hp Hng]]]]]]].
    apply argmax_position in Hkp. apply argmin_position in Hkn.
    rewrite length_map in Hkp, Hkn.
    assert (Hpin : In p (RefMore.pos_of y a ya))
      by (subst p; now apply nth_In).
    assert (Hnin : In ng (RefMore.neg_of y ya))
      by (subst ng; now apply nth_In).
    apply in_pos_list in Hpin. destruct Hpin as [Hpa Hyp].
    apply in_neg_list in Hnin. destruct Hnin as [yn [Hyn Hne]].
    exists ya, yn. repeat split; try assumption.
    intros E. apply Hpa. now symmetry.
  - intros a ya Ha. split.
    + intros [p [ng Hin]].
      destruct (Hfrom a p ng Hin) as [ya' [kp [kn [Ha' [Hkp [Hkn _]]]]]].
      assert (ya' = ya) by congruence. subst ya'.
      apply argmax_position in Hkp. apply argmin_position in Hkn.
      rewrite length_map in Hkp, Hkn.
      split.
      * exists (nth kp (RefMore.pos_of y a ya) 0%nat).
        apply in_pos_list. now apply nth_In.
      * destruct (proj1 (in_neg_list y ya _)
                    (nth_In (RefMore.neg_of y ya) 0%nat Hkn))
          as [ym Hm].
        eexists. exists ym. exact Hm.
    + intros [[p Hp] [m [ym Hm]]].
      destruct (Hturn a ya Ha) as [l [Hl' Ht]].
      destruct Ht as [[_ [He|He]]|[kp [kn [_ [_ ->]]]]].
      * exfalso. apply in_pos_list in Hp. unfold RefMore.pos_of in He.
        rewrite He in Hp. contradiction.
      * exfalso.
        assert (Hin : In m (RefMore.neg_of y ya))
          by (apply in_neg_list; exists ym; exact Hm).
        rewrite He in Hin. contradiction.
      * eexists. eexists. apply in_concat. eexists.
        split; [eapply nth_error_In; exact Hl'|now left].
Qed.

Lemma HardestPositiveNegative_triplets_total_witness :
  exists ts,
    Triplet.triplets Triplet.HardestPositiveNegative [0; 0; 1]%Z
      [1; 2; 3]%R = Ok (Triplet.unzip3 ts) /\
    NoDup (map (fun t => fst (fst t)) ts) /\
    ((exists p ng, In (2%nat, p, ng) ts) -> False).
Proof.
  destruct (@HardestPositiveNegative_triplets_total [0; 0; 1]%Z
              [1; 2; 3]%R eq_refl) as [ts [Hr [Hnd [_ Hiff]]]].
  exists ts. split; [exact Hr|]. split; [exact Hnd|].
  intros H. apply (Hiff 2%nat 1%Z eq_refl) in H.
  destruct H as [[p [Hp Hy]] _].
  destruct p as [|[|[|p]]]; simpl in Hy; try discriminate Hy.
  - apply Hp. reflexivity.
  - destruct p; discriminate Hy.
Defined.

(** X12. In every triplet that [HardestPositiveNegative.triplets] returns,
    the positive is a farthest sample of the anchor's label and the
    negative a closest sample of another label (distances read from the
    condensed vector of the batch). *)
Theorem HardestPositiveNegative_picks_hardest (y : list Z)
  (distances : list R) (t : Triplet.triplet_lists) :
  let n := List.length y in
  List.length distances = (n * (n - 1) / 2)%nat ->
  Triplet.triplets Triplet.HardestPositiveNegative y distances = Ok t ->
  exists ts,
    t = Triplet.unzip3 ts /\
    forall a p ng ya,
      In (a, p, ng) ts -> nth_error y a = Some ya ->
      (forall p',
          p' <> a -> nth_error y p' = Some ya ->
          (RefMore.condensed_at n distances a p'
           <= RefMore.condensed_at n distances a p)%R) /\
      (forall n' yn',
          nth_error y n' = Some yn' -> yn' <> ya ->
          (RefMore.condensed_at n distances a ng
           <= RefMore.condensed_at n distances a n')%R).
Proof.
  intros n Hl Ht. subst n.
  pose proof (HardestPositiveNegative_run y distances Hl) as Hr.
  cbv zeta in Hr. destruct Hr as [per [Hrun [Hlen Hturn]]].
  set (n := List.length y) in *. rewrite Hrun in Ht. inversion Ht; subst t. clear Ht.
  exists (concat per). split; [reflexivity|].
  intros a p ng ya Hin Ha.
  apply in_concat in Hin. destruct Hin as [l [Hl' Hin]].
  apply In_nth_error in Hl'. destruct Hl' as [i Hi].
  assert (Hiy : (i < n)%nat).
  { rewrite <- Hlen. apply nth_error_Some. congruence. }
  destruct (nth_error y i) as [yi|] eqn:Ey;
    [|apply nth_error_None in Ey; fold n in Ey; lia].
  destruct (Hturn i yi Ey) as [l' [Hl' Htn]].
  assert (l' = l) by congruence. subst l'.
  destruct Htn as [[-> _]|[kp [kn [Hkp [Hkn ->]]]]]; [contradiction|].
  destruct Hin as [Hin|[]]. inversion Hin; subst. clear Hin.
  assert (yi = ya) by congruence. subst yi.
  assert (Han : (a < n)%nat) by exact Hiy.
  assert (Hrow : forall b, (b < n)%nat -> b <> a ->
                   nth b (RefMore.square_row_of n distances a) 0%R
                   = RefMore.condensed_at n distances a b).
  { intros b Hb Hne. unfold RefMore.square_row_of.
    rewrite (@square_row_nth n distances a b Hb).
    destruct (Nat.eqb_spec a b); [congruence|reflexivity]. }
  split.
  - intros p' Hp'a Hp'.
    destruct (np_argmax_spec _ Hkp) as [rv [Hrv Hmax]].
    pose proof (argmax_position _ Hkp) as Hk. rewrite length_map in Hk.
    set (pos := RefMore.pos_of y a ya) in *.
    assert (Hpk : nth_error pos kp = Some (nth kp pos 0%nat))
      by now apply nth_error_nth'.
    assert (Hpin : In (nth kp pos 0%nat) pos) by now apply nth_In.
    apply in_pos_list in Hpin. destruct Hpin as [Hpa Hyp].
    rewrite nth_error_map, Hpk in Hrv. cbn [option_map] in Hrv.
    rewrite Hrow in Hrv
      by (try assumption; apply nth_error_Some; congruence).
    inversion Hrv; subst rv. clear Hrv.
    assert (Hin' : In p' pos) by (apply in_pos_list; split; assumption).
    apply In_nth_error in Hin'. destruct Hin' as [j Hj].
    assert (Hv : nth_error
                   (map (fun j0 =>
                           nth j0 (RefMore.square_row_of n distances a) 0%R)
                        pos) j
                 = Some (RefMore.condensed_at n distances a p')).
    { rewrite nth_error_map, Hj. cbn [option_map]. f_equal.
      apply Hrow; [apply nth_error_Some; congruence|assumption]. }
    apply (Hmax j _ Hv).
  - intros n' yn' Hn' Hne.
    destruct (np_argmin_spec _ Hkn) as [rv [Hrv Hmin]].
    pose proof (argmin_position _ Hkn) as Hk. rewrite length_map in Hk.
    set (neg := RefMore.neg_of y ya) in *.
    assert (Hnk : nth_error neg kn = Some (nth kn neg 0%nat))
      by now apply nth_error_nth'.
    assert (Hnin : In (nth kn neg 0%nat) neg) by now apply nth_In.
    apply in_neg_list in Hnin. destruct Hnin as [yn [Hyn Hyne]].
    rewrite nth_error_map, Hnk in Hrv. cbn [option_map] in Hrv.
    rewrite Hrow in Hrv
      by (try (apply nth_error_Some; congruence);
          intros E; rewrite E in Hyn; congruence).
    inversion Hrv; subst rv. clear Hrv.
    assert (Hin' : In n' neg)
      by (apply in_neg_list; exists yn'; split; assumption).
    apply In_nth_error in Hin'. destruct Hin' as [j Hj].
    assert (Hv : nth_error
                   (map (fun j0 =>
                           nth j0 (RefMore.square_row_of n distances a) 0%R)
                        neg) j
                 = Some (RefMore.condensed_at n distances a n')).
    { rewrite nth_error_map, Hj. cbn [option_map]. f_equal.
      apply Hrow; [apply nth_error_Some; congruence|].
      intros E. subst n'. congruence. }
    apply (Hmin j _ Hv).
Qed.

Lemma HardestPositiveNegative_picks_hardest_witness :
  exists ts,
    (([0; 1], [1; 0], [2; 2])%nat : Triplet.triplet_lists)
    = Triplet.unzip3 ts /\
    forall a p ng,
      In (a, p, ng) ts -> nth_error [0; 0; 1]%Z a = Some 0%Z ->
      (RefMore.condensed_at 3 [1; 2; 3]%R a ng
       <= RefMore.condensed_at 3 [1; 2; 3]%R a 2)%R.
Proof.
  assert (H : Triplet.triplets Triplet.HardestPositiveNegative [0; 0; 1]%Z
                [1; 2; 3]%R = Ok ([0; 1], [1; 0], [2; 2])%nat)
    by reflexivity.
  destruct (@HardestPositiveNegative_picks_hardest [0; 0; 1]%Z [1; 2; 3]%R
              _ eq_refl H) as [ts [Ht Hall]].
  exists ts. split; [exact Ht|].
  intros a p ng Hin Ha.
  apply (proj2 (Hall a p ng 0%Z Hin Ha) 2%nat 1%Z eq_refl). discriminate.
Defined.

(** *** The online loss with BatchAll, end to end *)

Section OnlineBatchAll.
Import Distances Triplet Ref RefMore.
Local Open Scope R_scope.

Lemma l2_row_sym (a b : row) : l2_row a b = l2_row b a.
Proof.
  unfold l2_row. rewrite (zip_with_minus_swap b a), squares_opp.
  reflexivity.
Qed.

Lemma cosine_dist_row_sym (a b : row) :
  cosine_dist_row a b = cosine_dist_row b a.
Proof. unfold cosine_dist_row. now rewrite cosine_row_sym. Qed.

(** Fetching through the condensed index returns the distance of the two
    rows, in whichever order the pair is given. *)
Lemma fetch_pair (g : row -> row -> R) (x : batch) (a b : nat) :
  (forall u v, g u v = g v u) ->
  (a < List.length x)%nat -> (b < List.length x)%nat -> a <> b ->
  tensor_get (pairs_rec g x)
    (condensed_offset (Z.of_nat (List.length x)) (Z.of_nat a) (Z.of_nat b))
  = Ok (dist_at g x a b).
Proof.
  intros Hsym Ha Hb Hab. unfold dist_at.
  destruct (nth_error x a) as [xa|] eqn:Ea;
    [|apply nth_error_None in Ea; lia].
  destruct (nth_error x b) as [xb|] eqn:Eb;
    [|apply nth_error_None in Eb; lia].
  rewrite (nth_error_nth _ _ _ Ea), (nth_error_nth _ _ _ Eb).
  destruct (Nat.lt_trichotomy a b) as [L|[L|L]]; [|contradiction|].
  - rewrite condensed_offset_pair_pos by lia.
    apply tensor_get_nth. now apply pairs_rec_nth.
  - rewrite condensed_offset_sym, condensed_offset_pair_pos by lia.
    apply tensor_get_nth. rewrite (Hsym xa xb). now apply pairs_rec_nth.
Qed.

Lemma condensed_arr_of_triplets (n : Z) (ts : list (nat * nat * nat))
  (f h : nat * nat * nat -> nat) :
  (forall t, In t ts -> f t <> h t) ->
  to_condensed_arr n (map Z.of_nat (map f ts)) (map Z.of_nat (map h ts))
  = Ok (map (fun t => condensed_offset n (Z.of_nat (f t)) (Z.of_nat (h t)))
            ts).
Proof.
  intros Hne. unfold to_condensed_arr.
  rewrite broadcast2_same_length by now rewrite !length_map.
  rewrite !map_map.
  rewrite (map_combine_same (fun p : Z * Z => (fst p, snd p))
             (fun t => Z.of_nat (f t)) (fun t => Z.of_nat (h t)) ts).
  cbn [fst snd].
  destruct (existsb (fun p : Z * Z => (fst p =? snd p)%Z)
              (map (fun a => (Z.of_nat (f a), Z.of_nat (h a))) ts)) eqn:E.
  - exfalso. apply existsb_exists in E. destruct E as [p [Hin Hp]].
    apply in_map_iff in Hin. destruct Hin as [t [<- Ht]].
    cbn [fst snd] in Hp. apply Z.eqb_eq in Hp.
    specialize (Hne t Ht). lia.
  - now rewrite map_combine_same.
Qed.

Lemma take_of_triplets (g : row -> row -> R) (x : batch)
  (ts : list (nat * nat * nat)) (f h : nat * nat * nat -> nat) :
  (forall u v, g u v = g v u) ->
  (forall t, In t ts ->
             (f t < List.length x)%nat /\ (h t < List.length x)%nat /\
             f t <> h t) ->
  tensor_take (pairs_rec g x)
    (map (fun t => condensed_offset (Z.of_nat (List.length x))
                     (Z.of_nat (f t)) (Z.of_nat (h t))) ts)
  = Ok (map (fun t => dist_at g x (f t) (h t)) ts).
Proof.
  intros Hsym Hok. unfold tensor_take. rewrite mapM_map.
  apply mapM_ok_map. intros t Ht.
  destruct (Hok t Ht) as [H1 [H2 H3]]. now apply fetch_pair.
Qed.

Lemma BatchAll_loop_bounds (y : list Z) (t : nat * nat * nat) :
  In t (BatchAll_loop y) ->
  (fst (fst t) < List.length y)%nat /\ (snd (fst t) < List.length y)%nat /\
  (snd t < List.length y)%nat /\
  fst (fst t) <> snd (fst t) /\ fst (fst t) <> snd t.
Proof.
  destruct t as [[a p] n]. intros H. apply BatchAll_loop_in in H.
  destruct H as [ya [yp [yn [Ha [Hp [Hn [Hap [Heq Hne]]]]]]]].
  cbn [fst snd].
  repeat split; try (apply nth_error_Some; congruence); try assumption.
  intros E. subst n. congruence.
Qed.

(** When [pdist] of the distance enumerates the pairs of rows under a
    symmetric row distance [g], the online loss with [BatchAll] is the
    reduced hinge over all triplets of the batch, each with the distances
    of its own rows. *)
Lemma online_BatchAll_generic (g : row -> row -> R) (D : Distance) (m : R)
  (sa : bool) (L : Type) (x : batch) (logits : L) (y : list Z) :
  let self := {| margin := m; distance := D; size_average := sa;
                 online := true; sampling := BatchAll |} in
  (forall u v, g u v = g v u) ->
  pdist D x = Ok (pairs_rec g x) ->
  List.length y = List.length x ->
  _calculate_distances self x y
  = Ok (map (fun t => dist_at g x (fst (fst t)) (snd (fst t)))
            (BatchAll_loop y),
        map (fun t => dist_at g x (fst (fst t)) (snd t)) (BatchAll_loop y))
  /\
  (BatchAll_loop y <> [] ->
   forward self x logits y
   = Ok (Num (reduce sa (triplet_hinges m g x (BatchAll_loop y))))).
Proof.
  intros self Hsym Hp Hlen.
  assert (Hc : _calculate_distances self x y
               = Ok (map (fun t => dist_at g x (fst (fst t)) (snd (fst t)))
                         (BatchAll_loop y),
                     map (fun t => dist_at g x (fst (fst t)) (snd t))
                         (BatchAll_loop y))).
  { assert (Hb : forall t, In t (BatchAll_loop y) ->
                 (fst (fst t) < List.length x)%nat /\
                 (snd (fst t) < List.length x)%nat /\
                 (snd t < List.length x)%nat /\
                 fst (fst t) <> snd (fst t) /\ fst (fst t) <> snd t).
    { intros t Ht. rewrite <- Hlen. now apply BatchAll_loop_bounds. }
    unfold _calculate_distances.
    cbn [distance sampling self triplets BatchAll]. rewrite Hp. cbn [bind].
    unfold BatchAll_triplets. cbn [bind unzip3 fst snd].
    rewrite (condensed_arr_of_triplets _ (BatchAll_loop y)
               (fun t => fst (fst t)) (fun t => snd (fst t)))
      by (intros t Ht; apply (Hb t Ht)).
    cbn [bind].
    rewrite (condensed_arr_of_triplets _ (BatchAll_loop y)
               (fun t => fst (fst t)) snd)
      by (intros t Ht; apply (Hb t Ht)).
    cbn [bind].
    rewrite (take_of_triplets g x (BatchAll_loop y)
               (fun t => fst (fst t)) (fun t => snd (fst t)) Hsym)
      by (intros t Ht; destruct (Hb t Ht) as [? [? [? [? ?]]]]; tauto).
    cbn [bind].
    rewrite (take_of_triplets g x (BatchAll_loop y)
               (fun t => fst (fst t)) snd Hsym)
      by (intros t Ht; destruct (Hb t Ht) as [? [? [? [? ?]]]]; tauto).
    reflexivity. }
  split; [exact Hc|].
  intros Hne. unfold forward. cbn [online self].
  rewrite Hc. cbn [bind fst snd].
  rewrite margin_loss_T1.
  - cbn [size_average margin self]. unfold triplet_hinges, zip_with.
    do 3 f_equal. rewrite map_combine_same. reflexivity.
  - destruct (BatchAll_loop y); [contradiction|discriminate].
  - now rewrite !length_map.
Qed.

End OnlineBatchAll.

(** X13. Online mode with [BatchAll], end to end. For a batch of n >= 2
    rows with one label per row, the loss under either distance is the
    mean (or sum) over all triplets of the batch of the hinge of the
    distances of the triplet's own rows: fetching through the condensed
    index never raises and never picks the distance of another pair. *)
Theorem online_BatchAll_loss (m : R) (sa : bool) (L : Type) (x : batch)
  (logits : L) (y : list Z) :
  let self D := {| Triplet.margin := m; Triplet.distance := D;
                   Triplet.size_average := sa; Triplet.online := true;
                   Triplet.sampling := Triplet.BatchAll |} in
  let ts := Triplet.BatchAll_loop y in
  (2 <= List.length x)%nat -> List.length y = List.length x -> ts <> [] ->
  Triplet.forward (self Distances.CosineDistance) x logits y
  = Ok (Num (Ref.reduce sa
               (RefMore.triplet_hinges m RefMore.cosine_dist_row x ts))) /\
  Triplet.forward (self Distances.EuclideanDistance) x logits y
  = Ok (Num (Ref.reduce sa
               (RefMore.triplet_hinges m Distances.l2_row x ts))).
Proof.
  intros self ts Hn Hlen Hne. split.
  - apply (online_BatchAll_generic RefMore.cosine_dist_row
             Distances.CosineDistance m sa x logits y cosine_dist_row_sym);
      [|exact Hlen|exact Hne].
    apply CosineDistance_pdist_pairs_rec. exact Hn.
  - apply (online_BatchAll_generic Distances.l2_row
             Distances.EuclideanDistance m sa x logits y l2_row_sym);
      [|exact Hlen|exact Hne].
    cbn. unfold Distances.EuclideanDistance_pdist.
    now rewrite torch_pdist_pairs_rec.
Qed.

Lemma online_BatchAll_loss_witness :
  let self :=
    {| Triplet.margin := 1%R;
       Triplet.distance := Distances.EuclideanDistance;
       Triplet.size_average := false; Triplet.online := true;
       Triplet.sampling := Triplet.BatchAll |} in
  let x : batch := [[0]; [3]; [7]]%R in
  Triplet.forward self x tt [5; 5; 6]%Z
  = Ok (Num (Ref.reduce false
               (RefMore.triplet_hinges 1 Distances.l2_row x
                  [(0, 1, 2); (1, 0, 2)]%nat))).
Proof.
  intros self x.
  apply (@online_BatchAll_loss 1%R false unit x tt [5; 5; 6]%Z);
    [simpl; lia | reflexivity | discriminate].
Defined.

Section HingeFacts.
Import Distances Triplet Ref.
Local Open Scope R_scope.

Lemma hinge_nonneg (m dp dn : R) : 0 <= hinge m dp dn.
Proof. unfold hinge. apply Rmax_l. Qed.

Lemma hinge_zero_iff (m dp dn : R) :
  hinge m dp dn = 0 <-> dp ^ 2 + m <= dn ^ 2.
Proof.
  unfold hinge, Rmax.
  destruct (Rle_dec 0 (dp ^ 2 - dn ^ 2 + m)); split; intros H; lra.
Qed.

Lemma rsum_nonneg (l : list R) : Forall (fun v => 0 <= v) l -> 0 <= rsum l.
Proof.
  unfold rsum. induction 1 as [|v t Hv Ht IH]; cbn [fold_right]; lra.
Qed.

Lemma rsum_zero_iff (l : list R) :
  Forall (fun v => 0 <= v) l ->
  (rsum l = 0 <-> Forall (fun v => v = 0) l).
Proof.
  induction 1 as [|v t Hv Ht IH].
  - split; [constructor|reflexivity].
  - pose proof (rsum_nonneg Ht) as Hs. unfold rsum in *.
    cbn [fold_right]. split.
    + intros H. constructor; [lra|]. apply IH. lra.
    + intros H. inversion H; subst. apply IH in H3. lra.
Qed.

Lemma zip_with_Forall {A B C : Type} (f : A -> B -> C) (P : C -> Prop)
  (a : list A) (b : list B) :
  (forall u v, P (f u v)) -> Forall P (zip_with f a b).
Proof.
  intros H. unfold zip_with. apply Forall_forall. intros c Hc.
  apply in_map_iff in Hc. destruct Hc as [p [<- _]]. apply H.
Qed.

End HingeFacts.

(** X14. The triplet loss of a non-empty set of triplets is a non-negative
    number, under mean and under sum, and it is 0 exactly when every
    triplet keeps its negative beyond the margin:
    dpos^2 + margin <= dneg^2. *)
Theorem margin_loss_nonneg_zero_iff (self : Triplet.TripletLoss)
  (dpos dneg : list R) :
  dpos <> [] -> List.length dpos = List.length dneg ->
  exists v,
    Triplet.margin_loss self (T1 dpos) (T1 dneg) = Ok (Num v) /\
    (0 <= v)%R /\
    (v = 0%R <->
     forall k dp dn,
       nth_error dpos k = Some dp -> nth_error dneg k = Some dn ->
       (dp ^ 2 + Triplet.margin self <= dn ^ 2)%R).
Proof.
  intros Hne Hlen. rewrite margin_loss_T1 by assumption.
  set (h := Distances.zip_with (Ref.hinge (Triplet.margin self)) dpos dneg).
  assert (Hh : Forall (fun v => (0 <= v)%R) h)
    by (apply zip_with_Forall; intros; apply hinge_nonneg).
  assert (Hlh : List.length h = List.length dpos)
    by (apply zip_with_length; exact Hlen).
  assert (Hpos : (0 < INR (List.length h))%R).
  { apply lt_0_INR. rewrite Hlh. destruct dpos; [contradiction|simpl; lia]. }
  assert (Hall : Forall (fun v => v = 0%R) h <->
                 forall k dp dn,
                   nth_error dpos k = Some dp -> nth_error dneg k = Some dn ->
                   (dp ^ 2 + Triplet.margin self <= dn ^ 2)%R).
  { split.
    - intros HF k dp dn Hp Hn. apply hinge_zero_iff.
      rewrite Forall_forall in HF. apply HF. unfold h, Distances.zip_with.
      apply in_map_iff. exists (dp, dn). split; [reflexivity|].
      eapply nth_error_In. apply nth_error_combine. split; eassumption.
    - intros H. apply Forall_forall. intros v Hv.
      unfold h, Distances.zip_with in Hv. apply in_map_iff in Hv.
      destruct Hv as [[dp dn] [<- Hin]]. apply In_nth_error in Hin.
      destruct Hin as [k Hk]. apply nth_error_combine in Hk.
      destruct Hk as [Hp Hn]. cbn [fst snd]. apply hinge_zero_iff.
      now apply (H k). }
  pose proof (rsum_nonneg Hh) as Hs.
  pose proof (rsum_zero_iff Hh) as Hz.
  eexists. split; [reflexivity|]. unfold Ref.reduce.
  destruct (Triplet.size_average self).
  - split.
    + apply Rmult_le_pos; [exact Hs|].
      left. now apply Rinv_0_lt_compat.
    + rewrite <- Hall, <- Hz. split.
      * intros H.
        apply (Rmult_eq_reg_r (/ INR (List.length h)));
          [|apply Rinv_neq_0_compat; lra].
        rewrite Rmult_0_l. exact H.
      * intros ->. unfold Rdiv. apply Rmult_0_l.
  - split; [exact Hs|]. now rewrite <- Hall, <- Hz.
Qed.

Lemma margin_loss_nonneg_zero_iff_witness :
  let self :=
    {| Triplet.margin := 1%R;
       Triplet.distance := Distances.EuclideanDistance;
       Triplet.size_average := true; Triplet.online := true;
       Triplet.sampling := Triplet.BatchAll |} in
  exists v,
    Triplet.margin_loss self (T1 [1; 0]%R) (T1 [2; 3]%R) = Ok (Num v) /\
    v = 0%R.
Proof.
  intros self.
  destruct (@margin_loss_nonneg_zero_iff self [1; 0]%R [2; 3]%R)
    as [v [Hv [_ Hz]]]; [discriminate | reflexivity |].
  exists v. split; [exact Hv|]. apply Hz.
  intros [|[|k]] dp dn Hp Hn; simpl in Hp, Hn;
    try (destruct k; discriminate Hp);
    inversion Hp; inversion Hn; subst; cbn [Triplet.margin self]; lra.
Defined.

(** X15. Offline mode with [EuclideanDistance]: since [dist] reduces over
    the whole batch, the loss is one hinge on the summed squared distances,
    max(0, sqdist_sum(anchors, positives) - sqdist_sum(anchors, negatives)
    + margin), and [size_average] makes no difference. *)
Theorem offline_Euclidean_single_hinge (m : R) (sa : bool)
  (S : Triplet.TripletSamplingStrategy) (L : Type)
  (anchors positives negatives : batch) (logits : L) (y : list Z)
  (sp sn : R) :
  let self := {| Triplet.margin := m;
                 Triplet.distance := Distances.EuclideanDistance;
                 Triplet.size_average := sa; Triplet.online := false;
                 Triplet.sampling := S |} in
  Distances.sqdist_sum Distances.EuclideanDistance anchors positives
  = Ok sp ->
  Distances.sqdist_sum Distances.EuclideanDistance anchors negatives
  = Ok sn ->
  Triplet.forward self (anchors, positives, negatives) logits y
  = Ok (Num (Rmax 0 (sp - sn + m))).
Proof.
  intros self Hp Hn. cbn [Distances.sqdist_sum Distances.EuclideanDistance]
    in Hp, Hn.
  destruct (Euclidean_sqdist_dist anchors positives)
    as [[sp' [Hsp [Hdp [_ Hqp]]]]|[Hsp _]]; [|congruence].
  destruct (Euclidean_sqdist_dist anchors negatives)
    as [[sn' [Hsn [Hdn [_ Hqn]]]]|[Hsn _]]; [|congruence].
  assert (sp' = sp) by congruence. assert (sn' = sn) by congruence.
  subst sp' sn'.
  unfold Triplet.forward.
  cbn [Triplet.online Triplet.distance self fst snd Distances.dist
       Distances.EuclideanDistance].
  rewrite Hdp, Hdn. cbn [bind fst snd].
  unfold Triplet.margin_loss, Triplet.torch_pow, Triplet.tensor_sub,
    Triplet.relu, Triplet.tensor_map.
  cbn [bind Triplet.margin Triplet.size_average self].
  replace (sqrt sp ^ 2)%R with sp by (simpl; rewrite Rmult_1_r; lra).
  replace (sqrt sn ^ 2)%R with sn by (simpl; rewrite Rmult_1_r; lra).
  destruct sa; reflexivity.
Qed.

Lemma offline_Euclidean_single_hinge_witness :
  let self sa :=
    {| Triplet.margin := 2%R;
       Triplet.distance := Distances.EuclideanDistance;
       Triplet.size_average := sa; Triplet.online := false;
       Triplet.sampling := Triplet.BatchAll |} in
  let a : batch := [[0]; [0]]%R in
  let p : batch := [[3]; [4]]%R in
  exists sp sn,
    Triplet.forward (self true) (a, p, a) tt [] = Ok (Num (Rmax 0 (sp - sn + 2)))
    /\
    Triplet.forward (self false) (a, p, a) tt []
    = Ok (Num (Rmax 0 (sp - sn + 2))).
Proof.
  intros self a p. eexists. eexists. split.
  - apply (@offline_Euclidean_single_hinge 2%R true Triplet.BatchAll unit
             a p a tt []); reflexivity.
  - apply (@offline_Euclidean_single_hinge 2%R false Triplet.BatchAll unit
             a p a tt []); reflexivity.
Defined.

(** X16. [SemiHardNegative] only overrides [filter]: as the sampling
    strategy of an online [TripletLoss] it makes [forward] raise
    [NotImplementedError] on every batch whose pairwise distances could be
    computed. *)
Theorem online_SemiHardNegative_raises (m mm dev : R)
  (D : Distances.Distance) (sa : bool) (L : Type) (x : batch) (logits : L)
  (y : list Z) (d : list R) :
  let self := {| Triplet.margin := m; Triplet.distance := D;
                 Triplet.size_average := sa; Triplet.online := true;
                 Triplet.sampling := Triplet.SemiHardNegative mm dev |} in
  Distances.pdist D x = Ok d ->
  Triplet.forward self x logits y = Err NotImplementedError.
Proof.
  intros self Hd. unfold Triplet.forward, Triplet._calculate_distances.
  cbn [Triplet.online Triplet.distance Triplet.sampling self].
  rewrite Hd. reflexivity.
Qed.

Lemma online_SemiHardNegative_raises_witness :
  Triplet.forward
    {| Triplet.margin := 2%R;
       Triplet.distance := Distances.EuclideanDistance;
       Triplet.size_average := true; Triplet.online := true;
       Triplet.sampling := Triplet.SemiHardNegative 1 1 |}
    ([[0]; [1]; [5]]%R : batch) tt [0; 0; 1]%Z
  = Err NotImplementedError.
Proof.
  apply (@online_SemiHardNegative_raises 2%R 1%R 1%R
           Distances.EuclideanDistance true unit [[0]; [1]; [5]]%R tt
           [0; 0; 1]%Z (Distances.torch_pdist [[0]; [1]; [5]]%R)).
  reflexivity.
Defined.

(** X17. The loss that [TripletConfig] builds does not depend on the
    sampling strategy it was given: the strategy object is passed in the
    place of [size_average], so every such loss is the online [BatchAll]
    loss with mean reduction, on a batch of n >= 2 labelled rows the mean
    hinge over all its triplets. *)
Theorem TripletConfig_ignores_sampling (m : R)
  (S1 S2 : Triplet.TripletSamplingStrategy) (L : Type) (x : batch)
  (logits : L) (y : list Z) :
  (forall D,
      Triplet.forward (Config.TripletConfig_loss m D S1) x logits y
      = Triplet.forward (Config.TripletConfig_loss m D S2) x logits y) /\
  ((2 <= List.length x)%nat -> List.length y = List.length x ->
   Triplet.BatchAll_loop y <> [] ->
   Triplet.forward
     (Config.TripletConfig_loss m Distances.EuclideanDistance S1)
     x logits y
   = Ok (Num (Ref.reduce true
                (RefMore.triplet_hinges m Distances.l2_row x
                   (Triplet.BatchAll_loop y))))).
Proof.
  split; [reflexivity|].
  intros Hn Hlen Hne.
  apply (online_BatchAll_generic Distances.l2_row
           Distances.EuclideanDistance m true x logits y l2_row_sym);
    [|exact Hlen|exact Hne].
  cbn. unfold Distances.EuclideanDistance_pdist.
  now rewrite torch_pdist_pairs_rec.
Qed.

Lemma TripletConfig_ignores_sampling_witness :
  Triplet.forward
    (Config.TripletConfig_loss 1 Distances.EuclideanDistance
       Triplet.HardestNegative)
    ([[0]; [3]; [7]]%R : batch) tt [5; 5; 6]%Z
  = Ok (Num (Ref.reduce true
               (RefMore.triplet_hinges 1 Distances.l2_row
                  [[0]; [3]; [7]]%R [(0, 1, 2); (1, 0, 2)]%nat))).
Proof.
  apply (proj2 (@TripletConfig_ignores_sampling 1%R Triplet.HardestNegative
                  Triplet.HardestNegative unit [[0]; [3]; [7]]%R tt
                  [5; 5; 6]%Z));
    [simpl; lia | reflexivity | discriminate].
Defined.

(** *** ArcLoss: labels, shapes and the value of the loss *)

Section ArcLossErrors.
Import Distances ArcFace Ref.
Local Open Scope R_scope.

Lemma mapM_err {A B : Type} (f : A -> result B) (l : list A) (e0 : error) :
  (forall a e, f a = Err e -> e = e0) ->
  (exists a e, In a l /\ f a = Err e) ->
  mapM f l = Err e0.
Proof.
  intros Hall. induction l as [|a t IH]; intros [b [e [Hin Hb]]].
  - contradiction.
  - cbn [mapM]. destruct (f a) as [v|e'] eqn:Ef.
    + cbn [bind]. destruct Hin as [->|Hin]; [congruence|].
      rewrite IH by (exists b, e; split; assumption). reflexivity.
    + cbn [bind]. now rewrite (Hall a e' Ef).
Qed.

Lemma row_get_err {A : Type} (r : list A) (k : Z) (e : error) :
  row_get r k = Err e -> e = RuntimeError.
Proof.
  unfold row_get. destruct (k <? 0)%Z; [intros H; now inversion H|].
  destruct (nth_error r (Z.to_nat k)); [discriminate|].
  intros H; now inversion H.
Qed.

Lemma cos_theta_j_length (self : ArcLoss) (x : batch) :
  List.length (cos_theta_j self x) = List.length x.
Proof. unfold cos_theta_j, mm, normalize. now rewrite !length_map. Qed.

Lemma cos_theta_j_row_length (self : ArcLoss) (x : batch) (i : nat)
  (r : row) :
  nth_error (cos_theta_j self x) i = Some r -> List.length r = nclass self.
Proof.
  unfold cos_theta_j, mm. intros H. apply nth_error_In in H.
  apply in_map_iff in H. destruct H as [v [<- _]].
  now rewrite length_map, length_seq.
Qed.

Lemma gather_length (m : batch) (y : list Z) (cs : list R) :
  gather m y = Ok cs ->
  (List.length y <= List.length m)%nat /\ List.length cs = List.length y.
Proof.
  unfold gather.
  destruct (Nat.leb_spec (List.length y) (List.length m)) as [Hle|Hgt];
    [|discriminate].
  intros Hm. destruct (mapM_nth _ _ Hm) as [Hl _]. split; [assumption|].
  rewrite Hl, length_combine. lia.
Qed.

Lemma scatter_length (m : batch) (y : list Z) (v : R) (oh : batch) :
  scatter m y v = Ok oh -> List.length oh = List.length m.
Proof.
  unfold scatter.
  destruct (Nat.leb_spec (List.length y) (List.length m)) as [Hle|Hgt];
    [|discriminate].
  destruct (mapM (fun p : row * Z => row_set (fst p) (snd p) v)
              (combine m y)) as [top|e] eqn:E; [|discriminate].
  cbn [bind]. intros Hm. inversion Hm; subst.
  destruct (mapM_nth _ _ E) as [Hl _].
  rewrite length_app, Hl, length_combine, length_skipn. lia.
Qed.

End ArcLossErrors.

(** X18. [ArcLoss.forward] raises [RuntimeError] as soon as one label is
    not a class index: negative, or [nclass] or more. *)
Theorem ArcLoss_forward_rejects_label (self : ArcFace.ArcLoss) (x : batch)
  (y : list Z) (i : nat) (k : Z) :
  nth_error y i = Some k ->
  (k < 0 \/ Z.of_nat (ArcFace.nclass self) <= k)%Z ->
  ArcFace.forward self x y = Err RuntimeError.
Proof.
  intros Hi Hk. unfold ArcFace.forward, ArcFace.margin_logits,
    ArcFace.cos_theta_yi, ArcFace.gather.
  destruct (Nat.leb_spec (List.length y)
              (List.length (ArcFace.cos_theta_j self x))) as [Hle|Hgt];
    [|reflexivity].
  rewrite (@mapM_err _ _ _ _ RuntimeError); [reflexivity| |].
  - intros [r k'] e. apply row_get_err.
  - destruct (nth_error (ArcFace.cos_theta_j self x) i) as [r|] eqn:Er.
    2:{ apply nth_error_None in Er.
        assert (i < List.length y)%nat by (apply nth_error_Some; congruence).
        lia. }
    exists (r, k), RuntimeError. split.
    + eapply nth_error_In. apply nth_error_combine. split; eassumption.
    + cbn [fst snd]. unfold ArcFace.row_get.
      destruct (Z.ltb_spec k 0) as [L|L]; [reflexivity|].
      destruct (nth_error r (Z.to_nat k)) eqn:En; [|reflexivity].
      exfalso.
      assert (Z.to_nat k < List.length r)%nat
        by (apply nth_error_Some; congruence).
      pose proof (cos_theta_j_row_length _ _ _ Er). lia.
Qed.

Lemma ArcLoss_forward_rejects_label_witness :
  ArcFace.forward
    {| ArcFace.nclass := 2; ArcFace.margin := 0%R; ArcFace.s := 1%R;
       ArcFace.W := [[1; 0]; [0; 1]]%R |}
    [[3; 4]; [1; 1]]%R [0; 2]%Z
  = Err RuntimeError.
Proof.
  apply (@ArcLoss_forward_rejects_label _ _ [0; 2]%Z 1%nat 2%Z);
    [reflexivity|]. right. simpl. lia.
Defined.

(** X19. [ArcLoss.forward] fails whenever the number of labels differs from
    the number of feature rows: no batch is silently truncated or
    broadcast. *)
Theorem ArcLoss_forward_rejects_length_mismatch (self : ArcFace.ArcLoss)
  (x : batch) (y : list Z) :
  List.length y <> List.length x ->
  exists e, ArcFace.forward self x y = Err e.
Proof.
  intros Hne. unfold ArcFace.forward, ArcFace.margin_logits,
    ArcFace.cos_theta_yi_margin.
  pose proof (cos_theta_j_length self x) as Hlj.
  set (cj := ArcFace.cos_theta_j self x) in *.
  unfold ArcFace.cos_theta_yi. fold cj.
  destruct (ArcFace.gather cj y) as [cs|e] eqn:Eg;
    [|eexists; reflexivity].
  destruct (gather_length _ _ Eg) as [Hle Hcs]. cbn [bind].
  destruct (ArcFace.scatter (ArcFace.zeros_like cj) y 1) as [oh|e] eqn:Es;
    [|eexists; reflexivity].
  apply scatter_length in Es. unfold ArcFace.zeros_like in Es.
  rewrite length_map in Es. cbn [bind].
  match goal with
  | |- context [broadcast2 ?f oh ?d] =>
      set (diff := d);
      assert (Hd : List.length diff = List.length y)
  end.
  { unfold diff. rewrite zip_with_length; rewrite length_map; lia. }
  unfold broadcast2. unfold batch, row in *.
  destruct (Nat.eqb_spec (List.length oh) (List.length diff)) as [E|E];
    [lia|].
  destruct oh as [|o1 [|o2 oh']]; cbn [List.length] in Es.
  - exfalso. lia.
  - (* one row of features *)
    assert (List.length y = 0%nat) by lia.
    destruct diff as [|d1 diff']; [|cbn [List.length] in Hd; lia].
    cbn [map bind]. unfold ArcFace.iadd.
    rewrite length_map. rewrite <- Es. cbn [List.length Nat.eqb].
    eexists. reflexivity.
  - destruct diff as [|d1 [|d2 diff']];
      [eexists; reflexivity| |eexists; reflexivity].
    (* one label, several rows *)
    cbn [bind]. unfold ArcFace.iadd.
    rewrite !length_map. rewrite <- Es, Nat.eqb_refl. cbn [bind].
    unfold ArcFace.CrossEntropyLoss. rewrite !length_map.
    unfold Distances.zip_with. rewrite length_map, length_combine.
    rewrite !length_map. rewrite <- Es, Nat.min_id.
    cbn [List.length] in Hd.
    match goal with
    | |- context [if ?c then _ else _] => destruct c eqn:Ec
    end; [|eexists; reflexivity].
    apply Nat.eqb_eq in Ec. cbn [List.length] in Ec. lia.
Qed.

Lemma ArcLoss_forward_rejects_length_mismatch_witness :
  exists e,
    ArcFace.forward
      {| ArcFace.nclass := 2; ArcFace.margin := 0%R; ArcFace.s := 1%R;
         ArcFace.W := [[1; 0]; [0; 1]]%R |}
      [[3; 4]; [1; 1]]%R [0]%Z
    = Err e.
Proof.
  apply ArcLoss_forward_rejects_length_mismatch. simpl. lia.
Defined.

Section ArcLossValue.
Import Distances ArcFace Ref.
Local Open Scope R_scope.

Lemma vsum_Num (l : list R) : vsum (map Num l) = Num (rsum l).
Proof.
  unfold vsum, rsum. induction l as [|v t IH]; [reflexivity|].
  cbn [map fold_right]. now rewrite IH.
Qed.

Lemma rsum_exp_pos (r : list R) : 0 <= rsum (map exp r).
Proof.
  apply rsum_nonneg. apply Forall_forall. intros v Hv.
  apply in_map_iff in Hv. destruct Hv as [z [<- _]].
  left. apply exp_pos.
Qed.

Lemma rsum_exp_ge (r : list R) (j : nat) (z : R) :
  nth_error r j = Some z -> exp z <= rsum (map exp r).
Proof.
  revert j. induction r as [|v t IH]; intros [|j] H; try discriminate.
  - inversion H; subst. pose proof (rsum_exp_pos t). unfold rsum in *.
    cbn [map fold_right]. lra.
  - simpl in H. specialize (IH j H). pose proof (exp_pos v).
    unfold rsum in *. cbn [map fold_right]. lra.
Qed.

(** The cross-entropy of one row of real logits at a class of the row is a
    non-negative real. *)
Lemma nll_row_nonneg (r : list R) (j : nat) (z : R) :
  nth_error r j = Some z -> 0 <= ln (rsum (map exp r)) - z.
Proof.
  intros H. pose proof (rsum_exp_ge _ _ H) as Hge.
  pose proof (exp_pos z) as Hz.
  destruct (Rle_lt_or_eq_dec _ _ Hge) as [L|E].
  - pose proof (ln_increasing _ _ Hz L) as Hl. rewrite ln_exp in Hl. lra.
  - rewrite <- E, ln_exp. lra.
Qed.

Lemma CrossEntropyLoss_real (rows : list (list R)) (y : list Z) :
  rows <> [] ->
  Forall2 (fun r k => (0 <= k)%Z /\ (Z.to_nat k < List.length r)%nat)
          rows y ->
  exists v, CrossEntropyLoss (map (map Num) rows) y = Ok (Num v) /\ 0 <= v.
Proof.
  intros Hne HF. unfold CrossEntropyLoss.
  rewrite length_map, (Forall2_length HF), Nat.eqb_refl.
  assert (Ht : exists tl,
             mapM (fun p : list value * Z =>
                     match row_get (fst p) (snd p) with
                     | Ok v =>
                         Ok (vsub (vlift1 ln
                                     (vsum (map (vlift1 exp) (fst p)))) v)
                     | Err _ => Err IndexError
                     end)
                  (List.filter (fun p : list value * Z =>
                                  negb (snd p =? -100)%Z)
                     (combine (map (map Num) rows) y))
             = Ok (map Num tl) /\
             List.length tl = List.length rows /\
             Forall (fun t => 0 <= t) tl).
  { clear Hne. induction HF as [|r k rows' y' [Hk Hlt] HF IH].
    - exists []. split; [reflexivity|]. split; [reflexivity|constructor].
    - destruct IH as [tl [Hm [Hl Hnn]]].
      cbn [map combine List.filter snd].
      destruct (Z.eqb_spec k (-100)) as [E|E]; [lia|]. cbn [negb mapM fst snd].
      destruct (nth_error r (Z.to_nat k)) as [z|] eqn:Ez;
        [|apply nth_error_None in Ez; lia].
      assert (Hg : row_get (map Num r) k = Ok (Num z)).
      { apply row_get_ok. split; [exact Hk|].
        now rewrite nth_error_map, Ez. }
      rewrite Hg, Hm. cbn [bind].
      rewrite map_map.
      rewrite (map_ext (fun x => vlift1 exp (Num x)) (fun x => Num (exp x)))
        by reflexivity.
      rewrite <- (map_map exp Num), vsum_Num.
      exists ((ln (rsum (map exp r)) - z) :: tl).
      split; [reflexivity|]. split; [simpl; now rewrite Hl|].
      constructor; [|exact Hnn]. eapply nll_row_nonneg. exact Ez. }
  destruct Ht as [tl [Hm [Hl Hnn]]]. rewrite Hm. cbn [bind].
  destruct tl as [|t0 tl'] eqn:Etl.
  - exfalso. destruct rows; [contradiction|discriminate Hl].
  - rewrite <- Etl in *. unfold vmean.
    assert (Hmap : map Num tl <> []) by (rewrite Etl; discriminate).
    destruct (map Num tl) as [|a b] eqn:Em; [contradiction|].
    rewrite <- Em, vsum_Num. cbn [vlift1].
    eexists. split; [reflexivity|].
    apply Rmult_le_pos; [now apply rsum_nonneg|].
    left. apply Rinv_0_lt_compat. apply lt_0_INR.
    rewrite length_map, Etl. simpl. lia.
Qed.

End ArcLossValue.

Section ArcLossForwardValue.
Import Distances ArcFace Ref.
Local Open Scope R_scope.

Lemma Forall2_map_same {A B C : Type} (P : B -> C -> Prop) (g : A -> B)
  (h : A -> C) (l : list A) :
  Forall (fun a => P (g a) (h a)) l -> Forall2 P (map g l) (map h l).
Proof. induction 1; constructor; assumption. Qed.

End ArcLossForwardValue.

(** X20. On a non-empty batch with one valid label per row and every target
    cosine inside [-1, 1], [ArcLoss.forward] returns a real number, and it
    is non-negative. *)
Theorem ArcLoss_forward_nonneg (self : ArcFace.ArcLoss) (x : batch)
  (y : list Z) (cs : list R) :
  x <> [] -> List.length y = List.length x ->
  ArcFace.cos_theta_yi self x y = Ok cs ->
  Forall (fun c => (-1 <= c <= 1)%R) cs ->
  exists v, ArcFace.forward self x y = Ok (Num v) /\ (0 <= v)%R.
Proof.
  intros Hne Hlen Hcs Hr.
  unfold ArcFace.forward.
  rewrite (margin_logits_rows self x y Hlen Hcs Hr). cbn [bind].
  pose proof (cos_theta_j_length self x) as Hlj.
  assert (Hg := Hcs). unfold ArcFace.cos_theta_yi, ArcFace.gather in Hg.
  rewrite Hlj, Hlen, Nat.leb_refl in Hg.
  destruct (gather_rows _ Hg) as [_ Hv].
  set (ps := combine (ArcFace.cos_theta_j self x) y) in *.
  rewrite map_map.
  set (G := fun p : row * Z =>
              map (fun q : nat * R =>
                     (ArcFace.s self
                      * (snd q
                         + (if (fst q =? Z.to_nat (snd p))%nat
                            then 1 else 0)
                           * (cos (acos (nth (Z.to_nat (snd p)) (fst p) 0)
                                   + ArcFace.margin self)
                              - nth (Z.to_nat (snd p)) (fst p) 0)))%R)
                  (combine (seq 0 (List.length (fst p))) (fst p))).
  rewrite (map_ext _ (fun p => map Num (G p))).
  2:{ intros p. unfold Ref.injected_row, G. rewrite !map_map.
      apply map_ext. intros q. reflexivity. }
  rewrite <- (map_map G (map Num)).
  assert (Hy : y = map snd ps).
  { unfold ps. symmetry. apply combine_map_snd. lia. }
  match goal with
  | |- exists v, ArcFace.CrossEntropyLoss ?M _ = _ /\ _ =>
      cut (exists v, ArcFace.CrossEntropyLoss M (map snd ps) = Ok (Num v)
                     /\ (0 <= v)%R);
      [rewrite <- Hy; trivial|]
  end.
  apply CrossEntropyLoss_real.
  - unfold ps. destruct x as [|r0 x']; [contradiction|].
    destruct y as [|k0 y']; [discriminate Hlen|].
    destruct (ArcFace.cos_theta_j self (r0 :: x')) eqn:E;
      [discriminate Hlj|]. discriminate.
  - apply Forall2_map_same. eapply Forall_impl; [|exact Hv].
    intros [r k] [Hk Hlt]. cbn [fst snd] in *. split; [exact Hk|].
    unfold G. cbn [fst snd].
    rewrite length_map, length_combine, length_seq. lia.
Qed.

Lemma ArcLoss_forward_nonneg_witness :
  exists v,
    ArcFace.forward
      {| ArcFace.nclass := 2; ArcFace.margin := (35 / 100)%R;
         ArcFace.s := 4%R; ArcFace.W := [[1; 0]; [0; 1]]%R |}
      [[3; 4]]%R [0%Z] = Ok (Num v) /\ (0 <= v)%R.
Proof.
  apply (@ArcLoss_forward_nonneg _ [[3; 4]]%R [0%Z] [(3 / 5)%R]).
  - discriminate.
  - reflexivity.
  - unfold ArcFace.cos_theta_yi.
    rewrite cos_theta_j_identity_centres. reflexivity.
  - constructor; [lra|constructor].
Defined.

(** *** How large a cosine of [ArcLoss] can get *)

Section CosineBound.
Import Distances ArcFace.
Local Open Scope R_scope.

Lemma eps_norm_pos : 0 < eps_norm.
Proof.
  unfold eps_norm. apply Rinv_0_lt_compat. apply pow_lt. lra.
Qed.

Lemma dot_scaled (v : row) (M : R) :
  M <> 0 ->
  dot (map (fun a => a / M) v) (map (fun a => a / M) v) = dot v v / (M * M).
Proof.
  intros HM. induction v as [|a t IH].
  - unfold dot. simpl. unfold Rdiv. ring.
  - cbn [map]. rewrite !dot_cons, IH. field. exact HM.
Qed.

Lemma entry_sq_le_dot (w : row) (c : nat) :
  nth c w 0 * nth c w 0 <= dot w w.
Proof.
  revert c. induction w as [|a t IH]; intros c.
  - destruct c; change (dot [] []) with 0; simpl; lra.
  - rewrite dot_cons. pose proof (dot_self_nonneg t).
    destruct c as [|c]; cbn [nth].
    + pose proof (Rle_0_sqr a) as Ha. unfold Rsqr in Ha. lra.
    + specialize (IH c). pose proof (Rle_0_sqr a) as Ha. unfold Rsqr in Ha.
      lra.
Qed.

(** A row after [F.normalize]: squared norm at most 1, and so is the square
    of each entry. *)
Lemma normalized_row (v : row) :
  let M := Rmax (norm2 v) eps_norm in
  0 < M /\ dot v v <= M * M.
Proof.
  cbv zeta.
  pose proof (Rmax_l (norm2 v) eps_norm). pose proof (Rmax_r (norm2 v) eps_norm).
  pose proof eps_norm_pos. pose proof (norm2_nonneg v).
  split; [lra|]. rewrite <- norm2_sqr.
  apply Rmult_le_compat; lra.
Qed.

Lemma normalized_dot_le_1 (v : row) :
  dot (map (fun a => a / Rmax (norm2 v) eps_norm) v)
      (map (fun a => a / Rmax (norm2 v) eps_norm) v) <= 1.
Proof.
  destruct (normalized_row v) as [HM Hd]. cbv zeta in *.
  rewrite dot_scaled by lra.
  apply (Rmult_le_reg_r (Rmax (norm2 v) eps_norm * Rmax (norm2 v) eps_norm)).
  - apply Rmult_lt_0_compat; assumption.
  - unfold Rdiv. rewrite Rmult_assoc, Rinv_l, Rmult_1_r, Rmult_1_l;
      [exact Hd|].
    apply Rmult_integral_contrapositive_currified; lra.
Qed.

Lemma normalized_entry_le_1 (v : row) (c : nat) :
  let e := nth c (map (fun a => a / Rmax (norm2 v) eps_norm) v) 0 in
  e * e <= 1.
Proof.
  cbv zeta.
  pose proof (entry_sq_le_dot
                (map (fun a => a / Rmax (norm2 v) eps_norm) v) c).
  pose proof (normalized_dot_le_1 v). lra.
Qed.

Lemma dot_le_length (l : row) :
  Forall (fun e => e * e <= 1) l -> dot l l <= INR (List.length l).
Proof.
  induction 1 as [|e t He Ht IH].
  - change (dot [] []) with 0. simpl. lra.
  - rewrite dot_cons. cbn [List.length]. rewrite S_INR. lra.
Qed.

End CosineBound.

(** X21. Every entry of the cosine matrix of [ArcLoss] has a square of at
    most the number of feature rows of W (|cosine| <= sqrt(nfeat)):
    [F.normalize(self.W)] scales the rows of W, so a column need not have
    unit length, and the entries are not confined to [-1, 1]. *)
Theorem cos_theta_j_bound (self : ArcFace.ArcLoss) (x : batch) (i c : nat)
  (r : row) (v : R) :
  nth_error (ArcFace.cos_theta_j self x) i = Some r ->
  nth_error r c = Some v ->
  (v * v <= INR (List.length (ArcFace.W self)))%R.
Proof.
  unfold ArcFace.cos_theta_j, ArcFace.mm. intros Hr Hv.
  rewrite nth_error_map in Hr.
  destruct (nth_error (ArcFace.normalize x) i) as [xn|] eqn:Ex;
    [|discriminate].
  cbn [option_map] in Hr. inversion Hr; subst r. clear Hr.
  rewrite nth_error_map in Hv.
  destruct (nth_error (seq 0 (ArcFace.nclass self)) c) as [c'|];
    [|discriminate].
  cbn [option_map] in Hv. inversion Hv; subst v. clear Hv.
  set (col := ArcFace.column c' (ArcFace.normalize (ArcFace.W self))).
  pose proof (cauchy_schwarz xn col) as HCS.
  assert (Hx : (Distances.dot xn xn <= 1)%R).
  { unfold ArcFace.normalize in Ex. rewrite nth_error_map in Ex.
    destruct (nth_error x i) as [xi|]; [|discriminate].
    cbn [option_map] in Ex. inversion Ex. apply normalized_dot_le_1. }
  assert (Hc : (Distances.dot col col
                <= INR (List.length (ArcFace.W self)))%R).
  { replace (List.length (ArcFace.W self)) with (List.length col)
      by (unfold col, ArcFace.column, ArcFace.normalize;
          now rewrite !length_map).
    apply dot_le_length. unfold col, ArcFace.column, ArcFace.normalize.
    rewrite map_map. apply Forall_forall. intros e He.
    apply in_map_iff in He. destruct He as [w [<- _]].
    apply normalized_entry_le_1. }
  pose proof (dot_self_nonneg xn). pose proof (dot_self_nonneg col).
  apply (Rle_trans _ _ _ HCS).
  replace (INR (List.length (ArcFace.W self)))
    with (1 * INR (List.length (ArcFace.W self)))%R by ring.
  apply Rmult_le_compat; assumption.
Qed.

Lemma cos_theta_j_bound_witness :
  let self := {| ArcFace.nclass := 1; ArcFace.margin := 0%R;
                 ArcFace.s := 1%R; ArcFace.W := [[1]; [1]]%R |} in
  (7 / 5 * (7 / 5) <= INR 2)%R.
Proof.
  intros self.
  apply (@cos_theta_j_bound self [[3; 4]]%R 0%nat 0%nat [(7 / 5)%R]
           (7 / 5)%R).
  - unfold self. rewrite cos_theta_j_above_one. reflexivity.
  - reflexivity.
Defined.

(** *** The Spearman metrics *)

Section SpearmanFacts.
Import Distances Metrics.
Local Open Scope R_scope.

Lemma mapM_ext_in {A B : Type} (f g : A -> result B) (l : list A) :
  (forall a, In a l -> f a = g a) -> mapM f l = mapM g l.
Proof.
  induction l as [|a t IH]; intros H; [reflexivity|].
  cbn [mapM]. rewrite (H a (or_introl eq_refl)).
  rewrite IH by (intros b Hb; apply H; now right). reflexivity.
Qed.

(** A loop over [range(len(a))] that starts by fetching [a[i]] is a loop
    over the elements. *)
Lemma mapM_index_seq {A B : Type} (f : A -> result B) (a : list A) :
  mapM (fun i => r <- index a i ;; f r) (seq 0 (List.length a)) = mapM f a.
Proof.
  assert (G : forall pre l,
             mapM (fun i => r <- index (pre ++ l) i ;; f r)
                  (seq (List.length pre) (List.length l)) = mapM f l).
  { intros pre l. revert pre. induction l as [|x t IH]; intros pre.
    - reflexivity.
    - cbn [List.length seq mapM]. unfold index at 1.
      rewrite nth_error_app2 by lia. rewrite Nat.sub_diag. cbn [nth_error bind].
      specialize (IH (pre ++ [x])).
      rewrite <- app_assoc in IH. cbn [app] in IH.
      rewrite length_app in IH. cbn [List.length] in IH.
      rewrite Nat.add_1_r in IH. rewrite IH. reflexivity. }
  exact (G [] a).
Qed.

(** The same with two arrays read at the same position. *)
Lemma mapM_index_seq2 {A B C : Type} (f : A -> B -> result C)
  (a : list A) (b : list B) :
  (List.length a <= List.length b)%nat ->
  mapM (fun i => u <- index a i ;; v <- index b i ;; f u v)
       (seq 0 (List.length a))
  = mapM (fun p => f (fst p) (snd p)) (combine a b).
Proof.
  assert (G : forall pa pb la lb,
             List.length pa = List.length pb ->
             (List.length la <= List.length lb)%nat ->
             mapM (fun i => u <- index (pa ++ la) i ;;
                            v <- index (pb ++ lb) i ;; f u v)
                  (seq (List.length pa) (List.length la))
             = mapM (fun p => f (fst p) (snd p)) (combine la lb)).
  { intros pa pb la. revert pa pb.
    induction la as [|x t IH]; intros pa pb lb Hp Hl.
    - reflexivity.
    - destruct lb as [|z lb]; [simpl in Hl; lia|].
      cbn [List.length seq mapM combine fst snd]. unfold index at 1 2.
      rewrite nth_error_app2 by lia. rewrite Nat.sub_diag.
      cbn [nth_error bind].
      rewrite Hp at 1. rewrite nth_error_app2 by lia. rewrite Nat.sub_diag.
      cbn [nth_error bind].
      specialize (IH (pa ++ [x]) (pb ++ [z]) lb).
      rewrite <- !app_assoc in IH. cbn [app] in IH.
      rewrite !length_app in IH. cbn [List.length] in IH.
      rewrite Nat.add_1_r in IH. rewrite IH; [reflexivity|lia|].
      simpl in Hl. lia. }
  intros H. exact (G [] [] a b eq_refl H).
Qed.

Lemma row_score_short (r : row) :
  (List.length r < 6)%nat -> LogitsSpearman.row_score r = Err IndexError.
Proof.
  intros H.
  destruct r as [|a0 [|a1 [|a2 [|a3 [|a4 [|a5 r]]]]]];
    try reflexivity. simpl in H. lia.
Qed.

Lemma row_score_long (l : row) :
  (6 <= List.length l)%nat ->
  LogitsSpearman.row_score (map exp l) = Ok (RefEval.expected_score l).
Proof.
  intros H.
  destruct l as [|a0 [|a1 [|a2 [|a3 [|a4 [|a5 r]]]]]];
    try (simpl in H; lia).
  unfold LogitsSpearman.row_score, RefEval.expected_score, index, rsum.
  cbn [map nth_error bind seq nth fold_right INR]. f_equal. ring.
Qed.

Lemma expected_score_range (l : row) :
  (6 <= List.length l)%nat -> rsum (map exp l) = 1 ->
  0 < RefEval.expected_score l < 5.
Proof.
  intros H Hs.
  destruct l as [|a0 [|a1 [|a2 [|a3 [|a4 [|a5 r]]]]]];
    try (simpl in H; lia).
  unfold RefEval.expected_score, rsum in *.
  cbn [map seq nth fold_right INR] in *.
  fold (rsum (map exp r)) in Hs. pose proof (rsum_exp_pos r).
  pose proof (exp_pos a0). pose proof (exp_pos a1). pose proof (exp_pos a2).
  pose proof (exp_pos a3). pose proof (exp_pos a4). pose proof (exp_pos a5).
  split; lra.
Qed.

Lemma calculate_batch_rows (self : LogitsSpearman.LogitsSpearmanMetric)
  (logits : batch) (y : list R) :
  LogitsSpearman.calculate_batch self logits y
  = (ps <- mapM (fun l => LogitsSpearman.row_score (map exp l)) logits ;;
     Ok {| LogitsSpearman.predictions := LogitsSpearman.predictions self ++ ps;
           LogitsSpearman.targets := LogitsSpearman.targets self ++ y |}).
Proof.
  unfold LogitsSpearman.calculate_batch. cbv zeta.
  change (LogitsSpearman.predicted (map (map exp) logits))
    with (fun i => r <- index (map (map exp) logits) i ;;
                   LogitsSpearman.row_score r).
  rewrite mapM_index_seq, mapM_map. reflexivity.
Qed.

End SpearmanFacts.

(** X22. [LogitsSpearmanMetric.calculate_batch] on log-probabilities: when
    every row of the logits has at least six columns and its exponentials
    sum to 1, the call appends one prediction per row, the expected score
    sum of k * exp(logit_k) over k = 0..5, which lies strictly between 0
    and 5, and appends the targets. *)
Theorem LogitsSpearman_predictions_in_range
  (self : Metrics.LogitsSpearman.LogitsSpearmanMetric)
  (logits : batch) (y : list R) :
  Forall (fun l => (6 <= List.length l)%nat
                   /\ Distances.rsum (map exp l) = 1%R) logits ->
  Metrics.LogitsSpearman.calculate_batch self logits y
  = Ok {| Metrics.LogitsSpearman.predictions :=
            Metrics.LogitsSpearman.predictions self
            ++ map RefEval.expected_score logits;
          Metrics.LogitsSpearman.targets :=
            Metrics.LogitsSpearman.targets self ++ y |}
  /\ Forall (fun p => (0 < p < 5)%R) (map RefEval.expected_score logits).
Proof.
  intros H. rewrite Forall_forall in H. split.
  - rewrite calculate_batch_rows.
    rewrite (@mapM_ok_map _ _ (fun l => Metrics.LogitsSpearman.row_score (map exp l))
               RefEval.expected_score logits).
    + reflexivity.
    + intros l Hl. apply row_score_long. now apply H.
  - apply Forall_forall. intros p Hp. apply in_map_iff in Hp.
    destruct Hp as [l [<- Hl]]. destruct (H l Hl).
    now apply expected_score_range.
Qed.

Lemma LogitsSpearman_predictions_in_range_witness :
  let l := [ln (/ 6); ln (/ 6); ln (/ 6); ln (/ 6); ln (/ 6); ln (/ 6)]%R in
  Metrics.LogitsSpearman.calculate_batch Metrics.LogitsSpearman.init [l] [3%R]
  = Ok {| Metrics.LogitsSpearman.predictions := [RefEval.expected_score l];
          Metrics.LogitsSpearman.targets := [3%R] |}
  /\ Forall (fun p => (0 < p < 5)%R) [RefEval.expected_score l].
Proof.
  intros l.
  apply (@LogitsSpearman_predictions_in_range Metrics.LogitsSpearman.init
           [l] [3%R]).
  constructor; [|constructor]. split; [simpl; lia|].
  unfold l, Distances.rsum. cbn [map fold_right].
  rewrite exp_ln by lra. lra.
Defined.

(** X23. [LogitsSpearmanMetric.calculate_batch] raises [IndexError] exactly
    when some row of the logits has fewer than six columns: rows of more
    than six columns are accepted. *)
Theorem LogitsSpearman_needs_six_columns
  (self : Metrics.LogitsSpearman.LogitsSpearmanMetric)
  (logits : batch) (y : list R) :
  Metrics.LogitsSpearman.calculate_batch self logits y = Err IndexError
  <-> Exists (fun l => (List.length l < 6)%nat) logits.
Proof.
  rewrite calculate_batch_rows. split.
  - intros H. apply Exists_exists.
    destruct (Forall_Exists_dec (fun l : row => (6 <= List.length l)%nat)
                (fun l => le_dec 6 (List.length l)) logits) as [Hall|Hex].
    + rewrite (@mapM_ok_map _ _ (fun l => Metrics.LogitsSpearman.row_score (map exp l))
                 RefEval.expected_score logits) in H; [discriminate H|].
      rewrite Forall_forall in Hall. intros l Hl. apply row_score_long.
      now apply Hall.
    + apply Exists_exists in Hex. destruct Hex as [l [Hl Hn]].
      exists l. split; [exact Hl|lia].
  - intros H. apply Exists_exists in H. destruct H as [l [Hl Hn]].
    rewrite (@mapM_err _ _ (fun l => Metrics.LogitsSpearman.row_score (map exp l)) logits IndexError).
    + reflexivity.
    + intros a e Ha.
      destruct (le_lt_dec 6 (List.length a)) as [Hge|Hlt].
      * rewrite row_score_long in Ha by exact Hge. discriminate Ha.
      * rewrite row_score_short in Ha by (rewrite length_map; exact Hlt).
        now inversion Ha.
    + exists l, IndexError. split; [exact Hl|].
      apply row_score_short. rewrite length_map. exact Hn.
Qed.

Section DistanceSpearmanFacts.
Import Distances Metrics.
Local Open Scope R_scope.

(** With a distance whose [dist] on two single rows is [g], the loop of
    [DistanceSpearmanMetric.calculate_batch] is a map over the row pairs. *)
Lemma calculate_batch_pairs (self : DistanceSpearman.DistanceSpearmanMetric)
  (g : row -> row -> tensor) (e1 e2 : batch) (y : list R) :
  (forall a b, dist (DistanceSpearman.distance self) [a] [b] = Ok (g a b)) ->
  (List.length e1 <= List.length e2)%nat ->
  DistanceSpearman.calculate_batch self (e1, e2) y
  = Ok {| DistanceSpearman.distance := DistanceSpearman.distance self;
          DistanceSpearman.similarity :=
            DistanceSpearman.similarity self
            ++ map (fun p => DistanceSpearman.tensor_neg (g (fst p) (snd p)))
                   (combine e1 e2);
          DistanceSpearman.targets := DistanceSpearman.targets self ++ y |}.
Proof.
  intros Hg Hl. unfold DistanceSpearman.calculate_batch. cbn [fst snd].
  rewrite (@mapM_index_seq2 _ _ _
             (fun a b => d <- dist (DistanceSpearman.distance self) [a] [b] ;;
                         Ok (DistanceSpearman.tensor_neg d)) e1 e2 Hl).
  rewrite (@mapM_ok_map _ _ _
             (fun p => DistanceSpearman.tensor_neg (g (fst p) (snd p)))).
  - reflexivity.
  - intros p _. cbn beta. rewrite Hg. reflexivity.
Qed.

Lemma EuclideanDistance_dist_rows (a b : row) :
  EuclideanDistance_dist [a] [b] = Ok (T0 (l2_row a b)).
Proof.
  unfold EuclideanDistance_dist, torch_dist, batch_sub, broadcast2.
  cbn [List.length Nat.eqb combine map fst snd bind concat].
  rewrite app_nil_r. reflexivity.
Qed.

Lemma CosineDistance_dist_rows (a b : row) :
  CosineDistance_dist [a] [b] = Ok (T1 [1 - cosine_row eps_cos a b]).
Proof. reflexivity. Qed.

End DistanceSpearmanFacts.

(** X24. [DistanceSpearmanMetric.calculate_batch] with the Euclidean
    distance, on two batches of rows of one width, the second with at least
    as many rows as the first: it appends one similarity per row of the
    first batch, the 0-dimensional tensor of minus the 2-norm distance of
    the two rows at that position (row by row, not one number for the
    batch), and every such similarity is at most 0. *)
Theorem DistanceSpearman_Euclidean_similarity
  (self : Metrics.DistanceSpearman.DistanceSpearmanMetric)
  (e1 e2 : batch) (y : list R) (d : nat) :
  Metrics.DistanceSpearman.distance self = Distances.EuclideanDistance ->
  Forall (fun r => List.length r = d) e1 ->
  Forall (fun r => List.length r = d) e2 ->
  (List.length e1 <= List.length e2)%nat ->
  Metrics.DistanceSpearman.calculate_batch self (e1, e2) y
  = Ok {| Metrics.DistanceSpearman.distance := Distances.EuclideanDistance;
          Metrics.DistanceSpearman.similarity :=
            Metrics.DistanceSpearman.similarity self
            ++ map (fun p => T0 (- Distances.l2_row (fst p) (snd p)))
                   (combine e1 e2);
          Metrics.DistanceSpearman.targets :=
            Metrics.DistanceSpearman.targets self ++ y |}
  /\ List.length (combine e1 e2) = List.length e1
  /\ Forall (fun p => (- Distances.l2_row (fst p) (snd p) <= 0)%R)
            (combine e1 e2).
Proof.
  intros Hd _ _ Hl. split; [|split].
  - rewrite (@calculate_batch_pairs self
               (fun a b => T0 (Distances.l2_row a b)) e1 e2 y).
    + rewrite Hd. reflexivity.
    + intros a b. rewrite Hd. apply EuclideanDistance_dist_rows.
    + exact Hl.
  - rewrite length_combine. lia.
  - apply Forall_forall. intros p _. unfold Distances.l2_row.
    pose proof (sqrt_pos (Distances.rsum
                            (map (fun v => (v ^ 2)%R)
                               (Distances.zip_with Rminus (fst p) (snd p))))).
    lra.
Qed.

Lemma DistanceSpearman_Euclidean_similarity_witness :
  Metrics.DistanceSpearman.calculate_batch
    (Metrics.DistanceSpearman.init Distances.EuclideanDistance)
    ([[0; 0]; [1; 1]]%R, [[3; 4]; [1; 1]]%R) [2; 5]%R
  = Ok {| Metrics.DistanceSpearman.distance := Distances.EuclideanDistance;
          Metrics.DistanceSpearman.similarity :=
            [T0 (- Distances.l2_row [0; 0] [3; 4]);
             T0 (- Distances.l2_row [1; 1] [1; 1])]%R;
          Metrics.DistanceSpearman.targets := [2; 5]%R |}
  /\ List.length (combine [[0; 0]; [1; 1]]%R [[3; 4]; [1; 1]]%R) = 2%nat
  /\ Forall (fun p => (- Distances.l2_row (fst p) (snd p) <= 0)%R)
            (combine [[0; 0]; [1; 1]]%R [[3; 4]; [1; 1]]%R).
Proof.
  apply (@DistanceSpearman_Euclidean_similarity
           (Metrics.DistanceSpearman.init Distances.EuclideanDistance)
           [[0; 0]; [1; 1]]%R [[3; 4]; [1; 1]]%R [2; 5]%R 2%nat).
  - reflexivity.
  - repeat constructor.
  - repeat constructor.
  - simpl. lia.
Defined.

(** X25. [DistanceSpearmanMetric.calculate_batch] with the cosine distance,
    under the same conditions: it appends one similarity per row of the
    first batch, the one-element tensor of the cosine similarity of the two
    rows minus 1, which lies between -2 and 0. *)
Theorem DistanceSpearman_Cosine_similarity
  (self : Metrics.DistanceSpearman.DistanceSpearmanMetric)
  (e1 e2 : batch) (y : list R) (d : nat) :
  Metrics.DistanceSpearman.distance self = Distances.CosineDistance ->
  Forall (fun r => List.length r = d) e1 ->
  Forall (fun r => List.length r = d) e2 ->
  (List.length e1 <= List.length e2)%nat ->
  Metrics.DistanceSpearman.calculate_batch self (e1, e2) y
  = Ok {| Metrics.DistanceSpearman.distance := Distances.CosineDistance;
          Metrics.DistanceSpearman.similarity :=
            Metrics.DistanceSpearman.similarity self
            ++ map (fun p => T1 [- RefMore.cosine_dist_row (fst p) (snd p)]%R)
                   (combine e1 e2);
          Metrics.DistanceSpearman.targets :=
            Metrics.DistanceSpearman.targets self ++ y |}
  /\ List.length (combine e1 e2) = List.length e1
  /\ Forall (fun p => (-2 <= - RefMore.cosine_dist_row (fst p) (snd p) <= 0)%R)
            (combine e1 e2).
Proof.
  intros Hd _ _ Hl. split; [|split].
  - rewrite (@calculate_batch_pairs self
               (fun a b => T1 [RefMore.cosine_dist_row a b]) e1 e2 y).
    + rewrite Hd. reflexivity.
    + intros a b. rewrite Hd. apply CosineDistance_dist_rows.
    + exact Hl.
  - rewrite length_combine. lia.
  - apply Forall_forall. intros p _. unfold RefMore.cosine_dist_row.
    pose proof (cosine_row_range (fst p) (snd p)). lra.
Qed.

Lemma DistanceSpearman_Cosine_similarity_witness :
  Metrics.DistanceSpearman.calculate_batch
    (Metrics.DistanceSpearman.init Distances.CosineDistance)
    ([[1; 0]]%R, [[0; 1]; [1; 1]]%R) [2]%R
  = Ok {| Metrics.DistanceSpearman.distance := Distances.CosineDistance;
          Metrics.DistanceSpearman.similarity :=
            [T1 [- RefMore.cosine_dist_row [1; 0] [0; 1]]]%R;
          Metrics.DistanceSpearman.targets := [2]%R |}
  /\ List.length (combine [[1; 0]]%R [[0; 1]; [1; 1]]%R) = 1%nat
  /\ Forall (fun p => (-2 <= - RefMore.cosine_dist_row (fst p) (snd p) <= 0)%R)
            (combine [[1; 0]]%R [[0; 1]; [1; 1]]%R).
Proof.
  apply (@DistanceSpearman_Cosine_similarity
           (Metrics.DistanceSpearman.init Distances.CosineDistance)
           [[1; 0]]%R [[0; 1]; [1; 1]]%R [2]%R 2%nat).
  - reflexivity.
  - repeat constructor.
  - repeat constructor.
  - simpl. lia.
Defined.

(** *** The best metric of a training run *)

Section EvaluatorFacts.
Import Metrics.Evaluator.
Local Open Scope R_scope.

Lemma on_after_epoch_better (b : R) (e0 e : Z) (v : R)
  (callbacks : list callback) :
  v > b ->
  on_after_epoch {| best_metric := Num b; best_epoch := e0 |} callbacks e
    (inr (Num v))
  = ({| best_metric := Num v; best_epoch := e |},
     notify callbacks e (Num v)).
Proof.
  intros H. unfold on_after_epoch, value_gt. cbn [best_metric].
  destruct (Rgt_dec v b); [reflexivity|contradiction].
Qed.

Lemma on_after_epoch_same (b : R) (e0 e : Z) (m : value)
  (callbacks : list callback) :
  (forall v, m = Num v -> v <= b) ->
  on_after_epoch {| best_metric := Num b; best_epoch := e0 |} callbacks e
    (inr m)
  = ({| best_metric := Num b; best_epoch := e0 |}, inr tt).
Proof.
  intros H. unfold on_after_epoch, value_gt. cbn [best_metric].
  destruct m as [v|]; [|reflexivity].
  destruct (Rgt_dec v b) as [Hg|]; [|reflexivity].
  specialize (H v eq_refl). lra.
Qed.

(** A measurement that raises ends the run at once, with the evaluator as
    it was. *)
Lemma run_measurement_raises (self : Evaluator) (callbacks : list callback)
  (e : Z) (x : raised) (t : list (Z * outcome value)) :
  run self callbacks ((e, inl x) :: t) = (self, inl x).
Proof. reflexivity. Qed.

End EvaluatorFacts.

(** X26. The best metric of a [SpeakerVerificationEvaluator] or an
    [STSEvaluator] over a training run that completes ([on_after_epoch]
    once per epoch; no evaluation and no callback raised), started from a
    real best metric [b]: every epoch's evaluation returned a value, and
    the best metric ends as a real number that bounds [b] and every real
    value measured; NaN values are skipped.  Either no value exceeded [b]
    and the evaluator is unchanged, or the best metric exceeds [b] and
    [best_epoch] is the first epoch at which that value was measured. *)
Theorem Evaluator_tracks_first_maximum (b : R) (e0 : Z)
  (callbacks : list Metrics.Evaluator.callback)
  (epochs : list (Z * outcome value)) :
  let start := {| Metrics.Evaluator.best_metric := Num b;
                  Metrics.Evaluator.best_epoch := e0 |} in
  let final := fst (Metrics.Evaluator.run start callbacks epochs) in
  snd (Metrics.Evaluator.run start callbacks epochs) = inr tt ->
  exists (vals : list (Z * value)) (b' : R),
    epochs = map (fun ev => (fst ev, inr (snd ev))) vals /\
    Metrics.Evaluator.best_metric final = Num b' /\
    (b <= b')%R /\
    (forall e v, In (e, Num v) vals -> (v <= b')%R) /\
    ((final = start /\ forall e v, In (e, Num v) vals -> (v <= b)%R)
     \/ ((b < b')%R /\
         exists before after,
           vals = before
                  ++ (Metrics.Evaluator.best_epoch final, Num b') :: after
           /\ forall e v, In (e, Num v) before -> (v < b')%R)).
Proof.
  cbv zeta. revert b e0. induction epochs as [|[e m] t IH]; intros b e0 Hrun.
  - exists [], b.
    cbn [Metrics.Evaluator.run fst Metrics.Evaluator.best_metric map].
    split; [reflexivity|]. split; [reflexivity|]. split; [lra|].
    split; [intros e v []|].
    left. split; [reflexivity|intros e v []].
  - destruct m as [x|m]; [rewrite run_measurement_raises in Hrun;
                          discriminate Hrun|].
    assert (Hcase : (exists v, m = Num v /\ (v > b)%R)
                    \/ (forall v, m = Num v -> (v <= b)%R)).
    { destruct m as [v|]; [|right; intros v Hv; discriminate Hv].
      destruct (Rgt_dec v b) as [Hg|Hn].
      - left. exists v. split; [reflexivity|exact Hg].
      - right. intros v' Hv'. inversion Hv'; subst. lra. }
    cbn [Metrics.Evaluator.run fst snd] in Hrun |- *.
    destruct Hcase as [[v [-> Hg]]|Hle].
    + rewrite on_after_epoch_better in Hrun |- * by exact Hg.
      cbn [fst snd] in Hrun |- *.
      destruct (Metrics.Evaluator.notify callbacks e (Num v)) as [x|u];
        [discriminate Hrun|].
      destruct (IH v e Hrun) as [vals [b' [Hep [Hb [Hvb [Hall Hor]]]]]].
      exists ((e, Num v) :: vals), b'.
      split; [cbn [map fst snd]; now rewrite Hep|].
      split; [exact Hb|]. split; [lra|]. split.
      * intros e1 v1 [Heq|Hin].
        -- inversion Heq; subst. exact Hvb.
        -- exact (Hall e1 v1 Hin).
      * right. destruct Hor as [[Hsame Ht]|[Hlt [pre [post [Ht Hpre]]]]].
        -- rewrite Hsame in Hb. cbn [Metrics.Evaluator.best_metric] in Hb.
           inversion Hb; subst b'. split; [lra|].
           exists [], vals. rewrite Hsame.
           cbn [Metrics.Evaluator.best_epoch app].
           split; [reflexivity|intros e1 v1 []].
        -- split; [lra|]. exists ((e, Num v) :: pre), post.
           split; [rewrite Ht at 1; reflexivity|].
           intros e1 v1 [Heq|Hin].
           ++ inversion Heq; subst. exact Hlt.
           ++ exact (Hpre e1 v1 Hin).
    + rewrite on_after_epoch_same in Hrun |- * by exact Hle.
      cbn [fst snd] in Hrun |- *.
      destruct (IH b e0 Hrun) as [vals [b' [Hep [Hb [Hbb [Hall Hor]]]]]].
      exists ((e, m) :: vals), b'.
      split; [cbn [map fst snd]; now rewrite Hep|].
      split; [exact Hb|]. split; [exact Hbb|]. split.
      * intros e1 v1 [Heq|Hin].
        -- inversion Heq; subst. specialize (Hle v1 eq_refl). lra.
        -- exact (Hall e1 v1 Hin).
      * destruct Hor as [[Hsame Ht]|[Hlt [pre [post [Ht Hpre]]]]].
        -- left. split; [exact Hsame|].
           intros e1 v1 [Heq|Hin].
           ++ inversion Heq; subst. exact (Hle v1 eq_refl).
           ++ exact (Ht e1 v1 Hin).
        -- right. split; [exact Hlt|]. exists ((e, m) :: pre), post.
           split; [rewrite Ht at 1; reflexivity|].
           intros e1 v1 [Heq|Hin].
           ++ inversion Heq; subst. specialize (Hle v1 eq_refl). lra.
           ++ exact (Hpre e1 v1 Hin).
Qed.

Lemma Evaluator_tracks_first_maximum_witness :
  let start := {| Metrics.Evaluator.best_metric := Num 0;
                  Metrics.Evaluator.best_epoch := (-1)%Z |} in
  let epochs := [(1%Z, inr (Num 2)); (2%Z, inr NaN); (3%Z, inr (Num 1))] in
  let final := fst (Metrics.Evaluator.run start [] epochs) in
  exists (vals : list (Z * value)) (b' : R),
    epochs = map (fun ev => (fst ev, inr (snd ev))) vals /\
    Metrics.Evaluator.best_metric final = Num b' /\
    (0 <= b')%R /\
    (forall e v, In (e, Num v) vals -> (v <= b')%R) /\
    ((final = start /\ forall e v, In (e, Num v) vals -> (v <= 0)%R)
     \/ ((0 < b')%R /\
         exists before after,
           vals = before
                  ++ (Metrics.Evaluator.best_epoch final, Num b') :: after
           /\ forall e v, In (e, Num v) before -> (v < b')%R)).
Proof.
  intros start epochs final.
  apply (@Evaluator_tracks_first_maximum 0%R (-1)%Z []
           [(1%Z, inr (Num 2)); (2%Z, inr NaN); (3%Z, inr (Num 1))]).
  cbn [Metrics.Evaluator.run fst snd].
  rewrite on_after_epoch_better by lra.
  cbn [Metrics.Evaluator.notify fst snd].
  rewrite on_after_epoch_same by (intros v Hv; discriminate Hv).
  cbn [fst snd].
  rewrite on_after_epoch_same by (intros v Hv; inversion Hv; lra).
  reflexivity.
Defined.

(** *** The training features of [ClassAccuracyEvaluator] *)

Section ClassAccuracyFacts.
Import Metrics.ClassAccuracy.

(** [on_after_gradients] appends to [y_train] only: [feat_train] stays as
    [on_before_epoch] left it. *)
Lemma batches_keep_feat_train (self : ClassAccuracyEvaluator)
  (l : list (list Z)) (ys : list (list Z)) :
  y_train self = Some l ->
  exists s, batches self ys = inr s
            /\ feat_train s = feat_train self
            /\ y_train s = Some (l ++ ys).
Proof.
  revert self l. induction ys as [|y t IH]; intros self l Hy.
  - exists self. cbn [batches]. rewrite app_nil_r. auto.
  - cbn [batches]. unfold on_after_gradients. rewrite Hy. cbn [obind].
    destruct (IH {| feat_train := feat_train self;
                    y_train := Some (l ++ [y]) |} (l ++ [y]) eq_refl)
      as [s [Hs [Hf Hyt]]].
    exists s. split; [exact Hs|]. split; [exact Hf|].
    rewrite Hyt, <- app_assoc. reflexivity.
Qed.

End ClassAccuracyFacts.

(** X27. [ClassAccuracyEvaluator.on_after_epoch] cannot complete: after
    [on_before_epoch] and the [on_after_gradients] calls of any number of
    batches, which all succeed and collect the labels, [feat_train] is
    still the empty list, so [np.concatenate(self.feat_train)] raises
    [ValueError] before the metric is fitted, whatever the rest of the
    method does. *)
Theorem ClassAccuracyEvaluator_on_after_epoch_raises
  (T : Type) (self : Metrics.ClassAccuracy.ClassAccuracyEvaluator)
  (ys : list (list Z))
  (rest : batch -> list Z -> outcome T) :
  exists s,
    Metrics.ClassAccuracy.batches
      (Metrics.ClassAccuracy.on_before_epoch self) ys = inr s
    /\ Metrics.ClassAccuracy.y_train s = Some ys
    /\ Metrics.ClassAccuracy.on_after_epoch s rest = inl (Raised ValueError).
Proof.
  destruct (@batches_keep_feat_train
              (Metrics.ClassAccuracy.on_before_epoch self) [] ys eq_refl)
    as [s [Hs [Hf Hy]]].
  exists s. split; [exact Hs|]. split; [exact Hy|].
  unfold Metrics.ClassAccuracy.on_after_epoch. rewrite Hf. reflexivity.
Qed.

(** *** The word ids of [PWIM] *)

Section PwimFacts.
Import Pwim.

Lemma omapM_inr_map {A B : Type} (f : A -> outcome B) (g : A -> B)
  (l : list A) :
  (forall a, In a l -> f a = inr (g a)) -> omapM f l = inr (map g l).
Proof.
  induction l as [|a t IH]; intros H; [reflexivity|].
  cbn [omapM map]. rewrite (H a (or_introl eq_refl)). cbn [obind].
  rewrite IH by (intros b Hb; apply H; now right). reflexivity.
Qed.

Lemma fold_left_cons_rev {A B : Type} (g : A -> B) (l : list A)
  (acc : list B) :
  fold_left (fun d x => g x :: d) l acc = rev (map g l) ++ acc.
Proof.
  revert acc. induction l as [|a t IH]; intros acc; [reflexivity|].
  cbn [fold_left map rev]. rewrite IH, <- app_assoc. reflexivity.
Qed.

Lemma in_word2id (tokens : list string) (w : string) (i : nat) :
  In (w, i) (enumerate_dict tokens) <-> nth_error tokens i = Some w.
Proof.
  unfold enumerate_dict, dict_set.
  rewrite (@fold_left_cons_rev _ _ (fun iw : nat * string => (snd iw, fst iw))).
  rewrite app_nil_r, <- in_rev, in_map_iff. split.
  - intros [[j u] [Heq Hin]]. cbn [fst snd] in Heq. inversion Heq; subst.
    now apply in_enumerate.
  - intros H. exists (i, w). split; [reflexivity|]. now apply in_enumerate.
Qed.

Lemma dict_get_Some (tokens : list string) (w : string) (i : nat) :
  dict_get (enumerate_dict tokens) w = Some i -> nth_error tokens i = Some w.
Proof.
  unfold dict_get. intros H.
  destruct (find (fun kv => String.eqb (fst kv) w) (enumerate_dict tokens))
    as [[k v]|] eqn:Ef; [|discriminate].
  cbn [snd] in H. inversion H; subst v.
  apply find_some in Ef. destruct Ef as [Hin Heq]. cbn [fst] in Heq.
  apply String.eqb_eq in Heq. subst k. now apply in_word2id.
Qed.

Lemma dict_get_known (tokens : list string) (w : string) :
  In w tokens -> exists i, dict_get (enumerate_dict tokens) w = Some i.
Proof.
  intros H. unfold dict_get.
  destruct (find (fun kv => String.eqb (fst kv) w) (enumerate_dict tokens))
    as [[k v]|] eqn:Ef; [exists v; reflexivity|].
  exfalso. apply In_nth_error in H. destruct H as [i Hi].
  apply in_word2id in Hi.
  pose proof (find_none _ _ Ef _ Hi) as Hn. cbn [fst] in Hn.
  rewrite String.eqb_refl in Hn. discriminate Hn.
Qed.

Lemma dict_get_unknown (tokens : list string) (w : string) :
  ~ In w tokens -> dict_get (enumerate_dict tokens) w = None.
Proof.
  intros H. destruct (dict_get (enumerate_dict tokens) w) as [i|] eqn:E;
    [|reflexivity].
  exfalso. apply H. apply dict_get_Some in E.
  now apply nth_error_In in E.
Qed.

Lemma existsb_eqb_In (w : string) (l : list string) :
  existsb (String.eqb w) l = true <-> In w l.
Proof.
  rewrite existsb_exists. split.
  - intros [x [Hin Heq]]. apply String.eqb_eq in Heq. now subst.
  - intros H. exists w. split; [exact H|apply String.eqb_refl].
Qed.

End PwimFacts.

(** X28. [PWIM.__init__] followed by [word_layer]: when the vocabulary
    holds a vector of width [nfeat_word] > 0 for every token and for
    'oov', the constructor succeeds; the caller's token list comes back
    unchanged if it held 'oov' and with 'oov' appended otherwise; and
    [word_layer] never fails on any sentence: it returns, word by word, the
    pretrained vector of the word if the word is a token and that of
    'oov' if not. *)
Theorem word_layer_after_init (nfeat_word : nat)
  (vec_vocab : string -> option row) (tokens : list string) :
  (0 < nfeat_word)%nat ->
  (forall w, In w ("oov"%string :: tokens) ->
             exists v, vec_vocab w = Some v /\ List.length v = nfeat_word) ->
  exists self tokens',
    Pwim.PWIM_init nfeat_word vec_vocab tokens = inr (self, tokens')
    /\ tokens' = (if existsb (String.eqb "oov") tokens then tokens
                  else tokens ++ ["oov"%string])
    /\ In "oov"%string tokens'
    /\ forall sent,
         Pwim.word_layer self sent
         = inr (map (RefEval.pretrained vec_vocab tokens) sent).
Proof.
  intros Hn Hv.
  set (tokens' := if existsb (String.eqb "oov") tokens then tokens
                  else tokens ++ ["oov"%string]).
  assert (Hin' : forall w, In w tokens' <-> In w tokens \/ w = "oov"%string).
  { intros w. unfold tokens'.
    destruct (existsb (String.eqb "oov") tokens) eqn:Eo.
    - apply existsb_eqb_In in Eo. split; [tauto|].
      intros [H|H]; [exact H|subst; exact Eo].
    - rewrite in_app_iff. cbn [In]. split.
      + intros [H|[H|[]]]; [now left|right; now symmetry].
      + intros [H|H]; [now left|right; left; now symmetry]. }
  assert (Hoov : In "oov"%string tokens') by (apply Hin'; now right).
  set (vec := fun w => match vec_vocab w with Some v => v | None => [] end).
  assert (Hw : omapM (fun word => match vec_vocab word with
                                  | Some v => Pwim.assign_row nfeat_word v
                                  | None => inl KeyError
                                  end) tokens' = inr (map vec tokens')).
  { apply omapM_inr_map. intros w Hwin.
    destruct (Hv w) as [v [Hsome Hlen]].
    { apply Hin' in Hwin. destruct Hwin as [H|H]; [now right|now left]. }
    unfold vec. rewrite Hsome. unfold Pwim.assign_row.
    rewrite Hlen, Nat.eqb_refl. reflexivity. }
  exists {| Pwim.nfeat_word := nfeat_word;
            Pwim.word2id := Pwim.enumerate_dict tokens';
            Pwim.weight := map vec tokens' |}, tokens'.
  split; [|split; [reflexivity|split; [exact Hoov|]]].
  - unfold Pwim.PWIM_init. cbv zeta. fold tokens'. rewrite Hw. reflexivity.
  - intros sent. unfold Pwim.word_layer.
    cbn [Pwim.word2id Pwim.weight Pwim.nfeat_word].
    destruct (dict_get_known tokens' "oov" Hoov) as [io Hio].
    set (id_of := fun w => match Pwim.dict_get (Pwim.enumerate_dict tokens') w with
                           | Some i => i
                           | None => io
                           end).
    rewrite (@omapM_inr_map _ _ _ id_of sent).
    2:{ intros w _. unfold id_of.
        destruct (Pwim.dict_get (Pwim.enumerate_dict tokens') w); [reflexivity|].
        rewrite Hio. reflexivity. }
    cbn [obind].
    rewrite (@omapM_inr_map _ _ _
               (fun i => nth i (map vec tokens') []) (map id_of sent)).
    2:{ intros i Hi. apply in_map_iff in Hi. destruct Hi as [w [<- _]].
        assert (Hlt : (id_of w < List.length tokens')%nat).
        { unfold id_of.
          destruct (Pwim.dict_get (Pwim.enumerate_dict tokens') w) as [i|] eqn:E.
          - apply dict_get_Some in E. apply nth_error_Some. congruence.
          - apply dict_get_Some in Hio. apply nth_error_Some. congruence. }
        rewrite (@nth_error_nth' _ (map vec tokens') (id_of w) []);
          [reflexivity|now rewrite length_map]. }
    cbn [obind]. destruct (Nat.eqb_spec nfeat_word 0) as [H0|_]; [lia|].
    f_equal. rewrite map_map. apply map_ext. intros w.
    unfold RefEval.pretrained. cbv zeta. fold (vec (if existsb (String.eqb w) tokens
                                         then w else "oov"%string)).
    assert (Hnth : forall i u, nth_error tokens' i = Some u ->
                               nth i (map vec tokens') [] = vec u).
    { intros i u Hu.
      rewrite (@nth_indep _ (map vec tokens') i [] (vec u))
        by (rewrite length_map; apply nth_error_Some; congruence).
      rewrite map_nth. f_equal. now apply nth_error_nth. }
    unfold id_of.
    destruct (Pwim.dict_get (Pwim.enumerate_dict tokens') w) as [i|] eqn:E.
    + apply dict_get_Some in E. rewrite (Hnth i w E).
      destruct (existsb (String.eqb w) tokens) eqn:Ew; [reflexivity|].
      assert (Hnot : ~ In w tokens).
      { intros Hc. apply existsb_eqb_In in Hc. congruence. }
      apply nth_error_In in E. apply Hin' in E.
      destruct E as [E|E]; [contradiction|now subst].
    + apply dict_get_Some in Hio. rewrite (Hnth io "oov"%string Hio).
      destruct (existsb (String.eqb w) tokens) eqn:Ew; [|reflexivity].
      apply existsb_eqb_In in Ew.
      destruct (dict_get_known tokens' w) as [i Hi];
        [apply Hin'; now left|congruence].
Qed.

Lemma word_layer_after_init_witness :
  let vocab := fun w : string =>
                 if String.eqb w "oov" then Some [0%R]
                 else if String.eqb w "a" then Some [1%R] else None in
  exists self tokens',
    Pwim.PWIM_init 1 vocab ["a"%string] = inr (self, tokens')
    /\ tokens' = ["a"%string; "oov"%string]
    /\ In "oov"%string tokens'
    /\ forall sent,
         Pwim.word_layer self sent
         = inr (map (RefEval.pretrained vocab ["a"%string]) sent).
Proof.
  intros vocab.
  apply (@word_layer_after_init 1 vocab ["a"%string]).
  - lia.
  - intros w [<-|[<-|[]]].
    + exists [0%R]. split; reflexivity.
    + exists [1%R]. split; reflexivity.
Defined.
